(** * Lens OS agent core: streaming tool-call extractor, conversation
      memory store and turn-loop orchestrator.

    Shallow embedding of
    - [ToolParser]      (agent/utils/ToolParser.ts),
    - [MemoryManager]   (agent/context-engineer/MemoryManager.ts),
    - [SupervisorAgent] (agent/SupervisorAgent.ts),
    - [SkillParser]     (agent/utils/SkillParser.ts),
    followed by the properties established about them. *)

From Stdlib Require Import ZArith List Bool Lia String Ascii DecimalString.
From stdpp Require Import gmap list.
Import ListNotations.

Local Open Scope Z_scope.

(** ** JavaScript strings

    A JavaScript string is a finite sequence of UTF-16 code units; a code
    unit is modelled by its number. *)

Definition char : Type := N.
Definition str : Type := list char.

(** Literals of the source are written with [lit]. *)
Definition lit (s : string) : str :=
  map N_of_ascii (list_ascii_of_string s).

(** [s.length], for strings and arrays alike. *)
Definition len {A : Type} (s : list A) : Z := Z.of_nat (length s).

(** Relative index resolution shared by the arguments of
    [String.prototype.slice] and [Array.prototype.slice]: a negative
    index counts from the end. *)
Definition clampIndex (n k : Z) : Z :=
  if k <? 0 then Z.max (n + k) 0 else Z.min k n.

(** [s.slice(start, stop)]; [stop = None] is the one-argument form. *)
Definition slice {A : Type} (s : list A) (start : Z) (stop : option Z)
    : list A :=
  let from := clampIndex (len s) start in
  let to := match stop with
            | Some e => clampIndex (len s) e
            | None => len s
            end in
  take (Z.to_nat (to - from)) (drop (Z.to_nat from) s).

Fixpoint startsWith (pat s : str) : bool :=
  match pat, s with
  | [], _ => true
  | _ :: _, [] => false
  | p :: pat', c :: s' => N.eqb p c && startsWith pat' s'
  end.

(** Position of the first occurrence of [pat] in [s], if any. *)
Fixpoint find (pat s : str) : option nat :=
  if startsWith pat s then Some 0%nat
  else match s with
       | [] => None
       | _ :: s' => option_map S (find pat s')
       end.

(** [s.indexOf(pat)]: the first position, or -1. *)
Definition indexOf (s pat : str) : Z :=
  match find pat s with
  | Some i => Z.of_nat i
  | None => -1
  end.

(** The character class [\s] of regular expressions, which is also the
    set removed by [String.prototype.trim]. *)
Definition isSpace (c : char) : bool :=
  match c with
  | 9 | 10 | 11 | 12 | 13 | 32 | 160 | 5760 | 8232 | 8233 | 8239 | 8287
  | 12288 | 65279 => true
  | _ => ((8192 <=? c) && (c <=? 8202))%N
  end%N.

(** Line terminators: the characters [.] does not match. *)
Definition isLineTerminator (c : char) : bool :=
  match c with
  | 10 | 13 | 8232 | 8233 => true
  | _ => false
  end%N.

Fixpoint trimStart (s : str) : str :=
  match s with
  | c :: s' => if isSpace c then trimStart s' else s
  | [] => []
  end.

Definition trim (s : str) : str := rev (trimStart (rev (trimStart s))).

(** ** JSON values

    Values of type [any] that travel through the agent. A number is kept
    as the 64-bit pattern of its IEEE-754 double. *)

#[local] Unset Elimination Schemes.
Inductive JSON : Type :=
| JNull
| JBool (b : bool)
| JNumber (bits : Z)
| JString (s : str)
| JArray (items : list JSON)
| JObject (fields : list (str * JSON)).
#[local] Set Elimination Schemes.

(** core/types: [ToolCall]. *)
Record ToolCall : Type := mkToolCall {
  name : str;
  parameters : JSON
}.

(** ** ToolParser *)

Module ToolParser.

(** *** The two regular expressions of [parseToolContent] *)

(** [(.+?)(?:\n|$)] tried at the head of [s]: the lazy group takes the
    run of characters up to the first line terminator, which must be
    non-empty and must be followed by a line feed or by the end of the
    input. *)
Fixpoint dotRun (s : str) : str :=
  match s with
  | c :: s' => if isLineTerminator c then [] else c :: dotRun s'
  | [] => []
  end.

Definition nameGroup (s : str) : option str :=
  match dotRun s with
  | [] => None
  | r =>
      match drop (length r) s with
      | [] => Some r
      | c :: _ => if N.eqb c 10 then Some r else None
      end
  end.

(** [\s*(.+?)(?:\n|$)]: the greedy [\s*] first takes as much white space
    as there is and gives characters back one at a time when the rest
    fails. *)
Fixpoint nameAfterSpaces (s : str) : option str :=
  match s with
  | c :: s' =>
      if isSpace c then
        match nameAfterSpaces s' with
        | Some g => Some g
        | None => nameGroup s
        end
      else nameGroup s
  | [] => nameGroup []
  end.

(** [content.match(/name:\s*(.+?)(?:\n|$)/)]: capture group 1 of the
    leftmost match, or [None] for [null]. *)
Fixpoint matchName (s : str) : option str :=
  match (if startsWith (lit "name:") s
         then nameAfterSpaces (drop 5 s) else None) with
  | Some g => Some g
  | None =>
      match s with
      | [] => None
      | _ :: s' => matchName s'
      end
  end.

(** [[\s\S]*\}] tried at the head of [s]: the greedy class runs to the
    end and backs up to the last closing brace. *)
Fixpoint uptoLastBrace (s : str) : option str :=
  match s with
  | [] => None
  | c :: s' =>
      match uptoLastBrace s' with
      | Some p => Some (c :: p)
      | None => if N.eqb c 125 then Some [c] else None
      end
  end.

Definition paramsGroup (s : str) : option str :=
  match s with
  | c :: s' =>
      if N.eqb c 123 then option_map (cons c) (uptoLastBrace s') else None
  | [] => None
  end.

Fixpoint paramsAfterSpaces (s : str) : option str :=
  match s with
  | c :: s' =>
      if isSpace c then
        match paramsAfterSpaces s' with
        | Some g => Some g
        | None => paramsGroup s
        end
      else paramsGroup s
  | [] => paramsGroup []
  end.

(** [content.match(/parameters:\s*(\{[\s\S]*\})/)], capture group 1. *)
Fixpoint matchParameters (s : str) : option str :=
  match (if startsWith (lit "parameters:") s
         then paramsAfterSpaces (drop 11 s) else None) with
  | Some g => Some g
  | None =>
      match s with
      | [] => None
      | _ :: s' => matchParameters s'
      end
  end.

(** *** The parser object *)

Record t : Type := mk {
  buffer : str;
  inToolBlock : bool;
  toolBuffer : str
}.

(** [new ToolParser()]. *)
Definition create : t :=
  {| buffer := []; inToolBlock := false; toolBuffer := [] |}.

(** What [addChunk] returns; [toolCalls = None] is [null]. *)
Record output : Type := mkOutput {
  text : str;
  toolCalls : option (list ToolCall)
}.

Section WithJSON.

(** [JSON.parse]; [None] when it throws. *)
Variable JSON_parse : str -> option JSON.

Definition parseToolContent (content : str) : option ToolCall :=
  let nameMatch := matchName content in
  let paramsMatch := matchParameters content in
  match nameMatch with
  | None => None
  | Some g1 =>
      let parameters :=
        match paramsMatch with
        | Some g =>
            match JSON_parse (trim g) with
            | Some v => v
            | None => JObject [(lit "raw", JString g)]
            end
        | None => JObject []
        end in
      Some {| name := trim g1; parameters := parameters |}
  end.

(** The [while (this.buffer.length > 0)] loop of [addChunk], with the
    local variables [text] and [toolCalls] threaded through. Each round
    that does not [break] shortens what is left to scan, see
    [loopMeasure]; [None] is only returned when [fuel] runs out. *)
Fixpoint addChunkLoop (fuel : nat) (p : t) (text : str)
    (toolCalls : list ToolCall) : option (t * str * list ToolCall) :=
  match fuel with
  | O => None
  | S fuel' =>
      if len (buffer p) >? 0 then
        if negb (inToolBlock p) then
          let toolStart := indexOf (buffer p) (lit "<tool>") in
          if toolStart =? -1 then
            if len (buffer p) >? 6 then
              Some ({| buffer := slice (buffer p) (-6) None;
                       inToolBlock := inToolBlock p;
                       toolBuffer := toolBuffer p |},
                    text ++ slice (buffer p) 0 (Some (-6)), toolCalls)
            else Some (p, text, toolCalls)
          else
            addChunkLoop fuel'
              {| buffer := slice (buffer p) (toolStart + 6) None;
                 inToolBlock := true;
                 toolBuffer := [] |}
              (text ++ slice (buffer p) 0 (Some toolStart)) toolCalls
        else
          let tb := toolBuffer p ++ buffer p in
          let toolEnd := indexOf tb (lit "</tool>") in
          if toolEnd =? -1 then
            Some ({| buffer := []; inToolBlock := inToolBlock p;
                     toolBuffer := tb |}, text, toolCalls)
          else
            let toolContent := slice tb 0 (Some toolEnd) in
            let afterTool := slice tb (toolEnd + 7) None in
            addChunkLoop fuel'
              {| buffer := afterTool; inToolBlock := false;
                 toolBuffer := [] |}
              text
              (match parseToolContent toolContent with
               | Some toolCall => toolCalls ++ [toolCall]
               | None => toolCalls
               end)
      else Some (p, text, toolCalls)
  end.

(** Number of characters still to be scanned. *)
Definition loopMeasure (p : t) : nat :=
  (length (buffer p) + if inToolBlock p then length (toolBuffer p) else 0)%nat.

(** The loop run to its end from [p], with [text] and [toolCalls] empty
    at the start as in [addChunk]. *)
Definition runLoop (p : t) : t * str * list ToolCall :=
  match addChunkLoop (S (loopMeasure p)) p [] [] with
  | Some r => r
  | None => (p, [], [])
  end.

(** [this.buffer += chunk]. *)
Definition append (p : t) (chunk : str) : t :=
  {| buffer := buffer p ++ chunk;
     inToolBlock := inToolBlock p;
     toolBuffer := toolBuffer p |}.

Definition addChunk (p : t) (chunk : str) : t * output :=
  let '(p', text, toolCalls) := runLoop (append p chunk) in
  (p', {| text := text;
          toolCalls := if len toolCalls >? 0
                       then Some toolCalls else None |}).

Definition flush (p : t) : t * str :=
  ({| buffer := []; inToolBlock := false; toolBuffer := [] |}, buffer p).

(** One round of the loop, read off [addChunkLoop] with positions as
    natural numbers: either the loop stops in a state after emitting some
    text, or it goes on from a state after emitting some text and perhaps
    completing a tool call ([addChunkLoop_round] relates the two). *)
Inductive round : Type :=
| Stop (p : t) (emitted : str)
| Continue (p : t) (emitted : str) (call : option ToolCall).

Definition nextRound (p : t) : round :=
  match buffer p with
  | [] => Stop p []
  | _ :: _ =>
      if inToolBlock p then
        let tb := toolBuffer p ++ buffer p in
        match find (lit "</tool>") tb with
        | None =>
            Stop {| buffer := []; inToolBlock := true; toolBuffer := tb |} []
        | Some j =>
            Continue {| buffer := drop (j + 7) tb; inToolBlock := false;
                        toolBuffer := [] |}
                     [] (parseToolContent (take j tb))
        end
      else
        match find (lit "<tool>") (buffer p) with
        | None =>
            if (6 <? length (buffer p))%nat then
              Stop {| buffer := drop (length (buffer p) - 6) (buffer p);
                      inToolBlock := false;
                      toolBuffer := toolBuffer p |}
                   (take (length (buffer p) - 6) (buffer p))
            else Stop p []
        | Some i =>
            Continue {| buffer := drop (i + 6) (buffer p);
                        inToolBlock := true; toolBuffer := [] |}
                     (take i (buffer p)) None
        end
  end.

(** The loop, then [flush]: all the text and all the calls that come out
    of a parser whose buffer holds the rest of the stream. *)
Definition drain (p : t) : str * list ToolCall :=
  let '(p', text, toolCalls) := runLoop p in
  (text ++ snd (flush p'), toolCalls).

(** A parser at rest: the loop run again does nothing. *)
Definition atRest (p : t) : Prop := runLoop p = (p, [], []).

(** A whole stream through one parser: every fragment goes through
    [addChunk], then [flush] drains the buffer. The result is the
    concatenation of the emitted text and of the parsed tool calls. *)
Fixpoint feed (p : t) (chunks : list str) : t * str * list ToolCall :=
  match chunks with
  | [] => (p, [], [])
  | c :: rest =>
      let '(p1, out) := addChunk p c in
      let '(p2, txt, calls) := feed p1 rest in
      (p2, text out ++ txt, default [] (toolCalls out) ++ calls)
  end.

Definition extract (chunks : list str) : str * list ToolCall :=
  let '(p, txt, calls) := feed create chunks in
  (txt ++ snd (flush p), calls).

End WithJSON.

End ToolParser.

(** ** MemoryManager *)

Module MemoryManager.

Definition MAX_MESSAGES : Z := 20.
Definition COMPACT_THRESHOLD : Z := 15.
Definition KEEP_RECENT : Z := 10.
Definition MAX_TOKENS_ESTIMATE : Z := 8000.

(** core/types: [Message], [MessageContent], [CompactedMemory]. *)
Inductive Role : Type := user | assistant | system | tool.

Inductive PartType : Type := text | image_url.

Record MessageContent : Type := mkPart {
  type : PartType;
  partText : option str;
  partImageUrl : option str
}.

Inductive Content : Type :=
| Str (s : str)
| Parts (parts : list MessageContent).

(** A [Date] is kept as its time value. *)
Record Message : Type := mkMessage {
  role : Role;
  content : Content;
  timestamp : option Z
}.

Record CompactedMemory : Type := mkCompacted {
  summary : str;
  fromId : Z;
  toId : Z;
  messageCount : Z
}.

(** The two maps of the manager, keyed by session identifier. *)
Record t : Type := mk {
  messageCache : gmap str (list Message);
  compactedMemories : gmap str (list CompactedMemory)
}.

Definition create : t :=
  {| messageCache := ∅; compactedMemories := ∅ |}.

Definition roleName (r : Role) : str :=
  match r with
  | user => lit "user"
  | assistant => lit "assistant"
  | system => lit "system"
  | tool => lit "tool"
  end.

(** [Math.ceil(n / 2.5)] for a length [n]. The quotient is a whole number
    exactly when 5 divides [n], so the ceiling is that of the rational
    [2n/5]. *)
Definition ceilDiv2_5 (n : Z) : Z := (2 * n + 4) / 5.

Definition partTokens (part : MessageContent) : Z :=
  match type part, partText part with
  | text, Some ((_ :: _) as s) => ceilDiv2_5 (len s)
  | text, _ => 0
  | image_url, _ => 85
  end.

Definition messageTokens (msg : Message) : Z :=
  match content msg with
  | Str s => ceilDiv2_5 (len s)
  | Parts parts => fold_left (fun total part => total + partTokens part) parts 0
  end.

Definition estimateTokens (messages : list Message) : Z :=
  fold_left (fun total msg => total + messageTokens msg) messages 0.

(** [getMessages]: [this.messageCache.get(sessionId) || []]. *)
Definition getMessages (m : t) (sessionId : str) : list Message :=
  default [] (messageCache m !! sessionId).

Definition getCompactedMemories (m : t) (sessionId : str)
    : list CompactedMemory :=
  default [] (compactedMemories m !! sessionId).

Definition shouldCompact (m : t) (sessionId : str) : bool :=
  let messages := getMessages m sessionId in
  if len messages <? COMPACT_THRESHOLD then false
  else
    let estimatedTokens := estimateTokens messages in
    (len messages >? MAX_MESSAGES) || (estimatedTokens >? MAX_TOKENS_ESTIMATE).

(** The test of [shouldCompact] on the cached messages themselves. *)
Definition compactionDue (messages : list Message) : bool :=
  if len messages <? COMPACT_THRESHOLD then false
  else (len messages >? MAX_MESSAGES)
       || (estimateTokens messages >? MAX_TOKENS_ESTIMATE).

(** The message built by [saveMessage]. *)
Definition newMessage (role : Role) (content : str) (now : Z) : Message :=
  {| role := role; content := Str content; timestamp := Some now |}.

(** An append as data: role, content, clock reading at the append, clock
    reading at the end of the compaction it may start. *)
Definition entryMessage (entry : Role * str * Z * Z) : Message :=
  let '(role, content, now, _) := entry in newMessage role content now.

Definition isMemorySummary (msg : Message) : bool :=
  match role msg, content msg with
  | system, Str s => startsWith (lit "[Memory Summary]") s
  | _, _ => false
  end.

Definition mergePrompt : str := lit
"Summarize the following conversation concisely.

IMPORTANT: There is a previous [Memory Summary] in the messages below. You MUST:
1. Include all key information from the previous summary
2. Add new information from the subsequent messages
3. Combine them into ONE comprehensive summary

Focus on:
- Previous context and history (from the old summary)
- Key topics discussed
- Important information exchanged
- User's requests and agent's responses
- Any actions taken

Keep the combined summary under 400 words.".

Definition freshPrompt : str := lit
"Summarize the following conversation concisely. Focus on:
- Key topics discussed
- Important information exchanged
- User's requests and agent's responses
- Any actions taken

Keep it under 300 words.".

(** [parts.join(sep)]. *)
Fixpoint join (sep : str) (parts : list str) : str :=
  match parts with
  | [] => []
  | [x] => x
  | x :: rest => x ++ sep ++ join sep rest
  end.

Section WithCollaborators.

(** The summarization request [openai.chat.completions.create] with its
    system prompt and user text: [None] when the request throws,
    otherwise the content of the first choice, if there is one. *)
Variable chatCompletion : str -> str -> option (option str).

(** [JSON.stringify] of a multi-part content. *)
Variable stringifyParts : list MessageContent -> str.

Definition renderMessage (msg : Message) : str :=
  roleName (role msg) ++ lit ": " ++
  match content msg with
  | Str s => s
  | Parts parts => stringifyParts parts
  end.

Definition generateSummary (messages : list Message) : str :=
  let previousSummary := List.find isMemorySummary messages in
  let conversationText :=
    join [10%N; 10%N] (map renderMessage messages) in
  let systemPrompt :=
    match previousSummary with
    | Some _ => mergePrompt
    | None => freshPrompt
    end in
  match chatCompletion systemPrompt conversationText with
  | Some (Some ((_ :: _) as answer)) => answer
  | Some _ => lit "Summary unavailable"
  | None => lit "Summary generation failed"
  end.

(** [compactMemory], run from its call to its end; [now] is the clock
    reading taken for the summary message. *)
Definition compactMemory (m : t) (sessionId : str) (now : Z) : t :=
  let messages := getMessages m sessionId in
  if len messages <? COMPACT_THRESHOLD then m
  else
    let toCompact := slice messages 0 (Some (- KEEP_RECENT)) in
    let toKeep := slice messages (- KEEP_RECENT) None in
    if len toCompact =? 0 then m
    else
      let summary := generateSummary toCompact in
      let compacted :=
        {| summary := summary; fromId := 0; toId := len toCompact;
           messageCount := len toCompact |} in
      let existingCompacted := getCompactedMemories m sessionId in
      let summaryMessage :=
        {| role := system;
           content := Str (lit "[Memory Summary]" ++ [10%N] ++ summary);
           timestamp := Some now |} in
      {| messageCache :=
           <[sessionId := summaryMessage :: toKeep]> (messageCache m);
         compactedMemories :=
           <[sessionId := existingCompacted ++ [compacted]]>
             (compactedMemories m) |}.

(** [saveMessage]: the append to the cache, then the compaction check.
    The synchronisation with the backend does not touch the manager. The
    compaction it starts is not awaited by the caller; here it has run to
    its end, at clock reading [later], when [saveMessage] is over. *)
Definition saveMessage (m : t) (sessionId : str) (role : Role)
    (content : str) (now later : Z) : t :=
  let message := newMessage role content now in
  let messages := getMessages m sessionId ++ [message] in
  let m1 := {| messageCache := <[sessionId := messages]> (messageCache m);
               compactedMemories := compactedMemories m |} in
  if shouldCompact m1 sessionId then compactMemory m1 sessionId later
  else m1.

(** One append per entry of [entries], in order. *)
Definition saveAll (m : t) (sessionId : str)
    (entries : list (Role * str * Z * Z)) : t :=
  fold_left
    (fun acc '(role, content, now, later) =>
       saveMessage acc sessionId role content now later)
    entries m.

End WithCollaborators.

End MemoryManager.

(** ** SupervisorAgent *)

Module SupervisorAgent.

(** core/types: [StreamEvent], one constructor per [type]. *)
Inductive StreamEvent : Type :=
| TextEvent (content : str)
| ToolCallEvent (toolCall : ToolCall)
| ToolResultEvent (toolCall : ToolCall) (toolResult : JSON)
| ErrorEvent (error : str)
| DoneEvent.

(** What the model stream does at one suspension of the [for await] loop
    of [streamLLM]: it delivers a fragment, or the caller's [abort()] sets
    the cancellation signal while the loop is suspended, or the iteration
    throws. *)
Inductive StreamItem : Type :=
| Delta (content : str)
| Abort
| Fail (message : str).

(** What one [execute] does to the outside, in order: events emitted to
    the listener, messages handed to [memoryManager.saveMessage], calls
    of [executeTool], and trace records. *)
Inductive Effect : Type :=
| Emit (event : StreamEvent)
| Save (role : MemoryManager.Role) (content : str)
| Execute (toolCall : ToolCall)
| Trace (output : str).

(** The collaborators of one [execute]: whether [abort()] was called
    before the first turn, the stream the model returns at each turn, and
    the outcome of [executeTool] for a call (its value, or the message of
    the error it rejects with). *)
Record World : Type := mkWorld {
  abortedEarly : bool;
  stream : Z -> list StreamItem;
  executeTool : ToolCall -> JSON + str
}.

(** The local variables of [streamLLM]. *)
Record Locals : Type := mkLocals {
  toolParser : ToolParser.t;
  chunks : list str;
  toolCalls : list ToolCall;
  hasToolCalls : bool
}.

Definition nonEmpty {A : Type} (s : list A) : bool :=
  match s with
  | [] => false
  | _ :: _ => true
  end.

Definition emitted (trace : list Effect) : list StreamEvent :=
  omap (fun e => match e with Emit ev => Some ev | _ => None end) trace.

Definition executed (trace : list Effect) : list ToolCall :=
  omap (fun e => match e with Execute tc => Some tc | _ => None end) trace.

(** The calls whose result was reported by a [tool_result] event. *)
Definition reported (trace : list Effect) : list ToolCall :=
  omap (fun e => match e with
                 | Emit (ToolResultEvent tc _) => Some tc
                 | _ => None
                 end) trace.

Section WithJSON.

Variable JSON_parse : str -> option JSON.

(** [JSON.stringify(v)] and [JSON.stringify(v, null, 2)]. *)
Variable JSON_stringify : JSON -> str.
Variable JSON_stringify2 : JSON -> str.

Definition dedupKey (tc : ToolCall) : str :=
  JSON_stringify
    (JObject [(lit "name", JString (name tc));
              (lit "parameters", parameters tc)]).

Fixpoint dedupLoop (toolCalls : list ToolCall) (seen : gset str)
    (unique : list ToolCall) : list ToolCall :=
  match toolCalls with
  | [] => unique
  | tc :: rest =>
      let key := dedupKey tc in
      if decide (key ∈ seen) then dedupLoop rest seen unique
      else dedupLoop rest ({[key]} ∪ seen) (unique ++ [tc])
  end.

Definition deduplicateToolCalls (toolCalls : list ToolCall)
    : list ToolCall :=
  dedupLoop toolCalls ∅ [].

(** The [for await] loop of [streamLLM]. The result holds the effects,
    the cancellation signal and the locals at the end of the loop, and
    the message of the error thrown by the stream, if any. *)
Fixpoint consume (items : list StreamItem) (aborted : bool) (l : Locals)
    : list Effect * bool * Locals * option str :=
  match items with
  | [] => ([], aborted, l, None)
  | Abort :: rest => consume rest true l
  | Fail message :: _ => ([], aborted, l, Some message)
  | Delta content :: rest =>
      if aborted then ([], aborted, l, None)
      else if nonEmpty content then
        let '(parser, out) :=
          ToolParser.addChunk JSON_parse (toolParser l) content in
        let shown :=
          if nonEmpty (ToolParser.text out) && negb (hasToolCalls l)
          then [Emit (TextEvent (ToolParser.text out))] else [] in
        let parsedCalls := default [] (ToolParser.toolCalls out) in
        let l' :=
          {| toolParser := parser;
             chunks := chunks l ++ [content];
             toolCalls := toolCalls l ++ parsedCalls;
             hasToolCalls := hasToolCalls l || nonEmpty parsedCalls |} in
        let '(effects, aborted', l'', thrown) := consume rest aborted l' in
        (shown ++ map (fun call => Emit (ToolCallEvent call)) parsedCalls
           ++ effects,
         aborted', l'', thrown)
      else consume rest aborted l
  end.

(** [streamLLM] on the stream [items]: effects, cancellation signal at
    the end, and either [(response, toolCalls)] or the thrown message. *)
Definition streamLLM (items : list StreamItem) (aborted : bool)
    : list Effect * bool * (str * list ToolCall + str) :=
  let '(effects, aborted', l, thrown) :=
    consume items aborted
      {| toolParser := ToolParser.create; chunks := [];
         toolCalls := []; hasToolCalls := false |} in
  match thrown with
  | Some message => (effects, aborted', inr message)
  | None =>
      let remaining := snd (ToolParser.flush (toolParser l)) in
      let shown :=
        if nonEmpty remaining && negb (hasToolCalls l)
        then [Emit (TextEvent remaining)] else [] in
      let fullResponse := concat (chunks l) in
      (effects ++ shown ++ [Trace fullResponse], aborted',
       inl (fullResponse, toolCalls l))
  end.

(** The first rejection among the results of [Promise.all]. *)
Fixpoint firstRejection (results : list (JSON + str)) : option str :=
  match results with
  | [] => None
  | inr message :: _ => Some message
  | inl _ :: rest => firstRejection rest
  end.

Definition resultText (tc : ToolCall) (result : JSON) : str :=
  lit "[Tool Result for " ++ name tc ++ lit "]" ++ [10%N]
    ++ JSON_stringify2 result.

(** The body of [if (toolCalls.length > 0)] up to its [continue]: every
    surviving call is started; when all have returned, each result is
    saved and reported, in the order of the calls. *)
Definition runTools (w : World) (toolCalls : list ToolCall)
    : list Effect * option str :=
  let uniqueToolCalls := deduplicateToolCalls toolCalls in
  let results := map (executeTool w) uniqueToolCalls in
  let started := map Execute uniqueToolCalls in
  match firstRejection results with
  | Some message => (started, Some message)
  | None =>
      (started ++
       flat_map
         (fun '(tc, result) =>
            match result with
            | inl value =>
                [Save MemoryManager.system (resultText tc value);
                 Emit (ToolResultEvent tc value)]
            | inr _ => []
            end)
         (zip uniqueToolCalls results),
       None)
  end.

(** The [while (turnCount < maxTurns)] loop of [execute]. The result
    holds the effects, the final [turnCount] and the message of the error
    that left the loop by an exception, if any. [None] is only returned
    when [fuel] runs out. *)
Fixpoint turnLoop (fuel : nat) (w : World) (maxTurns turnCount : Z)
    (aborted : bool) : option (list Effect * Z * option str) :=
  if turnCount <? maxTurns then
    match fuel with
    | O => None
    | S fuel' =>
        if aborted then
          Some ([Emit (ErrorEvent (lit "Execution aborted by user"))],
                turnCount, None)
        else
          let turnCount := turnCount + 1 in
          let '(effects, aborted', outcome) :=
            streamLLM (stream w turnCount) aborted in
          match outcome with
          | inr message => Some (effects, turnCount, Some message)
          | inl (response, toolCalls) =>
              let saved := [Save MemoryManager.assistant response] in
              if len toolCalls >? 0 then
                match runTools w toolCalls with
                | (ran, Some message) =>
                    Some (effects ++ saved ++ ran, turnCount, Some message)
                | (ran, None) =>
                    match turnLoop fuel' w maxTurns turnCount aborted' with
                    | Some (later, final, thrown) =>
                        Some (effects ++ saved ++ ran ++ later, final, thrown)
                    | None => None
                    end
                end
              else
                Some (effects ++ saved ++ [Emit DoneEvent], turnCount, None)
          end
    end
  else Some ([], turnCount, None).

(** [this.config.maxTurns || 10]. *)
Definition resolveMaxTurns (configured : option Z) : Z :=
  match configured with
  | Some 0 | None => 10
  | Some n => n
  end.

(** [execute], from its [try] block on, with the query already resolved
    by the skill parser: the effects of the whole run. *)
Definition execute (w : World) (configured : option Z) (finalQuery : str)
    : option (list Effect) :=
  let maxTurns := resolveMaxTurns configured in
  match turnLoop (Z.to_nat maxTurns) w maxTurns 0 (abortedEarly w) with
  | Some (effects, turnCount, thrown) =>
      Some
        (Save MemoryManager.user finalQuery :: effects ++
         match thrown with
         | Some message => [Emit (ErrorEvent message)]
         | None =>
             if turnCount >=? maxTurns
             then [Emit (ErrorEvent (lit "Max turns reached"))]
             else []
         end)
  | None => None
  end.

(** The events that end a run. *)
Definition isTerminal (event : StreamEvent) : bool :=
  match event with
  | DoneEvent | ErrorEvent _ => true
  | _ => false
  end.

End WithJSON.

End SupervisorAgent.

(** ** Notions used to state further properties *)

Module ParserState.
Import ToolParser.

(** What a parser holds between two calls of [addChunk]: outside a tool
    block, at most 6 undecided characters without a complete opening tag;
    inside, no undecided text and a block content without closing tag. *)
Definition settled (p : t) : Prop :=
  if inToolBlock p
  then buffer p = [] /\ find (lit "</tool>") (toolBuffer p) = None
  else (length (buffer p) <= 6)%nat /\ find (lit "<tool>") (buffer p) = None.

(** The text a parser has still to decide on. *)
Definition pending (p : t) : str :=
  if inToolBlock p then toolBuffer p ++ buffer p else buffer p.

End ParserState.

(** ** MemoryManager: the cache-only operations *)

Module MemoryManagerOps.
Import MemoryManager.

(** [clearMessages]. *)
Definition clearMessages (m : t) (sessionId : str) : t :=
  {| messageCache := delete sessionId (messageCache m);
     compactedMemories := delete sessionId (compactedMemories m) |}.

(** [setMessages]. *)
Definition setMessages (m : t) (sessionId : str) (messages : list Message)
    : t :=
  {| messageCache := <[sessionId := messages]> (messageCache m);
     compactedMemories := compactedMemories m |}.

Section WithClient.

(** [client.getMessages]: the messages of the backend, or [None] when the
    request fails. *)
Variable fetchMessages : str -> option (list Message).

(** [getActiveMessages]: the manager afterwards and the messages
    returned. *)
Definition getActiveMessages (m : t) (sessionId : str)
    : t * list Message :=
  match messageCache m !! sessionId with
  | Some messages => (m, messages)
  | None =>
      match fetchMessages sessionId with
      | Some messages => (setMessages m sessionId messages, messages)
      | None => (m, [])
      end
  end.

(** [preloadMessages]. *)
Definition preloadMessages (m : t) (sessionId : str) : t :=
  match fetchMessages sessionId with
  | Some messages => setMessages m sessionId messages
  | None => m
  end.

End WithClient.

End MemoryManagerOps.

(** ** MemoryManager: the calls in flight

    [saveMessage] does not await the [compactMemory] it starts, and
    [compactMemory] is suspended while the summary is requested. Between
    two suspension points a call runs alone; the steps below are those
    stretches, and a schedule is the order in which they run. *)

Module MemorySchedule.
Import MemoryManager MemoryManagerOps.

(** A [compactMemory] call suspended at
    [await this.generateSummary(toCompact)], with what it has read from
    the cache before. *)
Record Compaction : Type := mkCompaction {
  session : str;
  toCompact : list Message;
  toKeep : list Message
}.

(** The manager and the calls in flight:
    - [due]: the sessions of the [saveMessage] calls for which
      [shouldCompact] was true and which are suspended at its [await],
      in the order in which they resume;
    - [running]: the suspended [compactMemory] calls. *)
Record State : Type := mkState {
  manager : t;
  due : list str;
  running : list Compaction
}.

(** A manager with no call in flight. *)
Definition idle (m : t) : State :=
  {| manager := m; due := []; running := [] |}.

Inductive Event : Type :=
| Saved (sessionId : str) (role : Role) (content : str) (now : Z)
| Resumed
| Summarized (i : nat) (now : Z)
| Cleared (sessionId : str).

(** The append of [saveMessage]. *)
Definition push (m : t) (sessionId : str) (message : Message) : t :=
  {| messageCache :=
       <[sessionId := getMessages m sessionId ++ [message]]> (messageCache m);
     compactedMemories := compactedMemories m |}.

(** [compactMemory] from its call to its [await]: [None] when it returns
    at once. *)
Definition begin (m : t) (sessionId : str) : option Compaction :=
  let messages := getMessages m sessionId in
  if len messages <? COMPACT_THRESHOLD then None
  else
    let toCompact := slice messages 0 (Some (- KEEP_RECENT)) in
    let toKeep := slice messages (- KEEP_RECENT) None in
    if len toCompact =? 0 then None
    else Some {| session := sessionId; toCompact := toCompact;
                 toKeep := toKeep |}.

Section WithCollaborators.

Variable chatCompletion : str -> str -> option (option str).
Variable stringifyParts : list MessageContent -> str.

(** [compactMemory] from the arrival of the summary to its end; [now] is
    the clock reading taken for the summary message. *)
Definition finish (m : t) (c : Compaction) (now : Z) : t :=
  let summary := generateSummary chatCompletion stringifyParts (toCompact c) in
  let compacted :=
    {| summary := summary; fromId := 0; toId := len (toCompact c);
       messageCount := len (toCompact c) |} in
  let existingCompacted := getCompactedMemories m (session c) in
  let summaryMessage :=
    {| role := system;
       content := Str (lit "[Memory Summary]" ++ [10%N] ++ summary);
       timestamp := Some now |} in
  {| messageCache :=
       <[session c := summaryMessage :: toKeep c]> (messageCache m);
     compactedMemories :=
       <[session c := existingCompacted ++ [compacted]]>
         (compactedMemories m) |}.

(** One step:
    - [Saved]: [saveMessage] from its call to its [await]: the message is
      appended and [shouldCompact] is evaluated;
    - [Resumed]: the oldest suspended [saveMessage] resumes and calls
      [compactMemory], which runs to its [await] or returns at once;
    - [Summarized i]: the [i]-th suspended [compactMemory] receives its
      summary and runs to its end;
    - [Cleared]: [clearMessages]. *)
Definition step (st : State) (e : Event) : State :=
  match e with
  | Saved sessionId role content now =>
      let m1 := push (manager st) sessionId (newMessage role content now) in
      {| manager := m1;
         due := if shouldCompact m1 sessionId then due st ++ [sessionId]
                else due st;
         running := running st |}
  | Resumed =>
      match due st with
      | [] => st
      | sessionId :: rest =>
          {| manager := manager st;
             due := rest;
             running :=
               match begin (manager st) sessionId with
               | Some c => running st ++ [c]
               | None => running st
               end |}
      end
  | Summarized i now =>
      match running st !! i with
      | None => st
      | Some c =>
          {| manager := finish (manager st) c now;
             due := due st;
             running := delete i (running st) |}
      end
  | Cleared sessionId =>
      {| manager := clearMessages (manager st) sessionId;
         due := due st;
         running := running st |}
  end.

(** The state after the steps of a schedule. *)
Definition run (st : State) (schedule : list Event) : State :=
  fold_left step schedule st.

End WithCollaborators.

(** The steps that complete no compaction. *)
Definition completesNone (e : Event) : Prop :=
  match e with
  | Summarized _ _ => False
  | _ => True
  end.

(** The steps that can be taken by calls on one session alone. *)
Definition concerns (sessionId : str) (e : Event) : Prop :=
  match e with
  | Saved s _ _ _ | Cleared s => s = sessionId
  | Resumed | Summarized _ _ => True
  end.

(** A session has a compaction waiting to start or to complete. *)
Definition compacting (st : State) (sessionId : str) : Prop :=
  sessionId ∈ due st \/ sessionId ∈ map session (running st).

(** Every suspended compaction covers at least five messages and keeps
    ten. *)
Definition sound (st : State) : Prop :=
  Forall (fun c => 5 <= len (toCompact c) /\ length (toKeep c) = 10%nat)
         (running st).

(** The cache of a session holds more than 20 messages only while a
    compaction of the session is waiting to start or to complete. *)
Definition bounded (st : State) : Prop :=
  forall sessionId,
    (length (getMessages (manager st) sessionId) <= 20)%nat \/
    compacting st sessionId.

(** The records kept for every session are well formed. *)
Definition recorded (st : State) : Prop :=
  forall sessionId,
    Forall (fun r => fromId r = 0 /\ toId r = messageCount r /\
                     5 <= messageCount r /\ summary r <> [])
           (getCompactedMemories (manager st) sessionId).

(** Two states that calls on [sessionId] alone cannot tell apart. *)
Definition alike (sessionId : str) (st1 st2 : State) : Prop :=
  due st1 = due st2 /\
  running st1 = running st2 /\
  getMessages (manager st1) sessionId = getMessages (manager st2) sessionId /\
  getCompactedMemories (manager st1) sessionId =
    getCompactedMemories (manager st2) sessionId /\
  Forall (fun s => s = sessionId) (due st1) /\
  Forall (fun c => session c = sessionId) (running st1).

End MemorySchedule.

(** ** Views of a run *)

Module TraceViews.
Import SupervisorAgent.

(** The text shown to the user: the contents of the [text] events, in
    order. *)
Definition shownText (trace : list Effect) : str :=
  concat (omap (fun e => match e with
                         | Emit (TextEvent content) => Some content
                         | _ => None
                         end) trace).

(** The assistant responses saved to memory, one per completed model
    turn. *)
Definition responses (trace : list Effect) : list str :=
  omap (fun e => match e with
                 | Save MemoryManager.assistant content => Some content
                 | _ => None
                 end) trace.

(** The value a call returned, [null] standing for a rejection. *)
Definition returned (w : World) (tc : ToolCall) : JSON :=
  match executeTool w tc with
  | inl value => value
  | inr _ => JNull
  end.

End TraceViews.

(** ** SupervisorAgent: tools run at the customer's endpoint *)

Module CustomerTool.

(** The fields of [ToolExecutionConfig] that [executeCustomerTool] reads;
    [None] is an absent field. [maxRetries] is an integer. *)
Record ExecutionConfig : Type := mkExecutionConfig {
  customerEndpoint : option str;
  timeoutMs : option Z;
  maxRetries : option Z
}.

(** What one [executeCustomerTool] does to the outside, in order: a
    [fetch] of the endpoint with a request body, aborted after the time
    limit, and a [setTimeout] pause between two attempts. *)
Inductive Step : Type :=
| Request (endpoint body : str) (timeLimit : Z)
| Wait (ms : Z).

(** What the endpoint makes of one attempt, up to [response.json()]:
    - [Answered result]: the status is ok and the body parses to [result];
    - [Failed message]: an error with this message is thrown before that
      (a rejected or timed-out [fetch], a status that is not ok, a body
      that cannot be read or parsed);
    - [Stalled]: [fetch] has resolved, so the timer is cleared, and the
      body never arrives: [response.text()] or [response.json()] stays
      pending. *)
Inductive Attempt : Type :=
| Answered (result : JSON)
| Failed (message : str)
| Stalled.

(** How a call ends. *)
Inductive Outcome : Type :=
| Returns (value : JSON)
| Hangs.

(** The text of an integer in a template literal. *)
Definition decimal (n : Z) : str := lit (NilZero.string_of_int (Z.to_int n)).

(** [{ success: false, error }]. *)
Definition failure (error : str) : JSON :=
  JObject [(lit "success", JBool false); (lit "error", JString error)].

(** The number of requests sent and the time spent pausing. *)
Fixpoint requests (steps : list Step) : Z :=
  match steps with
  | [] => 0
  | Request _ _ _ :: rest => 1 + requests rest
  | Wait _ :: rest => requests rest
  end.

Fixpoint waited (steps : list Step) : Z :=
  match steps with
  | [] => 0
  | Wait ms :: rest => ms + waited rest
  | Request _ _ _ :: rest => waited rest
  end.

Section WithEndpoint.

Variable JSON_stringify : JSON -> str.

Variable attemptOutcome : Z -> Attempt.

(** The message of the [TypeError] that reading a property of [null]
    throws. *)
Variable nullMessage : str.

(** The message of the error caught at an attempt, if one is thrown in
    the [try] block. After [response.json()] the block reads
    [result.success], which throws when the body was [null]. *)
Definition thrown (outcome : Attempt) : option str :=
  match outcome with
  | Failed message => Some message
  | Answered JNull => Some nullMessage
  | Answered _ | Stalled => None
  end.

(** The [for (attempt = 0; attempt <= maxRetries; attempt++)] loop from
    [attempt] on: the steps, and how the loop is left: by the [return]
    inside it, at its end with [lastError], or never. [None] is only
    returned when [fuel] runs out. The pause
    [Math.pow(2, attempt) * 1000] is exact in a double for the attempts
    below 1014. *)
Fixpoint attemptLoop (fuel : nat) (request : Step) (maxRetries attempt : Z)
    (lastError : option str)
    : option (list Step * (Outcome + option str)) :=
  if attempt <=? maxRetries then
    match fuel with
    | O => None
    | S fuel' =>
        match thrown (attemptOutcome attempt) with
        | Some message =>
            let pause :=
              if attempt <? maxRetries then [Wait (2 ^ attempt * 1000)]
              else [] in
            match
              attemptLoop fuel' request maxRetries (attempt + 1)
                (Some message)
            with
            | Some (steps, ending) => Some (request :: pause ++ steps, ending)
            | None => None
            end
        | None =>
            match attemptOutcome attempt with
            | Answered result => Some ([request], inl (Returns result))
            | _ => Some ([request], inl Hangs)
            end
        end
    end
  else Some ([], inr lastError).

(** [lastError?.message || 'Unknown error']. *)
Definition lastMessage (lastError : option str) : str :=
  match lastError with
  | Some ((_ :: _) as message) => message
  | _ => lit "Unknown error"
  end.

Definition executeCustomerTool (toolName : str) (parameters : JSON)
    (execution : ExecutionConfig) : option (list Step * Outcome) :=
  let timeoutMs := default 20000 (timeoutMs execution) in
  let maxRetries := default 1 (maxRetries execution) in
  match customerEndpoint execution with
  | None | Some [] =>
      Some ([], Returns
                  (failure
                     (lit "No customerEndpoint configured for CUSTOMER mode tool")))
  | Some customerEndpoint =>
      let request :=
        Request customerEndpoint
          (JSON_stringify
             (JObject [(lit "toolName", JString toolName);
                       (lit "parameters", parameters)]))
          timeoutMs in
      match
        attemptLoop (Z.to_nat (maxRetries + 1)) request maxRetries 0 None
      with
      | Some (steps, inl ending) => Some (steps, ending)
      | Some (steps, inr lastError) =>
          Some (steps,
                Returns
                  (failure (lit "CUSTOMER tool failed after "
                              ++ decimal (maxRetries + 1) ++ lit " attempts: "
                              ++ lastMessage lastError)))
      | None => None
      end
  end.

End WithEndpoint.

End CustomerTool.

(** ** SkillParser *)

Module SkillParser.

(** core/types: [Skill], without its optional fields. *)
Record Skill : Type := mkSkill {
  id : str;
  name : str;
  displayName : str;
  prompt : str
}.

Record SkillParseResult : Type := mkSkillParseResult {
  skill : Skill;
  skillPrompt : str;
  modifiedQuery : str
}.

(** The class [[a-z0-9_-]] under the flag [i]: case folding adds the
    upper-case letters and nothing outside ASCII. *)
Definition isNameChar (c : char) : bool :=
  ((97 <=? c) && (c <=? 122) || (65 <=? c) && (c <=? 90)
   || (48 <=? c) && (c <=? 57) || (c =? 95) || (c =? 45))%N.

(** The longest run of name characters at the start of [s]. *)
Fixpoint nameRun (s : str) : str :=
  match s with
  | c :: s' => if isNameChar c then c :: nameRun s' else []
  | [] => []
  end.

(** Group 1 of the first match of [/\/([a-z0-9_-]+)/i] in [query]. *)
Fixpoint matchInvocation (query : str) : option str :=
  match query with
  | [] => None
  | c :: rest =>
      match (if (c =? 47)%N then nameRun rest else []) with
      | (_ :: _) as skillName => Some skillName
      | [] => matchInvocation rest
      end
  end.

(** The replacement text of [String.prototype.replace] for a string
    pattern: [$$], [$&], [$`] and [$'] are expanded, and as there is no
    capture group every other [$] stands for itself. *)
Fixpoint substitute (before matched after template : str) : str :=
  match template with
  | 36%N :: 36%N :: rest => 36%N :: substitute before matched after rest
  | 36%N :: 38%N :: rest => matched ++ substitute before matched after rest
  | 36%N :: 96%N :: rest => before ++ substitute before matched after rest
  | 36%N :: 39%N :: rest => after ++ substitute before matched after rest
  | c :: rest => c :: substitute before matched after rest
  | [] => []
  end.

(** [s.replace(pat, template)] for a string [pat]: the first occurrence
    only. *)
Definition replace (s pat template : str) : str :=
  match find pat s with
  | Some i =>
      let before := take i s in
      let after := drop (i + length pat) s in
      before ++ substitute before pat after template ++ after
  | None => s
  end.

Section WithLowerCase.

(** [String.prototype.toLowerCase]. *)
Variable toLowerCase : str -> str.

(** The test of [this.skills.find]. *)
Definition named (skillName : str) (s : Skill) : bool :=
  bool_decide (toLowerCase (name s) = toLowerCase skillName).

Definition parseSkill (skills : list Skill) (query : str)
    : option SkillParseResult :=
  match matchInvocation query with
  | None => None
  | Some skillName =>
      match List.find (named skillName) skills with
      | None => None
      | Some skill =>
          Some {| skill := skill;
                  skillPrompt := prompt skill;
                  modifiedQuery :=
                    replace query (47%N :: skillName) (prompt skill) |}
      end
  end.

End WithLowerCase.

End SkillParser.

(** ** Queries that invoke a skill *)

Module SkillQueries.
Import SkillParser.

(** A query split at its first invocation: no slash of [before] is
    followed by a name character, a slash and the non-empty name
    [skillName] follow, and the name ends where [after] starts. *)
Definition invokes (query before skillName after : str) : Prop :=
  query = before ++ 47%N :: skillName ++ after /\
  matchInvocation before = None /\
  skillName <> [] /\
  Forall (fun c => isNameChar c = true) skillName /\
  (forall c, head after = Some c -> isNameChar c = false).

End SkillQueries.

(** ** Reading the content of a tool block *)

Module BlockContent.

(** The pattern [/name:\s*(.+?)(?:\n|$)/] has a match in [content]: the
    text [name:], white space, a non-empty run of characters other than
    line terminators, and then a line feed or the end of the content. *)
Definition nameMatches (content : str) : Prop :=
  exists before spaces group rest,
    content = before ++ lit "name:" ++ spaces ++ group ++ rest /\
    Forall (fun c => isSpace c = true) spaces /\
    group <> [] /\
    Forall (fun c => isLineTerminator c = false) group /\
    (rest = [] \/ head rest = Some 10%N).

(** The lines of a text, cut at the line feeds; [line] is the part of
    the current line already read. *)
Fixpoint linesFrom (line s : str) : list str :=
  match s with
  | [] => [line]
  | c :: s' =>
      if (c =? 10)%N then line :: linesFrom [] s'
      else linesFrom (line ++ [c]) s'
  end.

(** A [name:] line: a line that starts with [name:] after its
    indentation. *)
Definition hasNameLine (content : str) : bool :=
  existsb (fun line => startsWith (lit "name:") (trimStart line))
          (linesFrom [] content).

End BlockContent.

(** ** Identity of tool calls *)

Module CallIdentity.






End CallIdentity.

(** ** Collaborators and inputs of the examples *)

Module Scenarios.

(** A [JSON.parse] that rejects every text. *)
Definition rejectAll (_ : str) : option JSON := None.

(** A serializer for the examples: strings are quoted without escapes, a
    number is shown by the bits of its double. *)
Definition quoted (s : str) : str := [34%N] ++ s ++ [34%N].

Fixpoint commaSeparated (parts : list str) : str :=
  match parts with
  | [] => []
  | [x] => x
  | x :: rest => x ++ lit "," ++ commaSeparated rest
  end.

Fixpoint bitString (fuel : nat) (n : Z) : str :=
  match fuel with
  | O => []
  | S fuel' => bitString fuel' (n / 2) ++ [if Z.odd n then 49%N else 48%N]
  end.

Fixpoint serialize (v : JSON) : str :=
  match v with
  | JNull => lit "null"
  | JBool true => lit "true"
  | JBool false => lit "false"
  | JNumber bits => bitString 64 bits
  | JString s => quoted s
  | JArray items => lit "[" ++ commaSeparated (map serialize items) ++ lit "]"
  | JObject fields =>
      lit "{" ++
      commaSeparated
        (map (fun field => quoted (fst field) ++ lit ":"
                           ++ serialize (snd field)) fields)
      ++ lit "}"
  end.

(** A summarization service that answers, and one that is down. *)
Definition summarizerUp (_ _ : str) : option (option str) :=
  Some (Some (lit "The user greeted the agent.")).


Definition noParts (_ : list MemoryManager.MessageContent) : str := [].

Definition session : str := lit "session-1".

(** [n] appends of a short, respectively of a 1500-character, user
    message; the [k]-th is made at clock reading [k]. *)
Definition shortEntries (n : nat) : list (MemoryManager.Role * str * Z * Z) :=
  map (fun k => (MemoryManager.user, lit "hello", Z.of_nat k, Z.of_nat k))
      (seq 1 n).

Definition longEntries (n : nat) : list (MemoryManager.Role * str * Z * Z) :=
  map (fun k => (MemoryManager.user, repeat 97%N 1500,
                 Z.of_nat k, Z.of_nat k))
      (seq 1 n).

(** A tool executor that always returns [null]. *)
Definition returnsNull (_ : ToolCall) : JSON + str := inl JNull.

(** The model answers every turn with the same stream. *)
Definition always (items : list SupervisorAgent.StreamItem)
    : SupervisorAgent.World :=
  {| SupervisorAgent.abortedEarly := false;
     SupervisorAgent.stream := fun _ => items;
     SupervisorAgent.executeTool := returnsNull |}.

(** [toLowerCase] on the ASCII letters. *)
Definition asciiLower (s : str) : str :=
  map (fun c => if ((65 <=? c) && (c <=? 90))%N then (c + 32)%N else c) s.

(** A loaded skill. *)
Definition summarize : SkillParser.Skill :=
  {| SkillParser.id := lit "skill-1";
     SkillParser.name := lit "Summarize";
     SkillParser.displayName := lit "Summarize";
     SkillParser.prompt := lit "Summarize the following text." |}.

(** An endpoint that times out at every attempt, and one that answers at
    attempt [k] after timing out before. *)
Definition timesOut (_ : Z) : CustomerTool.Attempt :=
  CustomerTool.Failed (lit "timeout").

Definition answersAt (k attempt : Z) : CustomerTool.Attempt :=
  if attempt =? k
  then CustomerTool.Answered (JObject [(lit "success", JBool true)])
  else CustomerTool.Failed (lit "timeout").

(** The message an engine gives to the error of reading [null.success]. *)
Definition typeError : str :=
  lit "Cannot read properties of null (reading 'success')".

(** A tool configured with an endpoint and [maxRetries]. *)
Definition customerTool (maxRetries : option Z)
    : CustomerTool.ExecutionConfig :=
  {| CustomerTool.customerEndpoint := Some (lit "https://shop.example/tool");
     CustomerTool.timeoutMs := None;
     CustomerTool.maxRetries := maxRetries |}.

(** [n] short appends to the session as steps of a schedule, made at
    the clock readings 1 to [n]. *)
Definition shortSaves (n : nat) : list MemorySchedule.Event :=
  map (fun k => MemorySchedule.Saved session MemoryManager.user (lit "hello")
                  (Z.of_nat k))
      (seq 1 n).

End Scenarios.

(** * Properties *)

(** ** Slices and searches *)

Section SliceFacts.

Context {A : Type}.
Implicit Types s : list A.

Lemma slice_prefix s (k : nat) :
  (k <= length s)%nat -> slice s 0 (Some (Z.of_nat k)) = take k s.
Proof.
  intros Hk. unfold slice, clampIndex, len. simpl.
  rewrite (proj2 (Z.ltb_ge (Z.of_nat k) 0)) by lia.
  rewrite !Z.min_l by lia.
  rewrite Z.sub_0_r, Nat2Z.id. reflexivity.
Qed.

Lemma slice_suffix s (k : nat) :
  (k <= length s)%nat -> slice s (Z.of_nat k) None = drop k s.
Proof.
  intros Hk. unfold slice, clampIndex, len.
  rewrite (proj2 (Z.ltb_ge (Z.of_nat k) 0)) by lia.
  rewrite Z.min_l by lia. rewrite Nat2Z.id.
  apply take_ge. rewrite length_drop. lia.
Qed.

Lemma slice_prefix_back s (k : nat) :
  (0 < k <= length s)%nat ->
  slice s 0 (Some (- Z.of_nat k)) = take (length s - k) s.
Proof.
  intros Hk. unfold slice, clampIndex, len. simpl.
  rewrite (proj2 (Z.ltb_lt (- Z.of_nat k) 0)) by lia.
  rewrite Z.min_l by lia. rewrite Z.max_l by lia.
  simpl. f_equal. lia.
Qed.

Lemma slice_suffix_back s (k : nat) :
  (0 < k <= length s)%nat ->
  slice s (- Z.of_nat k) None = drop (length s - k) s.
Proof.
  intros Hk. unfold slice, clampIndex, len.
  rewrite (proj2 (Z.ltb_lt (- Z.of_nat k) 0)) by lia.
  rewrite Z.max_l by lia.
  replace (Z.to_nat (Z.of_nat (length s) + - Z.of_nat k))
    with (length s - k)%nat by lia.
  apply take_ge. rewrite length_drop. lia.
Qed.

End SliceFacts.

Section FindFacts.

Implicit Types pat s u v : str.

Lemma startsWith_length pat s :
  startsWith pat s = true -> (length pat <= length s)%nat.
Proof.
  revert s. induction pat as [|p pat IH]; intros [|c s]; simpl;
    try lia; try discriminate.
  intros H. apply andb_true_iff in H as [_ H]. apply IH in H. lia.
Qed.

Lemma startsWith_app pat u v :
  (length pat <= length u)%nat ->
  startsWith pat (u ++ v) = startsWith pat u.
Proof.
  revert u. induction pat as [|p pat IH]; intros [|c u]; simpl;
    try reflexivity; try lia.
  intros H. rewrite IH by lia. reflexivity.
Qed.

Lemma startsWith_self pat v : startsWith pat (pat ++ v) = true.
Proof.
  induction pat as [|p pat IH]; simpl; [reflexivity|].
  rewrite N.eqb_refl. exact IH.
Qed.

Lemma find_bound pat s i :
  find pat s = Some i -> (i + length pat <= length s)%nat.
Proof.
  revert i. induction s as [|c s IH]; intros i; simpl.
  - destruct (startsWith pat []) eqn:E; [|discriminate].
    intros [= <-]. apply startsWith_length in E. simpl in *. lia.
  - destruct (startsWith pat (c :: s)) eqn:E.
    + intros [= <-]. apply startsWith_length in E. simpl in *. lia.
    + destruct (find pat s) as [j|]; [|discriminate].
      intros [= <-]. specialize (IH j eq_refl). simpl. lia.
Qed.

(** The first occurrence within a prefix is the first occurrence. *)
Lemma find_app_Some pat s v i :
  find pat s = Some i -> find pat (s ++ v) = Some i.
Proof.
  revert i. induction s as [|c s IH]; intros i; simpl.
  - destruct (startsWith pat []) eqn:E; [|discriminate].
    intros [= <-]. destruct pat; [|discriminate].
    destruct v; reflexivity.
  - destruct (startsWith pat (c :: s)) eqn:E.
    + intros [= <-].
      change (c :: s ++ v) with ((c :: s) ++ v).
      rewrite startsWith_app, E; [reflexivity|].
      apply startsWith_length, E.
    + destruct (find pat s) as [j|] eqn:F; [|discriminate].
      intros [= <-].
      change (c :: s ++ v) with ((c :: s) ++ v).
      rewrite startsWith_app, E.
      * simpl. rewrite (IH j eq_refl). reflexivity.
      * apply find_bound in F. simpl. lia.
Qed.

Lemma find_None_drop pat u v :
  find pat (u ++ v) = None -> find pat v = None.
Proof.
  induction u as [|c u IH]; simpl; [tauto|].
  destruct (startsWith pat (c :: u ++ v)); [discriminate|].
  destruct (find pat (u ++ v)); [discriminate|]. auto.
Qed.

(** When a text without occurrence keeps at least [length pat - 1] of its
    last characters, the characters dropped in front take part in no
    later occurrence. *)
Lemma find_app_shift pat u v w :
  find pat (u ++ v) = None ->
  (length pat <= length v + 1)%nat ->
  find pat (u ++ v ++ w) = option_map (Nat.add (length u)) (find pat (v ++ w)).
Proof.
  intros Hnone Hlen. induction u as [|c u IH]; simpl.
  - destruct (find pat (v ++ w)); reflexivity.
  - simpl in Hnone.
    destruct (startsWith pat (c :: u ++ v)) eqn:E; [discriminate|].
    destruct (find pat (u ++ v)) eqn:F; [discriminate|].
    replace (c :: u ++ v ++ w) with ((c :: u ++ v) ++ w)
      by (simpl; rewrite <- app_assoc; reflexivity).
    rewrite startsWith_app, E by (simpl; rewrite length_app; lia).
    rewrite IH by reflexivity.
    destruct (find pat (v ++ w)); reflexivity.
Qed.

Lemma indexOf_found s pat i :
  find pat s = Some i ->
  indexOf s pat = Z.of_nat i /\ (indexOf s pat =? -1) = false.
Proof.
  intros H. unfold indexOf. rewrite H. split; [reflexivity|].
  apply Z.eqb_neq. lia.
Qed.

Lemma indexOf_missing s pat :
  find pat s = None -> indexOf s pat = -1.
Proof. intros H. unfold indexOf. rewrite H. reflexivity. Qed.

Lemma indexOf_missing_inv s pat :
  indexOf s pat = -1 -> find pat s = None.
Proof.
  unfold indexOf. destruct (find pat s); [lia|reflexivity].
Qed.

End FindFacts.

(** ** The loop of [addChunk] *)

Module ToolParserFacts.
Import ToolParser.

Section WithJSON.

Variable JSON_parse : str -> option JSON.

#[local] Abbreviation nextRound := (nextRound JSON_parse).
#[local] Abbreviation addChunkLoop := (addChunkLoop JSON_parse).
#[local] Abbreviation runLoop := (runLoop JSON_parse).
#[local] Abbreviation addChunk := (addChunk JSON_parse).
#[local] Abbreviation drain := (drain JSON_parse).
#[local] Abbreviation feed := (feed JSON_parse).
#[local] Abbreviation extract := (extract JSON_parse).
#[local] Abbreviation atRest := (atRest JSON_parse).

Lemma len_pos_iff {A : Type} (s : list A) :
  (len s >? 0) = match s with [] => false | _ :: _ => true end.
Proof. destruct s; reflexivity. Qed.

Lemma len_gt_6 {A : Type} (s : list A) :
  (len s >? 6) = (6 <? length s)%nat.
Proof.
  unfold len. destruct (Nat.ltb_spec 6 (length s)).
  - apply Z.gtb_lt. lia.
  - rewrite Z.gtb_ltb. apply Z.ltb_ge. lia.
Qed.

(** One unfolding of the loop is one round. *)
Lemma addChunkLoop_round fuel p txt calls :
  addChunkLoop (S fuel) p txt calls =
  match nextRound p with
  | Stop p' e => Some (p', txt ++ e, calls)
  | Continue p' e call =>
      addChunkLoop fuel p' (txt ++ e)
        (match call with Some tc => calls ++ [tc] | None => calls end)
  end.
Proof.
  destruct p as [b inb tb]. unfold ToolParser.nextRound. simpl.
  rewrite len_pos_iff. destruct b as [|c b].
  { rewrite app_nil_r. reflexivity. }
  destruct inb; simpl negb; cbv iota.
  - destruct (find (lit "</tool>") (tb ++ c :: b)) as [j|] eqn:F.
    + destruct (indexOf_found _ _ _ F) as [-> ->].
      pose proof (find_bound _ _ _ F) as Hj.
      change (length (lit "</tool>")) with 7%nat in Hj.
      rewrite slice_prefix by lia.
      replace (Z.of_nat j + 7) with (Z.of_nat (j + 7)) by lia.
      rewrite slice_suffix by lia.
      rewrite app_nil_r. reflexivity.
    + rewrite (indexOf_missing _ _ F). simpl.
      rewrite app_nil_r. reflexivity.
  - destruct (find (lit "<tool>") (c :: b)) as [i|] eqn:F.
    + destruct (indexOf_found _ _ _ F) as [-> ->].
      pose proof (find_bound _ _ _ F) as Hi.
      change (length (lit "<tool>")) with 6%nat in Hi.
      rewrite slice_prefix by lia.
      replace (Z.of_nat i + 6) with (Z.of_nat (i + 6)) by lia.
      rewrite slice_suffix by lia.
      reflexivity.
    + rewrite (indexOf_missing _ _ F).
      change (-1 =? -1) with true. cbv iota.
      rewrite len_gt_6.
      destruct (Nat.ltb_spec 6 (length (c :: b))) as [H|H].
      * pose proof (slice_suffix_back (c :: b) 6 ltac:(lia)) as S1.
        pose proof (slice_prefix_back (c :: b) 6 ltac:(lia)) as S2.
        change (- Z.of_nat 6) with (-6) in S1, S2.
        rewrite S1, S2. reflexivity.
      * rewrite app_nil_r. reflexivity.
Qed.

Lemma nextRound_decreases p p' e call :
  nextRound p = Continue p' e call ->
  (loopMeasure p' < loopMeasure p)%nat.
Proof.
  destruct p as [b inb tb]. unfold ToolParser.nextRound, loopMeasure. simpl.
  destruct b as [|c b]; [discriminate|].
  destruct inb.
  - destruct (find (lit "</tool>") (tb ++ c :: b)) as [j|] eqn:F;
      [|discriminate].
    intros [= <- _ _]. simpl.
    rewrite length_drop, length_app. simpl. lia.
  - destruct (find (lit "<tool>") (c :: b)) as [i|] eqn:F.
    + intros [= <- _ _]. simpl. rewrite length_drop. simpl. lia.
    + destruct (6 <? length (c :: b))%nat; discriminate.
Qed.

(** Fuel above the measure is never used up, and more of it changes
    nothing. *)
Lemma addChunkLoop_fuel fuel1 : forall fuel2 p txt calls,
  (loopMeasure p < fuel1)%nat -> (loopMeasure p < fuel2)%nat ->
  addChunkLoop fuel1 p txt calls = addChunkLoop fuel2 p txt calls.
Proof.
  induction fuel1 as [|fuel1 IH]; intros [|fuel2] p txt calls H1 H2;
    try lia.
  rewrite !addChunkLoop_round.
  destruct (nextRound p) as [p' e|p' e call] eqn:R; [reflexivity|].
  apply nextRound_decreases in R. apply IH; lia.
Qed.

Lemma addChunkLoop_total fuel : forall p txt calls,
  (loopMeasure p < fuel)%nat ->
  exists r, addChunkLoop fuel p txt calls = Some r.
Proof.
  induction fuel as [|fuel IH]; intros p txt calls H; [lia|].
  rewrite addChunkLoop_round.
  destruct (nextRound p) as [p' e|p' e call] eqn:R; [eauto|].
  apply nextRound_decreases in R. apply IH. lia.
Qed.

(** The accumulators only collect. *)
Lemma addChunkLoop_acc fuel : forall p txt calls,
  addChunkLoop fuel p txt calls =
  option_map (fun '(p', t, c) => (p', txt ++ t, calls ++ c))
             (addChunkLoop fuel p [] []).
Proof.
  induction fuel as [|fuel IH]; intros p txt calls; [reflexivity|].
  rewrite !addChunkLoop_round.
  destruct (nextRound p) as [p' e|p' e call]; simpl.
  - rewrite app_nil_r. reflexivity.
  - rewrite IH. rewrite (IH p' e).
    destruct (addChunkLoop fuel p' [] []) as [[[q t] c]|]; simpl;
      [|reflexivity].
    destruct call; simpl; rewrite <- ?app_assoc; reflexivity.
Qed.

(** [runLoop] round by round. *)
Lemma runLoop_round p :
  runLoop p =
  match nextRound p with
  | Stop p' e => (p', e, [])
  | Continue p' e call =>
      let '(q, t, c) := runLoop p' in
      (q, e ++ t, match call with Some tc => tc :: c | None => c end)
  end.
Proof.
  unfold ToolParser.runLoop. rewrite addChunkLoop_round.
  destruct (nextRound p) as [p' e|p' e call] eqn:R; [reflexivity|].
  pose proof (nextRound_decreases _ _ _ _ R) as Hlt.
  rewrite addChunkLoop_acc.
  rewrite (addChunkLoop_fuel (loopMeasure p) (S (loopMeasure p')))
    by lia.
  destruct (addChunkLoop_total (S (loopMeasure p')) p' [] [])
    as [[[q t] c] ->]; [lia|].
  simpl. destruct call; reflexivity.
Qed.

(** Induction along the rounds of the loop. *)
Lemma round_ind (P : t -> Prop) :
  (forall p,
     (forall p' e call, nextRound p = Continue p' e call -> P p') -> P p) ->
  forall p, P p.
Proof.
  intros step p. remember (loopMeasure p) as n eqn:Hn. revert p Hn.
  induction n as [n IH] using lt_wf_ind. intros p ->.
  apply step. intros p' e call R.
  apply (IH (loopMeasure p')); [|reflexivity].
  exact (nextRound_decreases _ _ _ _ R).
Qed.

Lemma drain_round p :
  drain p =
  match nextRound p with
  | Stop p' e => (e ++ buffer p', [])
  | Continue p' e call =>
      let '(t, c) := drain p' in
      (e ++ t, match call with Some tc => tc :: c | None => c end)
  end.
Proof.
  unfold ToolParser.drain. rewrite runLoop_round.
  destruct (nextRound p) as [p' e|p' e call]; [reflexivity|].
  destruct (runLoop p') as [[q t] c]. simpl.
  rewrite <- app_assoc. reflexivity.
Qed.

(** The round from a state whose buffer is not empty. *)
Lemma nextRound_nonempty b inb tb :
  b <> [] ->
  nextRound {| buffer := b; inToolBlock := inb; toolBuffer := tb |} =
  if inb then
    match find (lit "</tool>") (tb ++ b) with
    | None =>
        Stop {| buffer := []; inToolBlock := true; toolBuffer := tb ++ b |}
             []
    | Some j =>
        Continue {| buffer := drop (j + 7) (tb ++ b); inToolBlock := false;
                    toolBuffer := [] |}
                 [] (parseToolContent JSON_parse (take j (tb ++ b)))
    end
  else
    match find (lit "<tool>") b with
    | None =>
        if (6 <? length b)%nat then
          Stop {| buffer := drop (length b - 6) b; inToolBlock := false;
                  toolBuffer := tb |}
               (take (length b - 6) b)
        else
          Stop {| buffer := b; inToolBlock := false; toolBuffer := tb |} []
    | Some i =>
        Continue {| buffer := drop (i + 6) b; inToolBlock := true;
                    toolBuffer := [] |}
                 (take i b) None
    end.
Proof.
  intros Hb. destruct b as [|c b]; [congruence|].
  destruct inb; reflexivity.
Qed.

Lemma nextRound_empty inb tb :
  nextRound {| buffer := []; inToolBlock := inb; toolBuffer := tb |} =
  Stop {| buffer := []; inToolBlock := inb; toolBuffer := tb |} [].
Proof. reflexivity. Qed.

Lemma create_atRest : atRest create.
Proof. reflexivity. Qed.

Lemma runLoop_atRest p : atRest (fst (fst (runLoop p))).
Proof.
  induction p as [p IH] using round_ind.
  rewrite runLoop_round.
  destruct (nextRound p) as [p' e|p' e call] eqn:R.
  - clear IH. cbn [fst]. unfold ToolParser.atRest. rewrite runLoop_round.
    destruct p as [b inb tb].
    destruct (decide (b = [])) as [->|Hb].
    { rewrite nextRound_empty in R. injection R as <- <-. reflexivity. }
    rewrite nextRound_nonempty in R by assumption.
    destruct inb.
    + destruct (find (lit "</tool>") (tb ++ b)); [discriminate|].
      injection R as <- <-. reflexivity.
    + destruct (find (lit "<tool>") b) eqn:F; [discriminate|].
      destruct (Nat.ltb_spec 6 (length b)) as [H|H];
        injection R as <- <-.
      * assert (L : length (drop (length b - 6) b) = 6%nat)
          by (rewrite length_drop; lia).
        rewrite nextRound_nonempty by (intros E; rewrite E in L; discriminate).
        rewrite <- (take_drop (length b - 6) b) in F at 1.
        apply find_None_drop in F. rewrite F, L. reflexivity.
      * rewrite nextRound_nonempty by assumption. rewrite F.
        destruct (Nat.ltb_spec 6 (length b)); [lia|]. reflexivity.
  - specialize (IH _ _ _ eq_refl).
    destruct (runLoop p') as [[q t] c]. exact IH.
Qed.

Lemma drain_no_open b tb :
  find (lit "<tool>") b = None ->
  drain {| buffer := b; inToolBlock := false; toolBuffer := tb |} = (b, []).
Proof.
  intros F. rewrite drain_round.
  destruct (decide (b = [])) as [->|Hb]; [reflexivity|].
  rewrite nextRound_nonempty by assumption. rewrite F.
  destruct (6 <? length b)%nat; cbn [buffer].
  - rewrite take_drop. reflexivity.
  - reflexivity.
Qed.

(** Outside a tool block, text in front of the buffer that takes part in
    no occurrence of the opening tag comes out as it is. *)
Lemma drain_skip e x tb1 tb2 :
  find (lit "<tool>") (e ++ x) =
    option_map (Nat.add (length e)) (find (lit "<tool>") x) ->
  drain {| buffer := e ++ x; inToolBlock := false; toolBuffer := tb1 |} =
  let '(t, c) :=
    drain {| buffer := x; inToolBlock := false; toolBuffer := tb2 |} in
  (e ++ t, c).
Proof.
  intros F. destruct (find (lit "<tool>") x) as [i|] eqn:Fx; simpl in F.
  - pose proof (find_bound _ _ _ Fx) as Hi.
    change (length (lit "<tool>")) with 6%nat in Hi.
    assert (Hx : x <> []) by (intros ->; simpl in Hi; lia).
    assert (Hex : e ++ x <> []) by (destruct e; [exact Hx|discriminate]).
    rewrite (drain_round {| buffer := x |}),
            (drain_round {| buffer := e ++ x |}).
    rewrite !nextRound_nonempty by assumption.
    rewrite F, Fx.
    rewrite take_app_ge, drop_app_ge by lia.
    replace (length e + i - length e)%nat with i by lia.
    replace (length e + i + 6 - length e)%nat with (i + 6)%nat by lia.
    destruct (drain _) as [t c0]. rewrite <- app_assoc. reflexivity.
  - rewrite !drain_no_open by assumption. reflexivity.
Qed.

(** Splitting the input: what comes out of [p] fed [s] after its buffer
    is what comes out of [p] first, then of the state reached fed [s]. *)
Lemma drain_append s p :
  drain (append p s) =
  let '(p', t, c) := runLoop p in
  let '(t2, c2) := drain (append p' s) in
  (t ++ t2, c ++ c2).
Proof.
  induction p as [p IH] using round_ind.
  rewrite runLoop_round.
  destruct (nextRound p) as [p' e|p' e call] eqn:R.
  - (* the loop stops at once *)
    clear IH. destruct p as [b inb tb].
    destruct (decide (b = [])) as [->|Hb].
    { rewrite nextRound_empty in R. injection R as <- <-.
      destruct (drain _). reflexivity. }
    rewrite nextRound_nonempty in R by assumption.
    destruct inb.
    + destruct (find (lit "</tool>") (tb ++ b)) eqn:F; [discriminate|].
      injection R as <- <-. unfold ToolParser.append.
      cbn [buffer inToolBlock toolBuffer app].
      rewrite !drain_round.
      destruct (decide (s = [])) as [->|Hs].
      * rewrite app_nil_r. rewrite nextRound_nonempty by assumption.
        rewrite F. reflexivity.
      * rewrite (nextRound_nonempty s) by assumption.
        rewrite (nextRound_nonempty (b ++ s))
          by (destruct b; [congruence|discriminate]).
        rewrite <- app_assoc.
        destruct (find (lit "</tool>") (tb ++ b ++ s));
          [destruct (drain _)|]; reflexivity.
    + destruct (find (lit "<tool>") b) eqn:F; [discriminate|].
      destruct (Nat.ltb_spec 6 (length b)) as [H|H];
        injection R as <- <-; unfold ToolParser.append;
        cbn [buffer inToolBlock toolBuffer].
      * set (k := (length b - 6)%nat).
        rewrite <- (take_drop k b) at 1.
        rewrite <- app_assoc.
        rewrite (drain_skip _ _ tb tb).
        { destruct (drain _). reflexivity. }
        rewrite <- (take_drop k b) in F.
        apply find_app_shift; [exact F|].
        rewrite length_drop. subst k.
        change (length (lit "<tool>")) with 6%nat. lia.
      * destruct (drain _). reflexivity.
  - (* a round, then the rest of the loop *)
    specialize (IH _ _ _ eq_refl).
    assert (drain (append p s) =
            let '(t, c) := drain (append p' s) in
            (e ++ t, match call with Some tc => tc :: c | None => c end))
      as ->.
    { rewrite drain_round.
      destruct p as [b inb tb].
      destruct (decide (b = [])) as [->|Hb];
        [rewrite nextRound_empty in R; discriminate|].
      rewrite nextRound_nonempty in R by assumption.
      unfold ToolParser.append at 1. cbn [buffer inToolBlock toolBuffer].
      rewrite nextRound_nonempty by (destruct b; [congruence|discriminate]).
      destruct inb.
      - destruct (find (lit "</tool>") (tb ++ b)) as [j|] eqn:F;
          [|discriminate].
        injection R as <- <- <-.
        pose proof (find_bound _ _ _ F) as Hj.
        change (length (lit "</tool>")) with 7%nat in Hj.
        rewrite app_assoc.
        rewrite (find_app_Some _ _ s _ F).
        rewrite take_app_le, drop_app_le by lia. reflexivity.
      - destruct (find (lit "<tool>") b) as [i|] eqn:F.
        + injection R as <- <- <-.
          pose proof (find_bound _ _ _ F) as Hi.
          change (length (lit "<tool>")) with 6%nat in Hi.
          rewrite (find_app_Some _ _ s _ F).
          rewrite take_app_le, drop_app_le by lia. reflexivity.
        + destruct (6 <? length b)%nat; discriminate. }
    rewrite IH.
    destruct (runLoop p') as [[q t] c].
    destruct (drain (append q s)) as [t2 c2].
    rewrite <- app_assoc. destruct call; reflexivity.
Qed.

Lemma addChunk_runLoop p chunk :
  addChunk p chunk =
  let '(p', t, c) := runLoop (append p chunk) in
  (p', {| text := t;
          toolCalls := match c with [] => None | _ :: _ => Some c end |}).
Proof.
  unfold ToolParser.addChunk.
  destruct (runLoop (append p chunk)) as [[p' t] c].
  destruct c; reflexivity.
Qed.

Lemma append_empty p : append p [] = p.
Proof. destruct p. unfold append. simpl. rewrite app_nil_r. reflexivity. Qed.

Lemma append_append p s1 s2 : append (append p s1) s2 = append p (s1 ++ s2).
Proof. unfold append. simpl. rewrite app_assoc. reflexivity. Qed.

(** Fragments fed one at a time, then [flush]: the same as the loop and
    [flush] on the whole rest of the stream. *)
Lemma feed_drain chunks : forall p,
  atRest p ->
  (let '(p', t, c) := feed p chunks in (t ++ snd (flush p'), c)) =
  drain (append p (concat chunks)).
Proof.
  induction chunks as [|chunk rest IH]; intros p Hp.
  - simpl. rewrite append_empty. unfold ToolParser.drain. rewrite Hp.
    reflexivity.
  - simpl concat. simpl feed.
    rewrite <- append_append, drain_append.
    rewrite addChunk_runLoop.
    pose proof (runLoop_atRest (append p chunk)) as Hrest.
    destruct (runLoop (append p chunk)) as [[p1 t1] c1].
    specialize (IH p1 Hrest).
    destruct (feed p1 rest) as [[p2 t2] c2].
    rewrite <- IH. cbn [text toolCalls].
    rewrite <- app_assoc. destruct c1; reflexivity.
Qed.

Lemma extract_drain chunks :
  extract chunks = drain (append create (concat chunks)).
Proof.
  unfold ToolParser.extract.
  rewrite <- (feed_drain chunks create create_atRest).
  destruct (feed create chunks) as [[p t] c]. reflexivity.
Qed.

(** C1. Delimiter-split invariance: however a response is cut into
    contiguous fragments, feeding the fragments one at a time through
    [addChunk] and then calling [flush] gives the same concatenated text
    and the same sequence of parsed tool calls as feeding the whole
    response as a single fragment. *)
Theorem fragmentation_invariance (chunks : list str) :
  extract chunks = extract [concat chunks].
Proof.
  rewrite !extract_drain. simpl concat. rewrite app_nil_r. reflexivity.
Qed.

(** *** What is withheld when no opening tag is in sight *)

(** C6, as the source has it. Outside a tool block, when the buffer
    with the new fragment holds no opening tag: a buffer longer than 6
    characters keeps exactly its last 6 characters (the full length of
    the tag, not one less) and everything before them is emitted; a buffer
    of at most 6 characters is kept whole and nothing is emitted. No tool
    call is returned and the parser stays outside. *)
Theorem addChunk_no_tag_withholds (p : t) (chunk : str) :
  inToolBlock p = false ->
  indexOf (buffer p ++ chunk) (lit "<tool>") = -1 ->
  let b := buffer p ++ chunk in
  addChunk p chunk =
  if len b >? 6 then
    ({| buffer := slice b (-6) None; inToolBlock := false;
        toolBuffer := toolBuffer p |},
     {| text := slice b 0 (Some (-6)); toolCalls := None |})
  else
    ({| buffer := b; inToolBlock := false; toolBuffer := toolBuffer p |},
     {| text := []; toolCalls := None |}).
Proof.
  intros Hout Hidx. cbv zeta.
  destruct p as [b0 inb tb]. cbn [buffer inToolBlock toolBuffer] in *.
  subst inb. apply indexOf_missing_inv in Hidx.
  rewrite addChunk_runLoop, runLoop_round.
  unfold append. cbn [buffer inToolBlock toolBuffer].
  revert Hidx. generalize (b0 ++ chunk). intros b Hidx.
  rewrite len_gt_6.
  destruct (decide (b = [])) as [E|Hb].
  { rewrite E. reflexivity. }
  rewrite nextRound_nonempty by assumption. rewrite Hidx.
  destruct (Nat.ltb_spec 6 (length b)) as [H|H]; [|reflexivity].
  pose proof (slice_suffix_back b 6 ltac:(lia)) as S1.
  pose proof (slice_prefix_back b 6 ltac:(lia)) as S2.
  change (- Z.of_nat 6) with (-6) in S1, S2.
  rewrite S1, S2. reflexivity.
Qed.

(** *** Tool blocks without a name *)

Lemma find_cons pat c s :
  find pat (c :: s) =
  if startsWith pat (c :: s) then Some 0%nat else option_map S (find pat s).
Proof. reflexivity. Qed.

Lemma matchName_cons c s :
  matchName (c :: s) =
  match (if startsWith (lit "name:") (c :: s)
         then nameAfterSpaces (drop 5 (c :: s)) else None) with
  | Some g => Some g
  | None => matchName s
  end.
Proof. reflexivity. Qed.

Lemma matchName_needs_name s :
  find (lit "name:") s = None -> matchName s = None.
Proof.
  induction s as [|c s IH]; intros H; [reflexivity|].
  rewrite find_cons in H. rewrite matchName_cons.
  destruct (startsWith (lit "name:") (c :: s)); [discriminate|].
  destruct (find (lit "name:") s); [discriminate|].
  apply IH. reflexivity.
Qed.

Lemma parseToolContent_needs_name content :
  indexOf content (lit "name:") = -1 ->
  parseToolContent JSON_parse content = None.
Proof.
  intros H. apply indexOf_missing_inv, matchName_needs_name in H.
  unfold parseToolContent. rewrite H. reflexivity.
Qed.

Lemma indexOf_at s pat (n : nat) :
  indexOf s pat = Z.of_nat n -> find pat s = Some n.
Proof.
  unfold indexOf. destruct (find pat s) as [i|]; [|lia].
  intros H. f_equal. lia.
Qed.

Lemma parseToolContent_nameless content :
  matchName content = None -> parseToolContent JSON_parse content = None.
Proof. intros H. unfold parseToolContent. rewrite H. reflexivity. Qed.

Lemma startsWith_prefix pat s :
  startsWith pat s = true -> s = pat ++ drop (length pat) s.
Proof.
  revert s. induction pat as [|p pat IH]; intros [|c s]; cbn [startsWith];
    try discriminate; try reflexivity.
  intros H. apply andb_true_iff in H as [Hc H]. apply N.eqb_eq in Hc.
  subst c. cbn [length drop app]. f_equal. apply IH, H.
Qed.

Lemma dotRun_prefix s : dotRun s ++ drop (length (dotRun s)) s = s.
Proof.
  induction s as [|c s IH]; cbn [dotRun]; [reflexivity|].
  destruct (isLineTerminator c); [reflexivity|].
  cbn [length drop app]. f_equal. exact IH.
Qed.

Lemma dotRun_unbroken s :
  Forall (fun c => isLineTerminator c = false) (dotRun s).
Proof.
  induction s as [|c s IH]; cbn [dotRun]; [constructor|].
  destruct (isLineTerminator c) eqn:E; constructor; assumption.
Qed.

Lemma dotRun_group group rest :
  Forall (fun c => isLineTerminator c = false) group ->
  rest = [] \/ head rest = Some 10%N ->
  dotRun (group ++ rest) = group.
Proof.
  intros Hall Hrest. induction Hall as [|c g Hc Hall IH]; cbn [app dotRun].
  - destruct Hrest as [->|Hrest]; [reflexivity|].
    destruct rest as [|d rest]; [discriminate|].
    cbn in Hrest. injection Hrest as ->. reflexivity.
  - rewrite Hc, IH. reflexivity.
Qed.

Lemma nameGroup_sound s group :
  nameGroup s = Some group ->
  exists rest,
    s = group ++ rest /\ group <> [] /\
    Forall (fun c => isLineTerminator c = false) group /\
    (rest = [] \/ head rest = Some 10%N).
Proof.
  unfold nameGroup. pose proof (dotRun_unbroken s) as Hall.
  pose proof (dotRun_prefix s) as Hs.
  destruct (dotRun s) as [|c r] eqn:E; [discriminate|].
  destruct (drop (length (c :: r)) s) as [|d rest] eqn:D.
  - intros [= <-]. exists [].
    split; [symmetry; exact Hs|]. split; [discriminate|].
    split; [exact Hall|]. left. reflexivity.
  - destruct (N.eqb d 10) eqn:Hd; [|discriminate].
    apply N.eqb_eq in Hd. subst d.
    intros [= <-]. exists (10%N :: rest).
    split; [symmetry; exact Hs|]. split; [discriminate|].
    split; [exact Hall|]. right. reflexivity.
Qed.

Lemma nameGroup_complete group rest :
  group <> [] ->
  Forall (fun c => isLineTerminator c = false) group ->
  rest = [] \/ head rest = Some 10%N ->
  nameGroup (group ++ rest) = Some group.
Proof.
  intros Hne Hall Hrest. unfold nameGroup.
  rewrite (dotRun_group _ _ Hall Hrest).
  destruct group as [|c g]; [contradiction|].
  rewrite drop_app_length.
  destruct Hrest as [->|Hrest]; [reflexivity|].
  destruct rest as [|d rest]; [reflexivity|].
  cbn in Hrest. injection Hrest as ->. reflexivity.
Qed.

Lemma nameAfterSpaces_sound s group :
  nameAfterSpaces s = Some group ->
  exists spaces rest,
    s = spaces ++ group ++ rest /\
    Forall (fun c => isSpace c = true) spaces /\
    group <> [] /\
    Forall (fun c => isLineTerminator c = false) group /\
    (rest = [] \/ head rest = Some 10%N).
Proof.
  assert (Hgroup : forall s0, nameGroup s0 = Some group ->
            exists spaces rest,
              s0 = spaces ++ group ++ rest /\
              Forall (fun c => isSpace c = true) spaces /\
              group <> [] /\
              Forall (fun c => isLineTerminator c = false) group /\
              (rest = [] \/ head rest = Some 10%N)).
  { intros s0 H.
    destruct (nameGroup_sound _ _ H) as (rest & -> & Hne & Hall & Hrest).
    exists [], rest. split; [reflexivity|]. split; [constructor|].
    split; [exact Hne|]. split; [exact Hall|exact Hrest]. }
  induction s as [|c s IH]; cbn [nameAfterSpaces]; [apply Hgroup|].
  destruct (isSpace c) eqn:Hc; [|apply Hgroup].
  destruct (nameAfterSpaces s) as [g|]; [|apply Hgroup].
  intros [= <-].
  destruct (IH eq_refl) as (spaces & rest & -> & Hsp & Hne & Hall & Hrest).
  exists (c :: spaces), rest. split; [reflexivity|].
  split; [constructor; assumption|].
  split; [exact Hne|]. split; [exact Hall|exact Hrest].
Qed.

Lemma nameAfterSpaces_complete spaces group rest :
  Forall (fun c => isSpace c = true) spaces ->
  group <> [] ->
  Forall (fun c => isLineTerminator c = false) group ->
  rest = [] \/ head rest = Some 10%N ->
  nameAfterSpaces (spaces ++ group ++ rest) <> None.
Proof.
  intros Hsp Hne Hall Hrest.
  pose proof (nameGroup_complete _ _ Hne Hall Hrest) as Hg.
  induction Hsp as [|w ws Hw Hsp IH]; cbn [app].
  - destruct group as [|c g]; [contradiction|].
    cbn [app nameAfterSpaces]. cbn [app] in Hg.
    destruct (isSpace c); [|rewrite Hg; discriminate].
    destruct (nameAfterSpaces (g ++ rest)); [discriminate|].
    rewrite Hg. discriminate.
  - cbn [nameAfterSpaces]. rewrite Hw.
    destruct (nameAfterSpaces (ws ++ group ++ rest)); [discriminate|].
    contradiction.
Qed.

(** [matchName] finds a match exactly when the pattern has one. *)
Lemma matchName_None_iff s :
  matchName s = None <-> ~ BlockContent.nameMatches s.
Proof.
  split.
  - intros Hnone (before & spaces & group & rest & -> & Hsp & Hne & Hall & Hr).
    induction before as [|c before IH].
    + cbn [app] in Hnone.
      destruct (lit "name:" ++ spaces ++ group ++ rest) as [|c s] eqn:E;
        [discriminate|].
      rewrite matchName_cons in Hnone. rewrite <- E in Hnone.
      rewrite startsWith_self in Hnone.
      change (drop 5 (lit "name:" ++ spaces ++ group ++ rest))
        with (spaces ++ group ++ rest) in Hnone.
      pose proof (nameAfterSpaces_complete _ _ _ Hsp Hne Hall Hr) as Hsome.
      destruct (nameAfterSpaces (spaces ++ group ++ rest));
        [discriminate|contradiction].
    + cbn [app] in Hnone. rewrite matchName_cons in Hnone.
      destruct (if startsWith (lit "name:") _ then _ else None);
        [discriminate|].
      apply IH, Hnone.
  - intros Hno. destruct (matchName s) as [group|] eqn:Hm; [|reflexivity].
    exfalso. apply Hno. clear Hno. revert Hm.
    induction s as [|c s IH]; [discriminate|].
    rewrite matchName_cons.
    destruct (startsWith (lit "name:") (c :: s)) eqn:Hstart.
    + destruct (nameAfterSpaces (drop 5 (c :: s))) as [g|] eqn:Hafter.
      * intros [= <-].
        destruct (nameAfterSpaces_sound _ _ Hafter)
          as (spaces & rest & Hs & Hsp & Hne & Hall & Hr).
        exists [], spaces, g, rest.
        split; [|split; [exact Hsp|split; [exact Hne|split; assumption]]].
        cbn [app]. rewrite <- Hs.
        exact (startsWith_prefix _ _ Hstart).
      * intros H. destruct (IH H) as (b & sp & g & r & -> & ?).
        exists (c :: b), sp, g, r. split; [reflexivity|assumption].
    + intros H. destruct (IH H) as (b & sp & g & r & -> & ?).
      exists (c :: b), sp, g, r. split; [reflexivity|assumption].
Qed.

Lemma parseToolContent_named content :
  BlockContent.nameMatches content ->
  parseToolContent JSON_parse content <> None.
Proof.
  intros H. unfold parseToolContent.
  destruct (matchName content) as [group|] eqn:E; [discriminate|].
  apply matchName_None_iff in E. contradiction.
Qed.

(** C10. A completed tool block in whose content the pattern
    [/name:\s*(.+?)(?:\n|$)/] has no match yields no tool call, and the
    stream around it is extracted as if the block were not there: for a
    response [pre <tool> content </tool> rest] in which these are the
    first opening tag and the closing tag that ends the block, cut into
    fragments in any way, the text is [pre] followed by the text of
    [rest], and the calls are those of [rest]. Only such contents are
    dropped: a content in which the pattern has a match parses to a
    call. *)
Theorem nameless_block_dropped (chunks : list str) (pre content rest : str) :
  concat chunks =
    pre ++ lit "<tool>" ++ content ++ lit "</tool>" ++ rest ->
  indexOf (pre ++ lit "<tool>") (lit "<tool>") = len pre ->
  indexOf (content ++ lit "</tool>") (lit "</tool>") = len content ->
  ~ BlockContent.nameMatches content ->
  parseToolContent JSON_parse content = None /\
  extract chunks = (pre ++ fst (extract [rest]), snd (extract [rest])) /\
  (forall other, BlockContent.nameMatches other ->
     parseToolContent JSON_parse other <> None).
Proof.
  intros Hcat Hopen Hclose Hname.
  apply matchName_None_iff in Hname.
  pose proof (parseToolContent_nameless _ Hname) as Hparse.
  split; [exact Hparse|]. split; [|exact parseToolContent_named].
  apply indexOf_at in Hopen, Hclose.
  rewrite !extract_drain, Hcat. simpl concat. rewrite app_nil_r.
  unfold append, create. cbn [buffer inToolBlock toolBuffer app].
  set (after := content ++ lit "</tool>" ++ rest).
  assert (F1 : find (lit "<tool>") (pre ++ lit "<tool>" ++ after)
               = Some (length pre)).
  { rewrite app_assoc. apply find_app_Some, Hopen. }
  assert (F2 : find (lit "</tool>") after = Some (length content)).
  { unfold after. rewrite app_assoc. apply find_app_Some, Hclose. }
  rewrite drain_round, nextRound_nonempty
    by (destruct pre; discriminate).
  rewrite F1.
  rewrite take_app_length.
  replace (drop (length pre + 6) (pre ++ lit "<tool>" ++ after))
    with after.
  2:{ rewrite drop_app_ge by lia.
      replace (length pre + 6 - length pre)%nat with 6%nat by lia.
      reflexivity. }
  rewrite drain_round, nextRound_nonempty
    by (unfold after; destruct content; discriminate).
  cbn [app]. rewrite F2.
  unfold after at 2. rewrite take_app_length, Hparse.
  replace (drop (length content + 7) after) with rest.
  2:{ unfold after. rewrite drop_app_ge by lia.
      replace (length content + 7 - length content)%nat with 7%nat by lia.
      reflexivity. }
  destruct (drain _) as [t c]. reflexivity.
Qed.

End WithJSON.

(** *** Instances *)

Import Scenarios.

(** Both tags cut in two by the fragment boundaries. *)
Example split_tags_example :
  extract rejectAll
    [lit "Hi <to"; lit "ol>name: search"; lit "</to"; lit "ol> and bye"] =
  (lit "Hi  and bye", [ {| name := lit "search"; parameters := JObject [] |} ]).
Proof. vm_compute. reflexivity. Qed.

Lemma addChunk_no_tag_withholds_witness :
  inToolBlock create = false /\
  indexOf (buffer create ++ lit "abcdefgh") (lit "<tool>") = -1 /\
  addChunk rejectAll create (lit "abcdefgh") =
  ({| buffer := lit "cdefgh"; inToolBlock := false; toolBuffer := [] |},
   {| text := lit "ab"; toolCalls := None |}).
Proof.
  split; [reflexivity|]. split; [reflexivity|].
  exact (addChunk_no_tag_withholds rejectAll create (lit "abcdefgh")
           eq_refl eq_refl).
Defined.

(** C6, as the specification words it, fails: of the eight characters
    [abcdefgh] received outside a tool block, with no opening tag among
    them, six are withheld, not five, and only two are emitted. *)
Lemma withholds_five_counterexample :
  inToolBlock create = false /\
  indexOf (buffer create ++ lit "abcdefgh") (lit "<tool>") = -1 /\
  let '(p', out) := addChunk rejectAll create (lit "abcdefgh") in
  buffer p' = lit "cdefgh" /\ text out = lit "ab" /\
  ~ (len (buffer p') = 5 /\ text out = lit "abc").
Proof.
  split; [reflexivity|]. split; [reflexivity|].
  split; [reflexivity|]. split; [reflexivity|].
  intros [H _]. discriminate H.
Qed.

Lemma nameless_block_dropped_witness :
  let content := lit "parameters: {}" ++ [10%N] ++ lit "name:" ++ [10%N] in
  let chunks := [lit "hi<to"; lit "ol>parameters: {}"; [10%N];
                 lit "name:"; [10%N]; lit "</to"; lit "ol>bye"] in
  ~ BlockContent.nameMatches content /\
  parseToolContent rejectAll content = None /\
  extract rejectAll chunks =
    (lit "hi" ++ fst (extract rejectAll [lit "bye"]),
     snd (extract rejectAll [lit "bye"])) /\
  (forall other, BlockContent.nameMatches other ->
     parseToolContent rejectAll other <> None).
Proof.
  cbv zeta.
  assert (Hno : ~ BlockContent.nameMatches
                    (lit "parameters: {}" ++ [10%N] ++ lit "name:"
                       ++ [10%N]))
    by (apply matchName_None_iff; reflexivity).
  split; [exact Hno|].
  exact (nameless_block_dropped rejectAll
           [lit "hi<to"; lit "ol>parameters: {}"; [10%N];
            lit "name:"; [10%N]; lit "</to"; lit "ol>bye"]
           (lit "hi")
           (lit "parameters: {}" ++ [10%N] ++ lit "name:" ++ [10%N])
           (lit "bye") eq_refl eq_refl eq_refl Hno).
Defined.

(** C10, as the specification words it, fails: the content
    [tool_name: search] has no line that starts with [name:], yet the
    pattern finds [name:] inside the line and the block yields a call
    named [search]; and a block whose only mention of [name:] is inside
    its parameters line yields a call named after what follows it. *)
Lemma name_inside_line_counterexample :
  BlockContent.hasNameLine (lit "tool_name: search") = false /\
  extract rejectAll [lit "<tool>tool_name: search</tool>"] =
    ([], [ {| name := lit "search"; parameters := JObject [] |} ]) /\
  BlockContent.hasNameLine (lit "parameters: {user_name: bob}") = false /\
  extract rejectAll [lit "<tool>parameters: {user_name: bob}</tool>"] =
    ([], [ {| name := lit "bob}";
              parameters :=
                JObject [(lit "raw", JString (lit "{user_name: bob}"))] |} ]).
Proof. vm_compute. repeat split; reflexivity. Qed.

End ToolParserFacts.

(** ** Compaction of the conversation memory *)

Module MemoryManagerFacts.
Import MemoryManager.

Lemma sum_from {A : Type} (f : A -> Z) (l : list A) (a : Z) :
  fold_left (fun total x => total + f x) l a =
  a + fold_left (fun total x => total + f x) l 0.
Proof.
  revert a. induction l as [|x l IH]; intros a; simpl; [lia|].
  rewrite (IH (a + f x)), (IH (0 + f x)). lia.
Qed.

Lemma ceilDiv2_5_nonneg n : 0 <= n -> 0 <= ceilDiv2_5 n.
Proof. intros H. unfold ceilDiv2_5. apply Z.div_pos; lia. Qed.

Lemma partTokens_nonneg part : 0 <= partTokens part.
Proof.
  unfold partTokens. destruct (type part); [|lia].
  destruct (partText part) as [[|c s]|]; try lia.
  apply ceilDiv2_5_nonneg. unfold len. lia.
Qed.

Lemma messageTokens_nonneg msg : 0 <= messageTokens msg.
Proof.
  unfold messageTokens. destruct (content msg) as [s|parts].
  - apply ceilDiv2_5_nonneg. unfold len. lia.
  - induction parts as [|part parts IH]; simpl; [lia|].
    rewrite sum_from. pose proof (partTokens_nonneg part). lia.
Qed.

Lemma estimateTokens_app l1 l2 :
  estimateTokens (l1 ++ l2) = estimateTokens l1 + estimateTokens l2.
Proof.
  unfold estimateTokens. rewrite fold_left_app.
  rewrite sum_from. reflexivity.
Qed.

Lemma estimateTokens_nonneg l : 0 <= estimateTokens l.
Proof.
  induction l as [|msg l IH]; [reflexivity|].
  change (msg :: l) with ([msg] ++ l). rewrite estimateTokens_app.
  unfold estimateTokens at 1. simpl.
  pose proof (messageTokens_nonneg msg). lia.
Qed.

Lemma estimateTokens_take k l : estimateTokens (take k l) <= estimateTokens l.
Proof.
  rewrite <- (take_drop k l) at 2. rewrite estimateTokens_app.
  pose proof (estimateTokens_nonneg (drop k l)). lia.
Qed.

Lemma shouldCompact_due m sessionId :
  shouldCompact m sessionId = compactionDue (getMessages m sessionId).
Proof. reflexivity. Qed.

(** The trigger as a condition on the cached messages. *)
Lemma compactionDue_bool messages :
  compactionDue messages =
  (len messages >? 20)
  || ((len messages >=? 15) && (estimateTokens messages >? 8000)).
Proof.
  unfold compactionDue, COMPACT_THRESHOLD, MAX_MESSAGES, MAX_TOKENS_ESTIMATE.
  rewrite Z.geb_leb.
  destruct (Z.ltb_spec (len messages) 15) as [H|H].
  - rewrite (proj2 (Z.leb_gt _ _)) by lia.
    rewrite Z.gtb_ltb, (proj2 (Z.ltb_ge _ _)) by lia. reflexivity.
  - rewrite (proj2 (Z.leb_le _ _)) by lia. reflexivity.
Qed.

Lemma compactionDue_iff messages :
  compactionDue messages = true <->
  len messages > 20 \/ (len messages >= 15 /\ estimateTokens messages > 8000).
Proof.
  rewrite compactionDue_bool, orb_true_iff, andb_true_iff.
  rewrite !Z.gtb_ltb, Z.geb_leb, !Z.ltb_lt, Z.leb_le. lia.
Qed.

Lemma compactionDue_small messages :
  len messages < 15 -> compactionDue messages = false.
Proof.
  intros H. apply not_true_iff_false. rewrite compactionDue_iff. lia.
Qed.

Lemma compactionDue_light messages :
  len messages <= 20 -> estimateTokens messages <= 8000 ->
  compactionDue messages = false.
Proof.
  intros H1 H2. apply not_true_iff_false. rewrite compactionDue_iff. lia.
Qed.

Section WithCollaborators.

Variable chatCompletion : str -> str -> option (option str).
Variable stringifyParts : list MessageContent -> str.

#[local] Abbreviation generateSummary :=
  (generateSummary chatCompletion stringifyParts).
#[local] Abbreviation compactMemory :=
  (compactMemory chatCompletion stringifyParts).
#[local] Abbreviation saveMessage :=
  (saveMessage chatCompletion stringifyParts).
#[local] Abbreviation saveAll := (saveAll chatCompletion stringifyParts).

(** The cache right after the append of [saveMessage]. *)
Lemma getMessages_appended m sessionId messages :
  getMessages {| messageCache := <[sessionId := messages]> (messageCache m);
                 compactedMemories := compactedMemories m |} sessionId
  = messages.
Proof.
  unfold getMessages. cbn [messageCache].
  rewrite lookup_insert_eq. reflexivity.
Qed.

(** [saveMessage] with the test of [shouldCompact] spelled out. *)
Lemma saveMessage_due (m : t) (sessionId : str) (role : Role)
    (content : str) (now later : Z) :
  let messages := getMessages m sessionId ++ [newMessage role content now] in
  let appended :=
    {| messageCache := <[sessionId := messages]> (messageCache m);
       compactedMemories := compactedMemories m |} in
  saveMessage m sessionId role content now later =
  if compactionDue messages then compactMemory appended sessionId later
  else appended.
Proof.
  cbv zeta. unfold MemoryManager.saveMessage.
  rewrite shouldCompact_due, getMessages_appended. reflexivity.
Qed.

(** C4, as the source has it. After every append, compaction is run
    exactly when the cached count exceeds 20, or the cached count is at
    least 15 (the threshold itself included) and the estimated token
    count exceeds 8000. *)
Theorem compaction_trigger (m : t) (sessionId : str) (role : Role)
    (content : str) (now later : Z) :
  let messages := getMessages m sessionId ++ [newMessage role content now] in
  let appended :=
    {| messageCache := <[sessionId := messages]> (messageCache m);
       compactedMemories := compactedMemories m |} in
  saveMessage m sessionId role content now later =
  if (len messages >? 20)
     || ((len messages >=? 15) && (estimateTokens messages >? 8000))
  then compactMemory appended sessionId later
  else appended.
Proof.
  cbv zeta. rewrite saveMessage_due, compactionDue_bool. reflexivity.
Qed.

(** The case singled out by C4: more than 15 and at most 20 cached
    messages within the token budget start no compaction. *)
Lemma no_compaction_within_budget (m : t) (sessionId : str) (role : Role)
    (content : str) (now later : Z) :
  let messages := getMessages m sessionId ++ [newMessage role content now] in
  15 < len messages <= 20 ->
  estimateTokens messages <= 8000 ->
  saveMessage m sessionId role content now later =
  {| messageCache := <[sessionId := messages]> (messageCache m);
     compactedMemories := compactedMemories m |}.
Proof.
  cbv zeta. intros Hlen Htok. unfold MemoryManager.saveMessage.
  rewrite shouldCompact_due, getMessages_appended.
  rewrite compactionDue_light by lia. reflexivity.
Qed.

(** What [compactMemory] does once the threshold is reached: the
    messages before the last ten are summarized, the summary message
    takes their place and a record of their number is added. *)
Lemma compactMemory_runs (m : t) (sessionId : str) (now : Z) :
  let messages := getMessages m sessionId in
  let older := take (length messages - 10) messages in
  15 <= len messages ->
  compactMemory m sessionId now =
  {| messageCache :=
       <[sessionId :=
           {| role := system;
              content := Str (lit "[Memory Summary]" ++ [10%N]
                              ++ generateSummary older);
              timestamp := Some now |}
           :: drop (length messages - 10) messages]> (messageCache m);
     compactedMemories :=
       <[sessionId :=
           getCompactedMemories m sessionId ++
           [{| summary := generateSummary older; fromId := 0;
               toId := len older; messageCount := len older |}]]>
         (compactedMemories m) |}.
Proof.
  cbv zeta. intros Hlen. unfold MemoryManager.compactMemory.
  set (messages := getMessages m sessionId) in *.
  unfold COMPACT_THRESHOLD, KEEP_RECENT.
  rewrite (proj2 (Z.ltb_ge _ _)) by lia.
  unfold len in Hlen.
  pose proof (slice_prefix_back messages 10 ltac:(lia)) as S1.
  pose proof (slice_suffix_back messages 10 ltac:(lia)) as S2.
  change (Z.of_nat 10) with 10 in S1, S2.
  rewrite S1, S2.
  assert ((len (take (length messages - 10) messages) =? 0) = false) as ->.
  { apply Z.eqb_neq. unfold len. rewrite length_take. lia. }
  reflexivity.
Qed.

Lemma compactMemory_idle (m : t) (sessionId : str) (now : Z) :
  len (getMessages m sessionId) < 15 ->
  compactMemory m sessionId now = m.
Proof.
  intros H. unfold MemoryManager.compactMemory, COMPACT_THRESHOLD.
  rewrite (proj2 (Z.ltb_lt _ _)) by lia. reflexivity.
Qed.

Lemma getCompactedMemories_inserted caches records sessionId l :
  getCompactedMemories
    {| messageCache := caches;
       compactedMemories := <[sessionId := l]> records |} sessionId = l.
Proof.
  unfold getCompactedMemories. cbn [compactedMemories].
  rewrite lookup_insert_eq. reflexivity.
Qed.

Lemma getMessages_inserted caches records sessionId l :
  getMessages
    {| messageCache := <[sessionId := l]> caches;
       compactedMemories := records |} sessionId = l.
Proof.
  unfold getMessages. cbn [messageCache].
  rewrite lookup_insert_eq. reflexivity.
Qed.

(** Appends that never make the compaction due only extend the cache. *)
Lemma saveAll_quiet (sessionId : str) entries : forall m,
  (forall k, (0 < k <= length entries)%nat ->
     compactionDue
       (getMessages m sessionId ++ map entryMessage (take k entries))
     = false) ->
  getMessages (saveAll m sessionId entries) sessionId =
    getMessages m sessionId ++ map entryMessage entries /\
  getCompactedMemories (saveAll m sessionId entries) sessionId =
    getCompactedMemories m sessionId.
Proof.
  induction entries as [|[[[role content] now] later] entries IH];
    intros m Hquiet.
  - simpl. rewrite app_nil_r. split; reflexivity.
  - unfold MemoryManager.saveAll. cbn [fold_left].
    fold (saveAll (saveMessage m sessionId role content now later)
            sessionId entries).
    assert (Hone : saveMessage m sessionId role content now later =
      {| messageCache :=
           <[sessionId := getMessages m sessionId
                          ++ [newMessage role content now]]>
             (messageCache m);
         compactedMemories := compactedMemories m |}).
    { unfold MemoryManager.saveMessage.
      rewrite shouldCompact_due, getMessages_inserted.
      pose proof (Hquiet 1%nat ltac:(simpl; lia)) as H1.
      change (compactionDue (getMessages m sessionId
                             ++ [newMessage role content now]) = false) in H1.
      rewrite H1. reflexivity. }
    rewrite Hone.
    match goal with
    | |- context [saveAll ?m1 sessionId entries] =>
        destruct (IH m1) as [IH1 IH2]
    end.
    + intros k Hk. rewrite getMessages_inserted, <- app_assoc.
      apply (Hquiet (S k)). simpl. lia.
    + rewrite IH1, IH2, getMessages_inserted, <- app_assoc.
      split; reflexivity.
Qed.

(** C5, as the source has it. Sixteen appends to a fresh session, the
    first fifteen within the token budget. When all sixteen are within
    the budget (sixteen short messages) the sixteenth append starts no
    compaction: the cache holds the sixteen messages and there is no
    CompactedMemory record. When the sixteenth takes the estimate above
    8000, it starts the compaction: the cache becomes the summary message
    followed by messages 7 to 16, and one record with [messageCount = 6]
    exists. *)
Theorem sixteen_appends (sessionId : str)
    (first15 : list (Role * str * Z * Z)) (role : Role) (content : str)
    (now later : Z) :
  length first15 = 15%nat ->
  estimateTokens (map entryMessage first15) <= 8000 ->
  let messages :=
    map entryMessage first15 ++ [newMessage role content now] in
  let final :=
    saveAll create sessionId (first15 ++ [(role, content, now, later)]) in
  (estimateTokens messages <= 8000 ->
   getMessages final sessionId = messages /\
   getCompactedMemories final sessionId = []) /\
  (estimateTokens messages > 8000 ->
   getMessages final sessionId =
     {| role := system;
        content := Str (lit "[Memory Summary]" ++ [10%N]
                        ++ generateSummary (take 6 messages));
        timestamp := Some later |} :: drop 6 messages /\
   getCompactedMemories final sessionId =
     [{| summary := generateSummary (take 6 messages); fromId := 0;
         toId := 6; messageCount := 6 |}]).
Proof.
  intros Hlen Hbudget. cbv zeta.
  unfold MemoryManager.saveAll. rewrite fold_left_app. cbn [fold_left].
  fold (saveAll create sessionId first15).
  destruct (saveAll_quiet sessionId first15 create) as [Hm Hc].
  { intros k Hk. change (getMessages create sessionId) with (@nil Message).
    cbn [app]. rewrite <- firstn_map.
    destruct (decide (k = 15%nat)) as [->|Hne].
    - rewrite take_ge by (rewrite length_map; lia).
      apply compactionDue_light; [|exact Hbudget].
      unfold len. rewrite length_map. lia.
    - apply compactionDue_small. unfold len.
      rewrite length_take, length_map. lia. }
  change (getMessages create sessionId) with (@nil Message) in Hm.
  change (getCompactedMemories create sessionId)
    with (@nil CompactedMemory) in Hc.
  cbn [app] in Hm.
  set (m15 := saveAll create sessionId first15) in *.
  set (messages := map entryMessage first15 ++ [newMessage role content now]).
  assert (Hcount : length messages = 16%nat).
  { unfold messages. rewrite length_app, length_map. simpl. lia. }
  rewrite saveMessage_due, Hm. fold messages.
  split; intros Htok.
  - rewrite compactionDue_light by (unfold len; lia).
    rewrite getMessages_inserted. split; [reflexivity|].
    unfold getCompactedMemories in *. exact Hc.
  - assert (compactionDue messages = true) as ->.
    { apply compactionDue_iff. right. unfold len. lia. }
    rewrite compactMemory_runs
      by (rewrite getMessages_inserted; unfold len; lia).
    rewrite getMessages_inserted, getMessages_inserted.
    rewrite getCompactedMemories_inserted.
    rewrite Hcount. change (16 - 10)%nat with 6%nat.
    assert (len (take 6 messages) = 6) as ->
      by (unfold len; rewrite length_take; lia).
    split; [reflexivity|].
    unfold getCompactedMemories at 1. cbn [compactedMemories].
    unfold getCompactedMemories in Hc. rewrite Hc. reflexivity.
Qed.



End WithCollaborators.

(** *** Instances *)

Import Scenarios.

(** C4, as the specification words it, fails at the threshold itself:
    with exactly 15 cached messages of 1500 characters each (600 estimated
    tokens apiece, 9000 in all) the count does not exceed 15, yet the
    compaction is due, and the fifteenth append does compact, leaving one
    record that covers 5 messages. *)
Lemma threshold_inclusive_counterexample :
  let messages := map entryMessage (longEntries 15) in
  let m := {| messageCache := {[ session := messages ]};
              compactedMemories := ∅ |} in
  shouldCompact m session = true /\
  ~ (len messages > 20 \/
     (len messages > 15 /\ estimateTokens messages > 8000)) /\
  map messageCount
    (getCompactedMemories
       (saveAll summarizerUp noParts create session (longEntries 15))
       session) = [5].
Proof.
  cbv zeta. split; [vm_compute; reflexivity|].
  split; [|vm_compute; reflexivity].
  intros [H|[H _]]; vm_compute in H; discriminate H.
Qed.

(** C5, as the specification words it, fails: after sixteen short
    messages appended one per call the cache still holds the sixteen
    messages and no CompactedMemory record exists. *)
Lemma sixteen_short_counterexample :
  let final :=
    saveAll summarizerUp noParts create session (shortEntries 16) in
  getMessages final session = map entryMessage (shortEntries 16) /\
  getCompactedMemories final session = [] /\
  ~ (length (getMessages final session) = 11%nat /\
     map messageCount (getCompactedMemories final session) = [6]).
Proof.
  cbv zeta. split; [vm_compute; reflexivity|].
  split; [vm_compute; reflexivity|].
  intros [H _]. vm_compute in H. discriminate H.
Qed.

Lemma sixteen_appends_witness :
  length (shortEntries 15) = 15%nat /\
  estimateTokens (map entryMessage (shortEntries 15)) <= 8000 /\
  estimateTokens (map entryMessage (shortEntries 16)) <= 8000 /\
  getMessages
    (saveAll summarizerUp noParts create session (shortEntries 16)) session
  = map entryMessage (shortEntries 16) /\
  getCompactedMemories
    (saveAll summarizerUp noParts create session (shortEntries 16)) session
  = [].
Proof.
  assert (H15 : estimateTokens (map entryMessage (shortEntries 15)) <= 8000)
    by (vm_compute; discriminate).
  assert (H16 : estimateTokens (map entryMessage (shortEntries 16)) <= 8000)
    by (vm_compute; discriminate).
  split; [reflexivity|]. split; [exact H15|]. split; [exact H16|].
  exact (proj1 (sixteen_appends summarizerUp noParts session
                  (shortEntries 15) user (lit "hello") 16 16 eq_refl H15)
               H16).
Defined.



End MemoryManagerFacts.

(** ** The turn loop *)

Module SupervisorAgentFacts.
Import SupervisorAgent.

Section WithStringify.

Variable JSON_stringify : JSON -> str.
Variable JSON_stringify2 : JSON -> str.

#[local] Abbreviation dedupKey := (dedupKey JSON_stringify).
#[local] Abbreviation dedupLoop := (dedupLoop JSON_stringify).
#[local] Abbreviation deduplicateToolCalls :=
  (deduplicateToolCalls JSON_stringify).
#[local] Abbreviation runTools := (runTools JSON_stringify JSON_stringify2).

(** *** Deduplication *)

(** The loop of [deduplicateToolCalls], with [seen] holding the keys of
    [unique]: the result extends [unique], its keys are pairwise
    different, and every key met is among them. *)
Lemma dedupLoop_spec toolCalls : forall (seen : gset str) unique,
  (forall k, k ∈ seen <-> k ∈ map dedupKey unique) ->
  NoDup (map dedupKey unique) ->
  NoDup (map dedupKey (dedupLoop toolCalls seen unique)) /\
  (forall tc, tc ∈ unique \/ tc ∈ toolCalls ->
     dedupKey tc ∈ map dedupKey (dedupLoop toolCalls seen unique)).
Proof.
  induction toolCalls as [|tc rest IH]; intros seen unique Hseen Hnodup.
  - simpl. split; [exact Hnodup|].
    intros c [Hc|Hc]; [|inversion Hc].
    apply list_elem_of_In, in_map, list_elem_of_In, Hc.
  - cbn [SupervisorAgent.dedupLoop].
    destruct (decide (dedupKey tc ∈ seen)) as [Hin|Hout].
    + destruct (IH seen unique Hseen Hnodup) as [H1 H2].
      split; [exact H1|].
      intros c [Hc|Hc]; [apply H2; left; exact Hc|].
      apply elem_of_cons in Hc as [->|Hc]; [|apply H2; right; exact Hc].
      apply Hseen in Hin. apply list_elem_of_In, in_map_iff in Hin.
      destruct Hin as (c' & Hkey & Hc').
      rewrite <- Hkey. apply H2. left. apply list_elem_of_In, Hc'.
    + destruct (IH ({[dedupKey tc]} ∪ seen) (unique ++ [tc])) as [H1 H2].
      * intros k. rewrite map_app, elem_of_app, elem_of_union, Hseen.
        simpl. rewrite elem_of_singleton, list_elem_of_singleton. tauto.
      * rewrite map_app. simpl. apply NoDup_app. split; [exact Hnodup|].
        split; [|apply NoDup_singleton].
        intros k Hk Hk'. apply list_elem_of_singleton in Hk'. subst k.
        apply Hout, Hseen, Hk.
      * split; [exact H1|].
        intros c [Hc|Hc].
        -- apply H2. left. apply elem_of_app. left. exact Hc.
        -- apply elem_of_cons in Hc as [->|Hc].
           ++ apply H2. left. apply elem_of_app. right. constructor.
           ++ apply H2. right. exact Hc.
Qed.

Lemma deduplicateToolCalls_spec toolCalls :
  NoDup (map dedupKey (deduplicateToolCalls toolCalls)) /\
  (forall tc, tc ∈ toolCalls ->
     dedupKey tc ∈ map dedupKey (deduplicateToolCalls toolCalls)).
Proof.
  destruct (dedupLoop_spec toolCalls ∅ []) as [H1 H2].
  - intros k. simpl. rewrite elem_of_empty, elem_of_nil. tauto.
  - constructor.
  - split; [exact H1|]. intros tc Htc. apply H2. right. exact Htc.
Qed.

Lemma none_for_absent_key (l : list ToolCall) (k : str) :
  k ∉ map dedupKey l -> filter (fun c => dedupKey c = k) l = [].
Proof.
  induction l as [|c l IH]; intros Hk; [reflexivity|].
  simpl in Hk. apply not_elem_of_cons in Hk as [Hne Hk].
  rewrite filter_cons_False by congruence. apply IH, Hk.
Qed.

(** In a list whose keys are pairwise different, a key that occurs
    occurs once. *)
Lemma one_per_key (l : list ToolCall) (k : str) :
  NoDup (map dedupKey l) ->
  k ∈ map dedupKey l ->
  length (filter (fun c => dedupKey c = k) l) = 1%nat.
Proof.
  induction l as [|c l IH]; intros Hnodup Hin; [inversion Hin|].
  simpl in Hnodup. apply NoDup_cons in Hnodup as [Hc Hnodup].
  destruct (decide (dedupKey c = k)) as [Heq|Hne].
  - rewrite filter_cons_True by exact Heq.
    rewrite none_for_absent_key by (rewrite <- Heq; exact Hc).
    reflexivity.
  - rewrite filter_cons_False by exact Hne.
    apply IH; [exact Hnodup|].
    simpl in Hin. apply elem_of_cons in Hin as [Hin|Hin]; [|exact Hin].
    congruence.
Qed.

(** *** The tool phase of a turn *)

Lemma executed_app t1 t2 : executed (t1 ++ t2) = executed t1 ++ executed t2.
Proof. apply omap_app. Qed.

Lemma reported_app t1 t2 : reported (t1 ++ t2) = reported t1 ++ reported t2.
Proof. apply omap_app. Qed.

Lemma executed_started l : executed (map Execute l) = l.
Proof. induction l as [|c l IH]; simpl; [|rewrite IH]; reflexivity. Qed.


Lemma results_of_returned (w : World) l :
  (forall c, c ∈ l -> exists v, executeTool w c = inl v) ->
  firstRejection (map (executeTool w) l) = None /\
  forall g,
    (forall tc v, g (tc, inl v) =
       [Save MemoryManager.system (resultText JSON_stringify2 tc v);
        Emit (ToolResultEvent tc v)]) ->
    executed (flat_map g (zip l (map (executeTool w) l))) = [] /\
    reported (flat_map g (zip l (map (executeTool w) l))) = l.
Proof.
  induction l as [|c l IH]; intros Hret.
  - split; [reflexivity|]. intros g _. split; reflexivity.
  - destruct (Hret c) as [v Hv]; [constructor|].
    destruct IH as [IH1 IH2].
    { intros c' Hc'. apply Hret. constructor. exact Hc'. }
    split.
    + simpl. rewrite Hv. exact IH1.
    + intros g Hg. destruct (IH2 g Hg) as [E R].
      cbn [map zip zip_with flat_map]. rewrite Hv, Hg.
      rewrite executed_app, reported_app, E, R. split; reflexivity.
Qed.





End WithStringify.

(** *** Termination of the turn loop *)

Section WithJSON.

Variable JSON_parse : str -> option JSON.
Variable JSON_stringify : JSON -> str.
Variable JSON_stringify2 : JSON -> str.

#[local] Abbreviation turnLoop :=
  (turnLoop JSON_parse JSON_stringify JSON_stringify2).
#[local] Abbreviation execute :=
  (execute JSON_parse JSON_stringify JSON_stringify2).

Lemma turnLoop_total fuel : forall (w : World) maxTurns turnCount aborted,
  maxTurns - turnCount <= Z.of_nat fuel ->
  exists r, turnLoop fuel w maxTurns turnCount aborted = Some r.
Proof.
  induction fuel as [|fuel IH]; intros w maxTurns turnCount aborted Hfuel;
    cbn [SupervisorAgent.turnLoop].
  - rewrite (proj2 (Z.ltb_ge _ _)) by lia. eauto.
  - destruct (Z.ltb_spec turnCount maxTurns) as [Hlt|Hge]; [|eauto].
    destruct aborted; [eauto|].
    destruct (streamLLM JSON_parse _ false) as [[effects aborted'] outcome].
    destruct outcome as [[response toolCalls]|message]; [|eauto].
    destruct (len toolCalls >? 0); [|eauto].
    destruct (SupervisorAgent.runTools _ _ w toolCalls)
      as [ran [message|]]; [eauto|].
    destruct (IH w maxTurns (turnCount + 1) aborted') as [[[l f] t] ->];
      [lia|eauto].
Qed.

(** [execute] always completes. *)
Lemma execute_total (w : World) (configured : option Z) (finalQuery : str) :
  exists trace, execute w configured finalQuery = Some trace.
Proof.
  unfold SupervisorAgent.execute.
  destruct (turnLoop_total (Z.to_nat (resolveMaxTurns configured)) w
              (resolveMaxTurns configured) 0 (abortedEarly w))
    as [[[effects turnCount] thrown] ->]; [lia|eauto].
Qed.

End WithJSON.

(** *** Instances *)

Import Scenarios.



(** C2 fails on the source. With [maxTurns = 1] and a model that answers
    with plain text, the run emits [done] and then, because the turn
    counter has reached the maximum, the turn-limit error as well: two
    terminal events. *)
Lemma done_then_turn_limit :
  let run :=
    execute rejectAll serialize serialize
      (always [Delta (lit "Hello, world")]) (Some 1) (lit "hi") in
  option_map emitted run =
    Some [TextEvent (lit "Hello,"); TextEvent (lit " world"); DoneEvent;
          ErrorEvent (lit "Max turns reached")] /\
  option_map (fun trace => length (List.filter isTerminal (emitted trace)))
             run = Some 2%nat.
Proof. split; vm_compute; reflexivity. Qed.

(** C8 fails on the source. The second fragment completes the tool
    block and carries text after it; [addChunk] returns that text together
    with the tool call, and [streamLLM] forwards it because the flag
    [hasToolCalls] is only set afterwards. The text drained by the final
    [flush] is held back. *)
Lemma text_after_tool_call_forwarded :
  fst (fst (streamLLM rejectAll
              [Delta (lit "<tool>name: x</to");
               Delta (lit "ol>hello world!!")] false)) =
  [Emit (TextEvent (lit "hello w"));
   Emit (ToolCallEvent {| name := lit "x"; parameters := JObject [] |});
   Trace (lit "<tool>name: x</tool>hello world!!")].
Proof. vm_compute. reflexivity. Qed.

(** C9 fails on the source. [abort()] is called after the first
    fragment. In a turn without tool call the text still held by the
    parser is emitted after the cancellation and the run ends with
    [done]; in a turn whose response held a tool call the tool is
    executed after the cancellation, and only the next turn reports the
    abort. *)
Lemma abort_mid_stream_not_honoured :
  option_map emitted
    (execute rejectAll serialize serialize
       (always [Delta (lit "Hello, world"); Abort; Delta (lit "more")])
       None (lit "hi")) =
    Some [TextEvent (lit "Hello,"); TextEvent (lit " world"); DoneEvent] /\
  option_map (fun trace => (executed trace, emitted trace))
    (execute rejectAll serialize serialize
       (always [Delta (lit "<tool>name: x</tool>"); Abort;
                Delta (lit "more")])
       None (lit "hi")) =
    Some ([ {| name := lit "x"; parameters := JObject [] |} ],
          [ToolCallEvent {| name := lit "x"; parameters := JObject [] |};
           ToolResultEvent {| name := lit "x"; parameters := JObject [] |}
             JNull;
           ErrorEvent (lit "Execution aborted by user")]).
Proof. split; vm_compute; reflexivity. Qed.

End SupervisorAgentFacts.

(** * Further properties *)

(** ** The extractor on whole responses *)

Module ToolParserMore.
Import ToolParser ParserState ToolParserFacts.

Section WithJSON.

Variable JSON_parse : str -> option JSON.

#[local] Abbreviation nextRound := (nextRound JSON_parse).
#[local] Abbreviation runLoop := (runLoop JSON_parse).
#[local] Abbreviation addChunk := (addChunk JSON_parse).
#[local] Abbreviation drain := (drain JSON_parse).
#[local] Abbreviation feed := (feed JSON_parse).
#[local] Abbreviation extract := (extract JSON_parse).
#[local] Abbreviation parseToolContent := (parseToolContent JSON_parse).

Lemma extract_outside (chunks : list str) :
  extract chunks =
  drain {| buffer := concat chunks; inToolBlock := false; toolBuffer := [] |}.
Proof. rewrite extract_drain. reflexivity. Qed.

(** X1. A response without opening tag comes out unchanged, with no
    tool call, however it is cut into fragments. *)
Theorem plain_text_passes (chunks : list str) :
  indexOf (concat chunks) (lit "<tool>") = -1 ->
  extract chunks = (concat chunks, []).
Proof.
  intros H. apply indexOf_missing_inv in H.
  rewrite extract_outside. apply drain_no_open, H.
Qed.

(** The loop through one block: text before the first opening tag, then
    the block up to its closing tag, then the rest. *)
Lemma drain_block (pre content rest : str) :
  find (lit "<tool>") (pre ++ lit "<tool>") = Some (length pre) ->
  find (lit "</tool>") (content ++ lit "</tool>") = Some (length content) ->
  drain {| buffer := pre ++ lit "<tool>" ++ content ++ lit "</tool>" ++ rest;
           inToolBlock := false; toolBuffer := [] |} =
  let '(t, c) :=
    drain {| buffer := rest; inToolBlock := false; toolBuffer := [] |} in
  (pre ++ t,
   match parseToolContent content with Some tc => tc :: c | None => c end).
Proof.
  intros Hopen Hclose.
  set (after := content ++ lit "</tool>" ++ rest).
  assert (F1 : find (lit "<tool>") (pre ++ lit "<tool>" ++ after)
               = Some (length pre)).
  { rewrite app_assoc. apply find_app_Some, Hopen. }
  assert (F2 : find (lit "</tool>") after = Some (length content)).
  { unfold after. rewrite app_assoc. apply find_app_Some, Hclose. }
  rewrite drain_round, nextRound_nonempty by (destruct pre; discriminate).
  rewrite F1, take_app_length.
  replace (drop (length pre + 6) (pre ++ lit "<tool>" ++ after)) with after.
  2:{ rewrite drop_app_ge by lia.
      replace (length pre + 6 - length pre)%nat with 6%nat by lia.
      reflexivity. }
  rewrite drain_round, nextRound_nonempty
    by (unfold after; destruct content; discriminate).
  cbn [app]. rewrite F2.
  unfold after at 2. rewrite take_app_length.
  replace (drop (length content + 7) after) with rest.
  2:{ unfold after. rewrite drop_app_ge by lia.
      replace (length content + 7 - length content)%nat with 7%nat by lia.
      reflexivity. }
  destruct (drain _) as [t c]. reflexivity.
Qed.

(** X2. A complete block whose content parses to a call contributes
    that call, in stream order, and none of its characters to the text:
    for a response [pre <tool> content </tool> rest] cut in any way, the
    text is [pre] followed by the text of [rest] and the calls are the
    call of the block followed by the calls of [rest]. *)
Theorem block_extracted (chunks : list str) (pre content rest : str)
    (tc : ToolCall) :
  concat chunks = pre ++ lit "<tool>" ++ content ++ lit "</tool>" ++ rest ->
  indexOf (pre ++ lit "<tool>") (lit "<tool>") = len pre ->
  indexOf (content ++ lit "</tool>") (lit "</tool>") = len content ->
  parseToolContent content = Some tc ->
  extract chunks = (pre ++ fst (extract [rest]), tc :: snd (extract [rest])).
Proof.
  intros Hcat Hopen Hclose Hparse.
  apply indexOf_at in Hopen, Hclose.
  rewrite !extract_outside, Hcat. simpl concat. rewrite app_nil_r.
  rewrite drain_block by assumption. rewrite Hparse.
  destruct (drain _) as [t c]. reflexivity.
Qed.

(** X3. A tool block that is never closed is dropped at [flush], with
    everything after its opening tag: the text is what came before the
    tag, and there is no call. *)
Theorem unterminated_block_discarded (chunks : list str) (pre rest : str) :
  concat chunks = pre ++ lit "<tool>" ++ rest ->
  indexOf (pre ++ lit "<tool>") (lit "<tool>") = len pre ->
  indexOf rest (lit "</tool>") = -1 ->
  extract chunks = (pre, []).
Proof.
  intros Hcat Hopen Hclose.
  apply indexOf_at in Hopen. apply indexOf_missing_inv in Hclose.
  rewrite extract_outside, Hcat.
  assert (F1 : find (lit "<tool>") (pre ++ lit "<tool>" ++ rest)
               = Some (length pre)).
  { rewrite app_assoc. apply find_app_Some, Hopen. }
  rewrite drain_round, nextRound_nonempty by (destruct pre; discriminate).
  rewrite F1, take_app_length.
  replace (drop (length pre + 6) (pre ++ lit "<tool>" ++ rest)) with rest.
  2:{ rewrite drop_app_ge by lia.
      replace (length pre + 6 - length pre)%nat with 6%nat by lia.
      reflexivity. }
  rewrite drain_round.
  destruct (decide (rest = [])) as [->|Hrest].
  - rewrite nextRound_empty. cbn [buffer]. rewrite !app_nil_r. reflexivity.
  - rewrite nextRound_nonempty by assumption. cbn [app]. rewrite Hclose.
    cbn [buffer]. rewrite !app_nil_r. reflexivity.
Qed.

(** *** What the parser holds between calls *)

Lemma runLoop_settled p :
  (inToolBlock p = true -> find (lit "</tool>") (toolBuffer p) = None) ->
  settled (fst (fst (runLoop p))).
Proof.
  induction p as [p IH] using (round_ind JSON_parse). intros Hin.
  rewrite runLoop_round.
  destruct (nextRound p) as [p' e|p' e call] eqn:R.
  - clear IH. cbn [fst]. destruct p as [b inb tb].
    cbn [inToolBlock toolBuffer] in Hin.
    destruct (decide (b = [])) as [->|Hb].
    { rewrite nextRound_empty in R. injection R as <- <-.
      unfold settled. cbn [inToolBlock buffer toolBuffer].
      destruct inb; [split; [reflexivity|apply Hin; reflexivity]|].
      split; [simpl; lia|reflexivity]. }
    rewrite nextRound_nonempty in R by assumption.
    destruct inb.
    + destruct (find (lit "</tool>") (tb ++ b)) eqn:F; [discriminate|].
      injection R as <- <-. unfold settled. cbn. split; [reflexivity|exact F].
    + destruct (find (lit "<tool>") b) eqn:F; [discriminate|].
      destruct (Nat.ltb_spec 6 (length b)) as [H|H];
        injection R as <- <-; unfold settled;
        cbn [inToolBlock buffer toolBuffer].
      * split; [rewrite length_drop; lia|].
        rewrite <- (take_drop (length b - 6) b) in F.
        apply find_None_drop in F. exact F.
      * split; [lia|exact F].
  - pose proof R as R'. destruct p as [b inb tb].
    destruct (decide (b = [])) as [->|Hb];
      [rewrite nextRound_empty in R'; discriminate|].
    rewrite nextRound_nonempty in R' by assumption.
    assert (Hp' : inToolBlock p' = true ->
                  find (lit "</tool>") (toolBuffer p') = None).
    { destruct inb.
      - destruct (find (lit "</tool>") (tb ++ b)); [|discriminate].
        injection R' as <- _ _. discriminate.
      - destruct (find (lit "<tool>") b).
        + injection R' as <- _ _. reflexivity.
        + destruct (6 <? length b)%nat; discriminate. }
    specialize (IH _ _ _ eq_refl Hp').
    destruct (runLoop p') as [[q t] c]. exact IH.
Qed.

Lemma addChunk_settled p chunk :
  settled p -> settled (fst (addChunk p chunk)).
Proof.
  intros Hp. rewrite addChunk_runLoop.
  pose proof (runLoop_settled (append p chunk)) as H.
  destruct (runLoop (append p chunk)) as [[p' t] c]. apply H.
  unfold append. cbn [inToolBlock toolBuffer]. intros Hin.
  unfold settled in Hp. rewrite Hin in Hp. apply Hp.
Qed.

(** X4. Bounded lookback. Whatever fragments a new parser has been fed,
    between two calls it withholds at most 6 characters, with no complete
    opening tag among them, when outside a tool block; inside a block it
    withholds nothing as undecided text, and the block content gathered
    so far holds no closing tag. *)
Theorem feed_settled (chunks : list str) :
  settled (fst (fst (feed create chunks))).
Proof.
  assert (H : forall p, settled p -> settled (fst (fst (feed p chunks)))).
  { induction chunks as [|chunk rest IH]; intros p Hp; [exact Hp|].
    cbn [ToolParser.feed].
    pose proof (addChunk_settled p chunk Hp) as H1.
    destruct (addChunk p chunk) as [p1 out]. cbn [fst] in H1.
    specialize (IH p1 H1).
    destruct (feed p1 rest) as [[p2 t] c]. exact IH. }
  apply H. unfold settled. cbn. split; [lia|reflexivity].
Qed.

(** *** The text comes from the response *)

Lemma drain_sublist p : fst (drain p) `sublist_of` pending p.
Proof.
  induction p as [p IH] using (round_ind JSON_parse).
  rewrite drain_round.
  destruct (nextRound p) as [p' e|p' e call] eqn:R.
  - clear IH. cbn [fst]. destruct p as [b inb tb]. unfold pending.
    cbn [inToolBlock buffer toolBuffer].
    destruct (decide (b = [])) as [->|Hb].
    { rewrite nextRound_empty in R. injection R as <- <-.
      cbn [buffer app]. apply sublist_nil_l. }
    rewrite nextRound_nonempty in R by assumption.
    destruct inb.
    + destruct (find (lit "</tool>") (tb ++ b)); [discriminate|].
      injection R as <- <-. apply sublist_nil_l.
    + destruct (find (lit "<tool>") b); [discriminate|].
      destruct (6 <? length b)%nat; injection R as <- <-; cbn [buffer].
      * rewrite take_drop. reflexivity.
      * reflexivity.
  - specialize (IH _ _ _ eq_refl).
    destruct (drain p') as [t c]. cbn [fst] in *.
    destruct p as [b inb tb]. unfold pending in *.
    cbn [inToolBlock buffer toolBuffer].
    destruct (decide (b = [])) as [->|Hb];
      [rewrite nextRound_empty in R; discriminate|].
    rewrite nextRound_nonempty in R by assumption.
    destruct inb.
    + destruct (find (lit "</tool>") (tb ++ b)) as [j|]; [|discriminate].
      injection R as <- <- _. cbn [inToolBlock buffer app] in *.
      etransitivity; [exact IH|]. apply sublist_drop.
    + destruct (find (lit "<tool>") b) as [i|].
      * injection R as <- <- _. cbn [inToolBlock buffer toolBuffer app] in *.
        rewrite <- (take_drop i b) at 2.
        apply sublist_app; [reflexivity|].
        etransitivity; [exact IH|].
        rewrite <- (drop_drop b 6 i). apply sublist_drop.
      * destruct (6 <? length b)%nat; discriminate.
Qed.

(** X5. The extractor invents no text and keeps the order: the text it
    returns for a response, cut in any way, is made of characters of the
    response in their order (a subsequence of it). *)
Theorem text_from_response (chunks : list str) :
  fst (extract chunks) `sublist_of` concat chunks.
Proof.
  rewrite extract_outside.
  exact (drain_sublist
           {| buffer := concat chunks; inToolBlock := false;
              toolBuffer := [] |}).
Qed.

(** *** What [parseToolContent] returns *)

Lemma terminator_is_space c : isLineTerminator c = true -> isSpace c = true.
Proof.
  unfold isLineTerminator, isSpace.
  destruct c as [|q]; [discriminate|].
  do 14 (destruct q as [q|q|]; try discriminate; try reflexivity).
Qed.

Lemma dotRun_plain s : Forall (fun c => isLineTerminator c = false) (dotRun s).
Proof.
  induction s as [|c s IH]; simpl; [constructor|].
  destruct (isLineTerminator c) eqn:E; constructor; assumption.
Qed.

Lemma nameGroup_shape s r :
  nameGroup s = Some r ->
  r <> [] /\ Forall (fun c => isLineTerminator c = false) r.
Proof.
  unfold nameGroup. pose proof (dotRun_plain s) as H.
  destruct (dotRun s) as [|c r0] eqn:E; [discriminate|].
  destruct (drop (length (c :: r0)) s) as [|d rest].
  - intros [= <-]. split; [discriminate|exact H].
  - destruct (N.eqb d 10); [|discriminate].
    intros [= <-]. split; [discriminate|exact H].
Qed.

Lemma nameAfterSpaces_shape s r :
  nameAfterSpaces s = Some r ->
  r <> [] /\ Forall (fun c => isLineTerminator c = false) r.
Proof.
  induction s as [|c s IH]; cbn [nameAfterSpaces].
  - apply nameGroup_shape.
  - destruct (isSpace c); [|apply nameGroup_shape].
    destruct (nameAfterSpaces s) as [g|].
    + intros [= <-]. apply IH. reflexivity.
    + apply nameGroup_shape.
Qed.

Lemma matchName_shape s r :
  matchName s = Some r ->
  r <> [] /\ Forall (fun c => isLineTerminator c = false) r.
Proof.
  induction s as [|c s IH].
  - cbn. discriminate.
  - rewrite matchName_cons.
    destruct (startsWith (lit "name:") (c :: s)).
    + destruct (nameAfterSpaces (drop 5 (c :: s))) as [g|] eqn:E.
      * intros [= <-]. exact (nameAfterSpaces_shape _ _ E).
      * exact IH.
    + exact IH.
Qed.

(** [trimStart] removes a run of white space in front. *)
Lemma trimStart_split s :
  exists k, s = k ++ trimStart s /\ Forall (fun c => isSpace c = true) k.
Proof.
  induction s as [|c s (k & Hk & Hs)]; [exists []; split; [reflexivity|constructor]|].
  simpl. destruct (isSpace c) eqn:E.
  - exists (c :: k). split; [simpl; f_equal; exact Hk|constructor; assumption].
  - exists []. split; [reflexivity|constructor].
Qed.

Lemma trimStart_head s c : head (trimStart s) = Some c -> isSpace c = false.
Proof.
  induction s as [|d s IH]; simpl; [discriminate|].
  destruct (isSpace d) eqn:E; [exact IH|].
  simpl. intros [= <-]. exact E.
Qed.

Lemma trimStart_id s :
  (forall c, head s = Some c -> isSpace c = false) -> trimStart s = s.
Proof.
  destruct s as [|d s]; [reflexivity|]. intros H. simpl.
  rewrite (H d eq_refl). reflexivity.
Qed.

Lemma head_rev {A : Type} (l : list A) : head (rev l) = last l.
Proof. rewrite rev_alt. apply head_reverse. Qed.

Lemma Forall_of_sublist {A : Type} (P : A -> Prop) (l1 l2 : list A) :
  l1 `sublist_of` l2 -> Forall P l2 -> Forall P l1.
Proof.
  induction 1 as [|x l1 l2 _ IH|x l1 l2 _ IH]; intros H.
  - constructor.
  - inversion H; subst. constructor; auto.
  - inversion H; subst. auto.
Qed.

Lemma last_rev {A : Type} (l : list A) : last (rev l) = head l.
Proof. rewrite <- head_rev, rev_involutive. reflexivity. Qed.

Lemma trim_sublist s : trim s `sublist_of` s.
Proof.
  unfold trim.
  destruct (trimStart_split s) as (k1 & H1 & _).
  destruct (trimStart_split (rev (trimStart s))) as (k2 & H2 & _).
  rewrite H1 at 2. apply sublist_inserts_l.
  rewrite <- (rev_involutive (trimStart s)) at 2. rewrite H2 at 2.
  rewrite rev_app_distr. apply sublist_inserts_r. reflexivity.
Qed.

Lemma trim_ends s :
  (forall c, head (trim s) = Some c -> isSpace c = false) /\
  (forall c, last (trim s) = Some c -> isSpace c = false).
Proof.
  unfold trim. split; intros c.
  - rewrite head_rev.
    destruct (trimStart_split (rev (trimStart s))) as (k & Hk & Hsp).
    destruct (trimStart (rev (trimStart s))) as [|d t] eqn:E; [discriminate|].
    intros Hlast.
    assert (Hl : last (rev (trimStart s)) = Some c).
    { rewrite Hk. rewrite last_app. rewrite Hlast. reflexivity. }
    rewrite last_rev in Hl. exact (trimStart_head _ _ Hl).
  - rewrite last_rev. apply trimStart_head.
Qed.

(** X6. The name of a parsed call is a single line without surrounding
    white space: it holds no line terminator, and neither its first nor
    its last character is white space. *)
Theorem parsed_name_shape (content : str) (tc : ToolCall) :
  parseToolContent content = Some tc ->
  Forall (fun c => isLineTerminator c = false) (name tc) /\
  (forall c, head (name tc) = Some c -> isSpace c = false) /\
  (forall c, last (name tc) = Some c -> isSpace c = false).
Proof.
  unfold ToolParser.parseToolContent.
  destruct (matchName content) as [g|] eqn:E; [|discriminate].
  intros [= <-]. cbn [name].
  destruct (matchName_shape _ _ E) as [_ Hplain].
  split; [|apply trim_ends].
  eapply Forall_of_sublist; [apply trim_sublist|exact Hplain].
Qed.

(** *** The documented block format *)

Lemma trim_id s :
  (forall c, head s = Some c -> isSpace c = false) ->
  (forall c, last s = Some c -> isSpace c = false) ->
  trim s = s.
Proof.
  intros Hh Hl. unfold trim. rewrite (trimStart_id s Hh).
  rewrite trimStart_id; [apply rev_involutive|].
  intros c. rewrite head_rev. apply Hl.
Qed.

Lemma startsWith_through pat x c y :
  startsWith pat (x ++ c :: y) = true ->
  (length pat <= length x)%nat \/ In c pat.
Proof.
  revert pat. induction x as [|d x IH]; intros [|p pat]; simpl;
    try (intros _; left; lia).
  - intros H. apply andb_true_iff in H as [H _].
    apply N.eqb_eq in H. right. left. exact H.
  - intros H. apply andb_true_iff in H as [_ H].
    destruct (IH _ H) as [Hlen|Hin]; [left; lia|right; right; exact Hin].
Qed.

Lemma startsWith_elems pat x :
  startsWith pat x = true -> forall d, In d pat -> In d x.
Proof.
  revert x. induction pat as [|p pat IH]; intros [|c x]; simpl;
    try discriminate; try tauto.
  intros H d [<-|Hd]; apply andb_true_iff in H as [Hc H].
  - apply N.eqb_eq in Hc. left. symmetry. exact Hc.
  - right. apply (IH _ H), Hd.
Qed.

(** Before the end of a line without colon, [parameters:] cannot start. *)
Lemma no_parameters_in_line x y :
  Forall (fun c => c <> 58%N) x ->
  startsWith (lit "parameters:") (x ++ 10%N :: y) = false.
Proof.
  intros Hx. apply not_true_iff_false. intros H.
  destruct (startsWith_through _ _ _ _ H) as [Hlen|Hin].
  - rewrite startsWith_app in H by exact Hlen.
    assert (Hc : In 58%N x).
    { apply (startsWith_elems _ _ H). vm_compute. tauto. }
    rewrite Forall_forall in Hx. apply list_elem_of_In in Hc.
    exact (Hx _ Hc eq_refl).
  - vm_compute in Hin. repeat (destruct Hin as [Hin|Hin]; [discriminate|]).
    exact Hin.
Qed.

Lemma matchParameters_cons c s :
  matchParameters (c :: s) =
  match (if startsWith (lit "parameters:") (c :: s)
         then paramsAfterSpaces (drop 11 (c :: s)) else None) with
  | Some g => Some g
  | None => matchParameters s
  end.
Proof. reflexivity. Qed.

Lemma matchParameters_skip pre rest :
  (forall k, (k < length pre)%nat ->
     startsWith (lit "parameters:") (drop k pre ++ rest) = false) ->
  matchParameters (pre ++ rest) = matchParameters rest.
Proof.
  induction pre as [|c pre IH]; intros H; [reflexivity|].
  cbn [app]. rewrite matchParameters_cons.
  pose proof (H 0%nat ltac:(simpl; lia)) as H0. cbn [drop app] in H0.
  rewrite H0. apply IH. intros k Hk.
  apply (H (S k)). simpl. lia.
Qed.

Lemma uptoLastBrace_none t :
  Forall (fun c => c <> 125%N) t -> uptoLastBrace t = None.
Proof.
  induction 1 as [|c t Hc _ IH]; [reflexivity|].
  cbn [uptoLastBrace]. rewrite IH.
  destruct (N.eqb_spec c 125); [contradiction|reflexivity].
Qed.

Lemma uptoLastBrace_last b t :
  Forall (fun c => c <> 125%N) t ->
  uptoLastBrace (b ++ 125%N :: t) = Some (b ++ [125%N]).
Proof.
  intros Ht. induction b as [|c b IH]; cbn [app uptoLastBrace].
  - rewrite (uptoLastBrace_none t Ht). reflexivity.
  - rewrite IH. reflexivity.
Qed.

(** X7. A block in the documented format parses to its name and its
    parameters. For a content made of a line feed, the line
    [name: <name>] (the name not empty, without white space or colon), the
    line [parameters: {<body>}] and a final line feed, [parseToolContent]
    returns the name as written and, for the parameters, what [JSON.parse]
    makes of the text from [{] to [}], or the object [{raw: text}] when
    [JSON.parse] rejects it. *)
Theorem documented_block_parsed (n body : str) :
  n <> [] ->
  Forall (fun c => isSpace c = false /\ c <> 58%N) n ->
  let params := 123%N :: body ++ [125%N] in
  parseToolContent
    ([10%N] ++ lit "name: " ++ n ++ [10%N] ++ lit "parameters: " ++ params
            ++ [10%N]) =
  Some {| name := n;
          parameters :=
            match JSON_parse params with
            | Some v => v
            | None => JObject [(lit "raw", JString params)]
            end |}.
Proof.
  intros Hne Hn. cbv zeta.
  assert (Hsp : Forall (fun c => isSpace c = false) n)
    by (eapply Forall_impl; [exact Hn|]; intros c [H _]; exact H).
  assert (Hcolon : Forall (fun c => c <> 58%N) n)
    by (eapply Forall_impl; [exact Hn|]; intros c [_ H]; exact H).
  set (params := 123%N :: body ++ [125%N]).
  set (tail := lit "parameters: " ++ params ++ [10%N]).
  assert (Hname : matchName ([10%N] ++ lit "name: " ++ n ++ [10%N] ++ tail)
                  = Some n).
  { cbn [app]. rewrite matchName_cons.
    change (startsWith (lit "name:") (10%N :: lit "name: " ++ n ++ 10%N :: tail))
      with false. cbv iota.
    change (lit "name: " ++ n ++ 10%N :: tail)
      with (110%N :: lit "ame: " ++ n ++ 10%N :: tail).
    rewrite matchName_cons.
    change (startsWith (lit "name:") (110%N :: lit "ame: " ++ n ++ 10%N :: tail))
      with true. cbv iota.
    change (drop 5 (110%N :: lit "ame: " ++ n ++ 10%N :: tail))
      with (32%N :: n ++ 10%N :: tail).
    cbn [nameAfterSpaces]. change (isSpace 32%N) with true. cbv iota.
    destruct n as [|c0 n']; [congruence|].
    inversion Hsp as [|? ? Hc0 Hrest]; subst.
    cbn [app nameAfterSpaces]. rewrite Hc0.
    assert (Hrun : forall m, Forall (fun c => isSpace c = false) m ->
              dotRun (m ++ 10%N :: tail) = m).
    { induction 1 as [|d m Hd _ IHm]; [reflexivity|].
      cbn [app dotRun].
      destruct (isLineTerminator d) eqn:E;
        [apply terminator_is_space in E; congruence|].
      rewrite IHm. reflexivity. }
    unfold nameGroup.
    change (c0 :: n' ++ 10%N :: tail) with ((c0 :: n') ++ 10%N :: tail).
    rewrite (Hrun (c0 :: n') Hsp).
    rewrite drop_app_length. reflexivity. }
  assert (Hparams :
    matchParameters ([10%N] ++ lit "name: " ++ n ++ [10%N] ++ tail)
    = Some params).
  { change ([10%N] ++ lit "name: " ++ n ++ [10%N] ++ tail)
      with (lit (String (ascii_of_N 10) "name: ") ++ n ++ [10%N] ++ tail).
    rewrite matchParameters_skip.
    2:{ intros k Hk. change (length (lit (String (ascii_of_N 10) "name: ")))
          with 7%nat in Hk.
        do 7 (destruct k as [|k]; [reflexivity|]). lia. }
    replace (n ++ [10%N] ++ tail) with ((n ++ [10%N]) ++ tail)
      by (rewrite <- app_assoc; reflexivity).
    rewrite matchParameters_skip.
    2:{ intros k Hk. rewrite length_app in Hk. simpl in Hk.
        rewrite drop_app_le by lia.
        rewrite <- app_assoc. cbn [app].
        apply no_parameters_in_line. apply Forall_drop, Hcolon. }
    unfold tail.
    change (lit "parameters: " ++ params ++ [10%N])
      with (112%N :: lit "arameters: " ++ params ++ [10%N]).
    rewrite matchParameters_cons.
    change (startsWith (lit "parameters:")
              (112%N :: lit "arameters: " ++ params ++ [10%N])) with true.
    cbv iota.
    change (drop 11 (112%N :: lit "arameters: " ++ params ++ [10%N]))
      with (32%N :: params ++ [10%N]).
    unfold params. cbn [app paramsAfterSpaces].
    change (isSpace 32%N) with true. change (isSpace 123%N) with false.
    cbv iota. unfold paramsGroup. change (N.eqb 123%N 123%N) with true.
    cbv iota. rewrite <- app_assoc. cbn [app].
    rewrite uptoLastBrace_last by (repeat constructor; discriminate).
    reflexivity. }
  unfold ToolParser.parseToolContent. rewrite Hname, Hparams.
  rewrite (trim_id n).
  2:{ intros c Hc. apply head_Some_elem_of in Hc.
      rewrite Forall_forall in Hsp. apply Hsp, Hc. }
  2:{ intros c Hc. apply last_Some_elem_of in Hc.
      rewrite Forall_forall in Hsp. apply Hsp, Hc. }
  rewrite (trim_id params).
  2:{ intros c [= <-]. reflexivity. }
  2:{ intros c Hc. unfold params in Hc.
      change (123%N :: body ++ [125%N]) with ((123%N :: body) ++ [125%N]) in Hc.
      rewrite last_snoc in Hc. injection Hc as <-. reflexivity. }
  reflexivity.
Qed.

End WithJSON.

(** *** Instances *)

Import Scenarios.

Lemma plain_text_passes_witness :
  indexOf (concat [lit "Hel"; lit "lo"]) (lit "<tool>") = -1 /\
  ToolParser.extract rejectAll [lit "Hel"; lit "lo"] = (lit "Hello", []).
Proof.
  split; [reflexivity|].
  exact (plain_text_passes rejectAll [lit "Hel"; lit "lo"] eq_refl).
Defined.

Lemma block_extracted_witness :
  let tc := {| name := lit "x"; parameters := JObject [] |} in
  ToolParser.parseToolContent rejectAll (lit "name: x") = Some tc /\
  ToolParser.extract rejectAll [lit "Hi <to"; lit "ol>name: x</tool> bye"] =
    (lit "Hi " ++ fst (ToolParser.extract rejectAll [lit " bye"]),
     tc :: snd (ToolParser.extract rejectAll [lit " bye"])).
Proof.
  split; [reflexivity|].
  exact (block_extracted rejectAll
           [lit "Hi <to"; lit "ol>name: x</tool> bye"]
           (lit "Hi ") (lit "name: x") (lit " bye")
           {| name := lit "x"; parameters := JObject [] |}
           eq_refl eq_refl eq_refl eq_refl).
Defined.

Lemma unterminated_block_discarded_witness :
  indexOf (lit "name: x") (lit "</tool>") = -1 /\
  ToolParser.extract rejectAll [lit "Hi <to"; lit "ol>name: x"] =
    (lit "Hi ", []).
Proof.
  split; [reflexivity|].
  exact (unterminated_block_discarded rejectAll
           [lit "Hi <to"; lit "ol>name: x"] (lit "Hi ") (lit "name: x")
           eq_refl eq_refl eq_refl).
Defined.

Lemma parsed_name_shape_witness :
  let tc := {| name := lit "web search"; parameters := JObject [] |} in
  ToolParser.parseToolContent rejectAll (lit "name:   web search  ") =
    Some tc /\
  Forall (fun c => isLineTerminator c = false) (name tc) /\
  (forall c, head (name tc) = Some c -> isSpace c = false) /\
  (forall c, last (name tc) = Some c -> isSpace c = false).
Proof.
  split; [reflexivity|].
  exact (parsed_name_shape rejectAll (lit "name:   web search  ")
           {| name := lit "web search"; parameters := JObject [] |} eq_refl).
Defined.

Lemma documented_block_parsed_witness :
  lit "search" <> [] /\
  Forall (fun c => isSpace c = false /\ c <> 58%N) (lit "search") /\
  ToolParser.parseToolContent rejectAll
    ([10%N] ++ lit "name: search" ++ [10%N] ++ lit "parameters: {}"
       ++ [10%N]) =
    Some {| name := lit "search";
            parameters := JObject [(lit "raw", JString (lit "{}"))] |}.
Proof.
  assert (Hn : lit "search" <> []) by discriminate.
  assert (Hall : Forall (fun c => isSpace c = false /\ c <> 58%N)
                        (lit "search"))
    by (repeat (constructor; [split; [reflexivity | discriminate]|]);
        constructor).
  split; [exact Hn|]. split; [exact Hall|].
  exact (documented_block_parsed rejectAll (lit "search") [] Hn Hall).
Defined.

End ToolParserMore.

(** ** The memory of a session over its life *)

Module MemoryManagerMore.
Import MemoryManager MemoryManagerOps MemoryManagerFacts.

(** X8. The estimate of a text of [n] characters is the ceiling of
    [n / 2.5]: the least whole number of tokens [t] with [2.5 t >= n]. *)
Theorem ceilDiv2_5_is_ceiling (n : Z) :
  0 <= n ->
  2 * n <= 5 * ceilDiv2_5 n /\ 5 * (ceilDiv2_5 n - 1) < 2 * n.
Proof.
  intros H. unfold ceilDiv2_5.
  pose proof (Z.div_mod (2 * n + 4) 5 ltac:(lia)) as Hd.
  pose proof (Z.mod_pos_bound (2 * n + 4) 5 ltac:(lia)) as Hm.
  lia.
Qed.

(** X9. The token estimate is additive over the log and never negative,
    so a longer log never has a smaller estimate. *)
Theorem estimate_additive (l1 l2 : list Message) :
  estimateTokens (l1 ++ l2) = estimateTokens l1 + estimateTokens l2 /\
  0 <= estimateTokens l2 /\
  estimateTokens l1 <= estimateTokens (l1 ++ l2).
Proof.
  pose proof (estimateTokens_app l1 l2) as Ha.
  pose proof (estimateTokens_nonneg l2) as Hn.
  split; [exact Ha|]. split; [exact Hn|]. lia.
Qed.

Section WithCollaborators.

Variable chatCompletion : str -> str -> option (option str).
Variable stringifyParts : list MessageContent -> str.

#[local] Abbreviation generateSummary :=
  (generateSummary chatCompletion stringifyParts).
#[local] Abbreviation compactMemory :=
  (compactMemory chatCompletion stringifyParts).
#[local] Abbreviation saveMessage :=
  (saveMessage chatCompletion stringifyParts).
#[local] Abbreviation saveAll := (saveAll chatCompletion stringifyParts).

Lemma generateSummary_nonempty messages : generateSummary messages <> [].
Proof.
  unfold MemoryManager.generateSummary. cbv zeta.
  destruct (chatCompletion _ _) as [[[|c answer]|]|]; discriminate.
Qed.

Lemma saveAll_snoc (m : t) (sessionId : str) entries role content now later :
  saveAll m sessionId (entries ++ [(role, content, now, later)]) =
  saveMessage (saveAll m sessionId entries) sessionId role content now later.
Proof. unfold MemoryManager.saveAll. rewrite fold_left_app. reflexivity. Qed.

(** *** Sessions do not interfere *)

Lemma compactMemory_other (m : t) (sessionId other : str) (now : Z) :
  other <> sessionId ->
  getMessages (compactMemory m sessionId now) other = getMessages m other /\
  getCompactedMemories (compactMemory m sessionId now) other =
    getCompactedMemories m other.
Proof.
  intros Hne. destruct (Z.ltb_spec (len (getMessages m sessionId)) 15).
  - rewrite compactMemory_idle by assumption. split; reflexivity.
  - rewrite compactMemory_runs by assumption.
    unfold getMessages, getCompactedMemories.
    cbn [messageCache compactedMemories].
    rewrite !lookup_insert_ne by congruence. split; reflexivity.
Qed.

Lemma saveMessage_other (m : t) (sessionId other : str) (role : Role)
    (content : str) (now later : Z) :
  other <> sessionId ->
  getMessages (saveMessage m sessionId role content now later) other =
    getMessages m other /\
  getCompactedMemories (saveMessage m sessionId role content now later) other =
    getCompactedMemories m other.
Proof.
  intros Hne. rewrite saveMessage_due.
  assert (Happ : forall l,
    getMessages {| messageCache := <[sessionId := l]> (messageCache m);
                   compactedMemories := compactedMemories m |} other
    = getMessages m other).
  { intros l. unfold getMessages. cbn [messageCache].
    rewrite lookup_insert_ne by congruence. reflexivity. }
  destruct (compactionDue _).
  - destruct (compactMemory_other
                {| messageCache :=
                     <[sessionId := getMessages m sessionId
                                    ++ [newMessage role content now]]>
                       (messageCache m);
                   compactedMemories := compactedMemories m |}
                sessionId other later Hne) as [-> ->].
    rewrite Happ. split; reflexivity.
  - rewrite Happ. split; reflexivity.
Qed.

(** X11. Appends to one session, with the compactions they start, leave
    the cached messages and the CompactedMemory records of every other
    session as they were. *)
Theorem sessions_isolated (m : t) (sessionId other : str)
    (entries : list (Role * str * Z * Z)) :
  other <> sessionId ->
  getMessages (saveAll m sessionId entries) other = getMessages m other /\
  getCompactedMemories (saveAll m sessionId entries) other =
    getCompactedMemories m other.
Proof.
  intros Hne.
  induction entries as [|[[[role content] now] later] entries [IH1 IH2]]
    using rev_ind; [split; reflexivity|].
  rewrite saveAll_snoc.
  destruct (saveMessage_other (saveAll m sessionId entries) sessionId other
              role content now later Hne) as [-> ->].
  split; assumption.
Qed.

(** *** What the cache keeps *)

(** X14. A compaction that runs (15 cached messages or more) leaves
    exactly 11 messages in the cache, the summary message followed by the
    last 10 as they were, adds exactly one record, and is then no longer
    due: a second [compactMemory] changes nothing. *)
Theorem compaction_settles (m : t) (sessionId : str) (now later : Z) :
  15 <= len (getMessages m sessionId) ->
  let before := getMessages m sessionId in
  let after := compactMemory m sessionId now in
  length (getMessages after sessionId) = 11%nat /\
  tail (getMessages after sessionId) = drop (length before - 10) before /\
  length (getCompactedMemories after sessionId) =
    S (length (getCompactedMemories m sessionId)) /\
  shouldCompact after sessionId = false /\
  compactMemory after sessionId later = after.
Proof.
  intros Hlen. cbv zeta. unfold len in Hlen.
  rewrite compactMemory_runs by (unfold len; lia).
  rewrite getMessages_inserted, getCompactedMemories_inserted.
  assert (Hl : length (drop (length (getMessages m sessionId) - 10)
                            (getMessages m sessionId)) = 10%nat)
    by (rewrite length_drop; lia).
  split; [simpl; rewrite Hl; reflexivity|].
  split; [reflexivity|].
  split; [rewrite length_app; simpl; lia|].
  split.
  - rewrite shouldCompact_due, getMessages_inserted.
    apply compactionDue_small. unfold len. simpl length. rewrite Hl. lia.
  - apply compactMemory_idle. rewrite getMessages_inserted.
    unfold len. simpl length. rewrite Hl. lia.
Qed.

(** *** Clearing a session *)

End WithCollaborators.

(** *** Reading through the cache *)

(** X16. Once [getActiveMessages] has returned the messages of a
    session from the cache or from a successful fetch, they are cached:
    [getMessages] returns them, and a further [getActiveMessages] returns
    them without regard to the backend and leaves the manager as it is. *)
Theorem active_messages_cached (fetch fetch' : str -> option (list Message))
    (m : t) (sessionId : str) :
  is_Some (messageCache m !! sessionId) \/ is_Some (fetch sessionId) ->
  let '(m1, messages) := getActiveMessages fetch m sessionId in
  getMessages m1 sessionId = messages /\
  getActiveMessages fetch' m1 sessionId = (m1, messages).
Proof.
  intros H. unfold getActiveMessages.
  destruct (messageCache m !! sessionId) as [l|] eqn:E.
  - unfold getMessages. rewrite E. split; reflexivity.
  - destruct H as [[? H]|[l H]]; [discriminate|]. rewrite H.
    unfold getMessages, setMessages. cbn [messageCache].
    rewrite lookup_insert_eq. split; reflexivity.
Qed.

(** *** Instances *)

Import Scenarios.

Lemma ceilDiv2_5_is_ceiling_witness :
  0 <= 7 /\ 2 * 7 <= 5 * ceilDiv2_5 7 /\ 5 * (ceilDiv2_5 7 - 1) < 2 * 7.
Proof.
  split; [lia|]. apply (ceilDiv2_5_is_ceiling 7). lia.
Defined.

Lemma sessions_isolated_witness :
  let other := lit "session-2" in
  let m := saveAll summarizerUp noParts create other (shortEntries 3) in
  other <> session /\
  getMessages (saveAll summarizerUp noParts m session (shortEntries 21))
    other = getMessages m other /\
  getCompactedMemories
    (saveAll summarizerUp noParts m session (shortEntries 21)) other =
    getCompactedMemories m other.
Proof.
  cbv zeta.
  assert (Hne : lit "session-2" <> session)
    by (intros H; vm_compute in H; discriminate H).
  split; [exact Hne|].
  exact (sessions_isolated summarizerUp noParts
           (saveAll summarizerUp noParts create (lit "session-2")
              (shortEntries 3))
           session (lit "session-2") (shortEntries 21) Hne).
Defined.

Lemma compaction_settles_witness :
  let m := {| messageCache :=
                {[ session := map entryMessage (shortEntries 16) ]};
              compactedMemories := ∅ |} in
  let after := compactMemory summarizerUp noParts m session 17 in
  15 <= len (getMessages m session) /\
  length (getMessages after session) = 11%nat /\
  compactMemory summarizerUp noParts after session 18 = after.
Proof.
  cbv zeta.
  assert (Hlen : 15 <= len (getMessages
            {| messageCache :=
                 {[ session := map entryMessage (shortEntries 16) ]};
               compactedMemories := ∅ |} session))
    by (vm_compute; discriminate).
  split; [exact Hlen|].
  pose proof (compaction_settles summarizerUp noParts
                {| messageCache :=
                     {[ session := map entryMessage (shortEntries 16) ]};
                   compactedMemories := ∅ |} session 17 18 Hlen) as H.
  cbv zeta in H. split; [exact (proj1 H)|].
  exact (proj2 (proj2 (proj2 (proj2 H)))).
Defined.

Lemma active_messages_cached_witness :
  let backend := fun _ : str => Some (map entryMessage (shortEntries 2)) in
  let offline := fun _ : str => @None (list Message) in
  is_Some (backend session) /\
  let '(m1, messages) := getActiveMessages backend create session in
  getMessages m1 session = messages /\
  getActiveMessages offline m1 session = (m1, messages).
Proof.
  cbv zeta.
  assert (Hsome : is_Some (Some (map entryMessage (shortEntries 2))))
    by (eexists; reflexivity).
  split; [exact Hsome|].
  exact (active_messages_cached
           (fun _ : str => Some (map entryMessage (shortEntries 2)))
           (fun _ : str => @None (list Message)) create session
           (or_intror Hsome)).
Defined.

End MemoryManagerMore.

(** ** The memory store under every schedule *)

Module MemoryScheduleMore.
Import MemoryManager MemoryManagerOps MemorySchedule MemoryManagerFacts.

Lemma begin_runs (m : t) (sessionId : str) :
  let messages := getMessages m sessionId in
  15 <= len messages ->
  begin m sessionId =
    Some {| session := sessionId;
            toCompact := take (length messages - 10) messages;
            toKeep := drop (length messages - 10) messages |}.
Proof.
  cbv zeta. intros Hlen. unfold begin.
  set (messages := getMessages m sessionId) in *.
  unfold COMPACT_THRESHOLD, KEEP_RECENT.
  rewrite (proj2 (Z.ltb_ge _ _)) by lia.
  unfold len in Hlen.
  pose proof (slice_prefix_back messages 10 ltac:(lia)) as S1.
  pose proof (slice_suffix_back messages 10 ltac:(lia)) as S2.
  change (Z.of_nat 10) with 10 in S1, S2.
  rewrite S1, S2.
  assert ((len (take (length messages - 10) messages) =? 0) = false) as ->.
  { apply Z.eqb_neq. unfold len. rewrite length_take. lia. }
  reflexivity.
Qed.

Lemma begin_idle (m : t) (sessionId : str) :
  len (getMessages m sessionId) < 15 -> begin m sessionId = None.
Proof.
  intros H. unfold begin, COMPACT_THRESHOLD.
  rewrite (proj2 (Z.ltb_lt _ _)) by lia. reflexivity.
Qed.

(** What a suspended compaction holds. *)
Lemma begin_shape (m : t) (sessionId : str) (c : Compaction) :
  begin m sessionId = Some c ->
  session c = sessionId /\
  5 <= len (toCompact c) /\
  length (toKeep c) = 10%nat.
Proof.
  destruct (Z.lt_ge_cases (len (getMessages m sessionId)) 15) as [H|H].
  - rewrite begin_idle by exact H. discriminate.
  - rewrite begin_runs by exact H. intros [= <-]. cbn [session toCompact toKeep].
    unfold len in *. rewrite length_take, length_drop. repeat split; lia.
Qed.

(** [begin] reads the cached messages of its session only. *)
Lemma begin_local (m1 m2 : t) (sessionId : str) :
  getMessages m1 sessionId = getMessages m2 sessionId ->
  begin m1 sessionId = begin m2 sessionId.
Proof. intros H. unfold begin. rewrite H. reflexivity. Qed.

Lemma getMessages_push (m : t) (sessionId other : str) (message : Message) :
  getMessages (push m sessionId message) other =
  if decide (other = sessionId) then getMessages m sessionId ++ [message]
  else getMessages m other.
Proof.
  unfold push. destruct (decide (other = sessionId)) as [->|Hne].
  - apply getMessages_inserted.
  - unfold getMessages. cbn [messageCache].
    rewrite lookup_insert_ne by congruence. reflexivity.
Qed.

Lemma getCompactedMemories_push (m : t) (sessionId other : str)
    (message : Message) :
  getCompactedMemories (push m sessionId message) other =
  getCompactedMemories m other.
Proof. reflexivity. Qed.

Lemma getMessages_clear (m : t) (sessionId other : str) :
  getMessages (clearMessages m sessionId) other =
  if decide (other = sessionId) then [] else getMessages m other.
Proof.
  unfold getMessages, clearMessages. cbn [messageCache].
  destruct (decide (other = sessionId)) as [->|Hne].
  - rewrite lookup_delete_eq. reflexivity.
  - rewrite lookup_delete_ne by congruence. reflexivity.
Qed.

Lemma getCompactedMemories_clear (m : t) (sessionId other : str) :
  getCompactedMemories (clearMessages m sessionId) other =
  if decide (other = sessionId) then [] else getCompactedMemories m other.
Proof.
  unfold getCompactedMemories, clearMessages. cbn [compactedMemories].
  destruct (decide (other = sessionId)) as [->|Hne].
  - rewrite lookup_delete_eq. reflexivity.
  - rewrite lookup_delete_ne by congruence. reflexivity.
Qed.

Section WithCollaborators.

Variable chatCompletion : str -> str -> option (option str).
Variable stringifyParts : list MessageContent -> str.

#[local] Abbreviation generateSummary :=
  (generateSummary chatCompletion stringifyParts).
#[local] Abbreviation compactMemory :=
  (compactMemory chatCompletion stringifyParts).
#[local] Abbreviation saveMessage :=
  (saveMessage chatCompletion stringifyParts).
#[local] Abbreviation finish := (finish chatCompletion stringifyParts).
#[local] Abbreviation step := (step chatCompletion stringifyParts).
#[local] Abbreviation run := (run chatCompletion stringifyParts).

Lemma getMessages_finish (m : t) (c : Compaction) (now : Z) (other : str) :
  getMessages (finish m c now) other =
  if decide (other = session c)
  then {| role := system;
          content := Str (lit "[Memory Summary]" ++ [10%N]
                          ++ generateSummary (toCompact c));
          timestamp := Some now |} :: toKeep c
  else getMessages m other.
Proof.
  unfold MemorySchedule.finish. destruct (decide (other = session c)) as [->|Hne].
  - apply getMessages_inserted.
  - unfold getMessages. cbn [messageCache].
    rewrite lookup_insert_ne by congruence. reflexivity.
Qed.

Lemma getCompactedMemories_finish (m : t) (c : Compaction) (now : Z)
    (other : str) :
  getCompactedMemories (finish m c now) other =
  if decide (other = session c)
  then getCompactedMemories m (session c) ++
       [{| summary := generateSummary (toCompact c); fromId := 0;
           toId := len (toCompact c); messageCount := len (toCompact c) |}]
  else getCompactedMemories m other.
Proof.
  unfold MemorySchedule.finish. destruct (decide (other = session c)) as [->|Hne].
  - apply getCompactedMemories_inserted.
  - unfold getCompactedMemories. cbn [compactedMemories].
    rewrite lookup_insert_ne by congruence. reflexivity.
Qed.

Lemma run_cons (st : State) (e : Event) (schedule : list Event) :
  run st (e :: schedule) = run (step st e) schedule.
Proof. reflexivity. Qed.

Lemma run_app (st : State) (first second : list Event) :
  run st (first ++ second) = run (run st first) second.
Proof. apply fold_left_app. Qed.

(** [compactMemory] is its two halves run one after the other. *)
Lemma compactMemory_halves (m : t) (sessionId : str) (now : Z) :
  compactMemory m sessionId now =
  match begin m sessionId with
  | Some c => finish m c now
  | None => m
  end.
Proof.
  unfold MemoryManager.compactMemory, begin.
  destruct (len (getMessages m sessionId) <? COMPACT_THRESHOLD);
    [reflexivity|].
  cbv zeta. destruct (len _ =? 0); reflexivity.
Qed.

(** When the compaction started by an append completes before anything
    else runs, the manager is the one [saveMessage] describes. *)
Lemma saveMessage_settled (m : t) (sessionId : str) (role : Role)
    (content : str) (now later : Z) :
  manager (run (idle m)
             [Saved sessionId role content now; Resumed;
              Summarized 0 later]) =
  saveMessage m sessionId role content now later.
Proof.
  unfold MemorySchedule.run, idle, MemoryManager.saveMessage.
  cbn [fold_left MemorySchedule.step manager due running].
  fold (push m sessionId (newMessage role content now)).
  set (m1 := push m sessionId (newMessage role content now)).
  destruct (shouldCompact m1 sessionId).
  - cbn [app manager due running]. rewrite compactMemory_halves.
    destruct (begin m1 sessionId) as [c|]; reflexivity.
  - reflexivity.
Qed.

(** *** What every schedule keeps *)

Lemma step_sound (st : State) (e : Event) : sound st -> sound (step st e).
Proof.
  unfold sound. intros H. destruct e as [s role content now| |i now|s];
    cbn [MemorySchedule.step].
  - exact H.
  - destruct (due st) as [|s rest]; [exact H|]. cbn [running].
    destruct (begin (manager st) s) as [c|] eqn:E; [|exact H].
    apply Forall_app_2; [exact H|].
    constructor; [|constructor].
    destruct (begin_shape _ _ _ E) as (_ & H1 & H2). split; assumption.
  - destruct (running st !! i) as [c|]; [|exact H]. cbn [running].
    apply Forall_delete, H.
  - exact H.
Qed.

Lemma run_sound (schedule : list Event) : forall st,
  sound st -> sound (run st schedule).
Proof.
  induction schedule as [|e schedule IH]; intros st H; [exact H|].
  rewrite run_cons. apply IH, step_sound, H.
Qed.

Lemma step_bounded (st : State) (e : Event) :
  sound st -> bounded st -> bounded (step st e).
Proof.
  unfold bounded, compacting. intros Hsound H sessionId.
  destruct e as [s role content now| |i now|s]; cbn [MemorySchedule.step].
  - cbn [manager due running]. rewrite getMessages_push.
    destruct (decide (sessionId = s)) as [->|Hne].
    + rewrite shouldCompact_due, getMessages_push, decide_True by reflexivity.
      destruct (compactionDue _) eqn:Hdue.
      * right. left. apply elem_of_app. right. constructor.
      * left. apply not_true_iff_false in Hdue.
        rewrite compactionDue_iff in Hdue. unfold len in Hdue. lia.
    + destruct (H sessionId) as [Hle|[Hd|Hr]]; [left; exact Hle| |].
      * right. left. destruct (shouldCompact _ _); [|exact Hd].
        apply elem_of_app. left. exact Hd.
      * right. right. exact Hr.
  - destruct (due st) as [|s rest] eqn:Hdue; [rewrite Hdue; apply H|].
    cbn [manager due running].
    destruct (decide (sessionId = s)) as [->|Hne].
    + destruct (Z.lt_ge_cases (len (getMessages (manager st) s)) 15)
        as [Hlt|Hge].
      * left. unfold len in Hlt. lia.
      * right. right. rewrite begin_runs by exact Hge.
        rewrite map_app. apply elem_of_app. right. constructor.
    + destruct (H sessionId) as [Hle|[Hd|Hr]]; [left; exact Hle| |].
      * right. left.
        apply elem_of_cons in Hd as [Hd|Hd]; [contradiction|exact Hd].
      * right. right. destruct (begin _ _); [|exact Hr].
        rewrite map_app. apply elem_of_app. left. exact Hr.
  - destruct (running st !! i) as [c|] eqn:Hc; [|apply H].
    cbn [manager due running]. rewrite getMessages_finish.
    destruct (decide (sessionId = session c)) as [->|Hne].
    + left. cbn [length].
      unfold sound in Hsound. rewrite Forall_lookup in Hsound.
      destruct (Hsound _ _ Hc) as [_ Hkeep]. rewrite Hkeep. lia.
    + destruct (H sessionId) as [Hle|[Hd|Hr]]; [left; exact Hle| |].
      * right. left. exact Hd.
      * right. right.
        apply list_elem_of_fmap in Hr as (c' & Hs & Hc').
        apply list_elem_of_lookup in Hc' as [j Hj].
        destruct (decide (j = i)) as [->|Hji]; [congruence|].
        apply list_elem_of_fmap. exists c'. split; [exact Hs|].
        destruct (decide (j < i)%nat) as [Hlt|Hge].
        -- apply list_elem_of_lookup. exists j.
           rewrite list_lookup_delete_lt by exact Hlt. exact Hj.
        -- apply list_elem_of_lookup. exists (pred j).
           rewrite list_lookup_delete_ge by lia.
           replace (S (pred j)) with j by lia. exact Hj.
  - cbn [manager due running]. rewrite getMessages_clear.
    destruct (decide (sessionId = s)); [left; cbn; lia|apply H].
Qed.

Lemma run_bounded (schedule : list Event) : forall st,
  sound st -> bounded st -> bounded (run st schedule).
Proof.
  induction schedule as [|e schedule IH]; intros st Hs Hb; [exact Hb|].
  rewrite run_cons. apply IH; [apply step_sound, Hs|apply step_bounded; auto].
Qed.

(** X10. Whatever the order in which appends, clears and the two halves
    of the compactions run on a new manager, the cache of a session holds
    more than 20 messages only while a compaction of that session is
    waiting to start or to complete. *)
Theorem cache_over_limit_only_while_compacting (schedule : list Event)
    (sessionId : str) :
  let st := run (idle create) schedule in
  (length (getMessages (manager st) sessionId) <= 20)%nat \/
  compacting st sessionId.
Proof.
  cbv zeta. apply run_bounded.
  - constructor.
  - intros s. left.
    change (getMessages (manager (idle create)) s) with (@nil Message).
    cbn [length]. lia.
Qed.

Lemma step_recorded (st : State) (e : Event) :
  sound st -> recorded st -> recorded (step st e).
Proof.
  unfold recorded. intros Hsound H sessionId.
  destruct e as [s role content now| |i now|s]; cbn [MemorySchedule.step].
  - apply H.
  - destruct (due st); apply H.
  - destruct (running st !! i) as [c|] eqn:Hc; [|apply H].
    cbn [manager]. rewrite getCompactedMemories_finish.
    destruct (decide (sessionId = session c)); [|apply H].
    apply Forall_app_2; [apply H|].
    constructor; [|constructor]. cbn [fromId toId messageCount summary].
    unfold sound in Hsound. rewrite Forall_lookup in Hsound.
    destruct (Hsound _ _ Hc) as [Hcover _].
    repeat split; try exact Hcover.
    apply (MemoryManagerMore.generateSummary_nonempty
             chatCompletion stringifyParts).
  - cbn [manager]. rewrite getCompactedMemories_clear.
    destruct (decide (sessionId = s)); [constructor|apply H].
Qed.

Lemma run_recorded (schedule : list Event) : forall st,
  sound st -> recorded st -> recorded (run st schedule).
Proof.
  induction schedule as [|e schedule IH]; intros st Hs Hr; [exact Hr|].
  rewrite run_cons. apply IH; [apply step_sound, Hs|apply step_recorded; auto].
Qed.

(** X13. Whatever the order in which appends, clears and the two halves
    of the compactions run on a new manager, every CompactedMemory
    record of every session has [fromId = 0] and [toId = messageCount],
    covers at least 5 messages, and holds a summary text that is not
    empty. *)
Theorem records_well_formed (schedule : list Event) (sessionId : str) :
  Forall (fun r => fromId r = 0 /\ toId r = messageCount r /\
                   5 <= messageCount r /\ summary r <> [])
         (getCompactedMemories (manager (run (idle create) schedule))
            sessionId).
Proof.
  apply run_recorded.
  - constructor.
  - intros s.
    change (getCompactedMemories (manager (idle create)) s)
      with (@nil CompactedMemory).
    constructor.
Qed.

(** *** Appends while a compaction is suspended *)

Lemma step_keeps_running (st : State) (e : Event) :
  completesNone e -> exists more, running (step st e) = running st ++ more.
Proof.
  destruct e as [s role content now| |i now|s]; cbn [MemorySchedule.step];
    intros H.
  - exists []. rewrite app_nil_r. reflexivity.
  - destruct (due st) as [|s rest]; [exists []; rewrite app_nil_r; reflexivity|].
    cbn [running]. destruct (begin _ _) as [c|].
    + exists [c]. reflexivity.
    + exists []. rewrite app_nil_r. reflexivity.
  - contradiction.
  - exists []. rewrite app_nil_r. reflexivity.
Qed.

Lemma run_keeps_running (schedule : list Event) : forall st,
  Forall completesNone schedule ->
  exists more, running (run st schedule) = running st ++ more.
Proof.
  induction schedule as [|e schedule IH]; intros st Hall.
  - exists []. rewrite app_nil_r. reflexivity.
  - apply Forall_cons in Hall as [He Hall]. rewrite run_cons.
    destruct (step_keeps_running st e He) as [more1 H1].
    destruct (IH (step st e) Hall) as [more2 H2].
    exists (more1 ++ more2). rewrite H2, H1, app_assoc. reflexivity.
Qed.

(** X12. What is appended while a compaction is suspended is lost. When
    a compaction of a session starts on 15 cached messages or more, then
    whatever is appended or cleared before its summary arrives, in that
    session or another, the cache of the session afterwards is the
    summary message followed by the 10 messages that were the last ones
    when the compaction started. *)
Theorem saves_during_compaction_lost (st : State) (sessionId : str)
    (rest : list str) (between : list Event) (now : Z) :
  due st = sessionId :: rest ->
  15 <= len (getMessages (manager st) sessionId) ->
  Forall completesNone between ->
  let messages := getMessages (manager st) sessionId in
  let older := take (length messages - 10) messages in
  getMessages
    (manager (run st (Resumed :: between
                        ++ [Summarized (length (running st)) now])))
    sessionId =
  {| role := system;
     content := Str (lit "[Memory Summary]" ++ [10%N]
                     ++ generateSummary older);
     timestamp := Some now |}
  :: drop (length messages - 10) messages.
Proof.
  intros Hdue Hlen Hall. cbv zeta.
  rewrite run_cons, run_app.
  set (st1 := step st Resumed).
  assert (Hst1 : running st1 =
            running st ++
            [{| session := sessionId;
                toCompact :=
                  take (length (getMessages (manager st) sessionId) - 10)
                       (getMessages (manager st) sessionId);
                toKeep :=
                  drop (length (getMessages (manager st) sessionId) - 10)
                       (getMessages (manager st) sessionId) |}]).
  { unfold st1. cbn [MemorySchedule.step]. rewrite Hdue. cbn [running].
    rewrite begin_runs by exact Hlen. reflexivity. }
  destruct (run_keeps_running between st1 Hall) as [more Hmore].
  set (st2 := run st1 between) in *.
  unfold MemorySchedule.run at 1. cbn [fold_left MemorySchedule.step].
  assert (Hc : running st2 !! length (running st) =
               Some {| session := sessionId;
                       toCompact :=
                         take (length (getMessages (manager st) sessionId)
                               - 10)
                              (getMessages (manager st) sessionId);
                       toKeep :=
                         drop (length (getMessages (manager st) sessionId)
                               - 10)
                              (getMessages (manager st) sessionId) |}).
  { rewrite Hmore, Hst1, <- app_assoc.
    rewrite lookup_app_r by lia.
    replace (length (running st) - length (running st))%nat with 0%nat by lia.
    reflexivity. }
  rewrite Hc. cbn [manager]. rewrite getMessages_finish.
  cbn [session toCompact toKeep]. rewrite decide_True by reflexivity.
  reflexivity.
Qed.

(** *** Clearing a session *)

Lemma step_alike (sessionId : str) (st1 st2 : State) (e : Event) :
  concerns sessionId e ->
  alike sessionId st1 st2 -> alike sessionId (step st1 e) (step st2 e).
Proof.
  unfold alike. destruct st1 as [m1 d1 r1], st2 as [m2 d2 r2].
  cbn [manager due running].
  intros He (<- & <- & Hm & Hc & Hds & Hrs).
  destruct e as [s role content now| |i now|s];
    cbn [MemorySchedule.step manager due running].
  - cbn in He. subst s. cbn [manager due running].
    rewrite !shouldCompact_due, !getMessages_push, !decide_True by reflexivity.
    rewrite !getCompactedMemories_push, Hm.
    split; [reflexivity|]. split; [reflexivity|].
    split; [reflexivity|]. split; [exact Hc|]. split; [|exact Hrs].
    destruct (compactionDue _); [|exact Hds].
    apply Forall_app_2; [exact Hds|].
    constructor; [reflexivity|constructor].
  - destruct d1 as [|s rest]; cbn [manager due running].
    + repeat split; assumption.
    + apply Forall_cons in Hds as [-> Hds].
      rewrite (begin_local m1 m2 sessionId Hm).
      split; [reflexivity|]. split; [reflexivity|].
      split; [exact Hm|]. split; [exact Hc|]. split; [exact Hds|].
      destruct (begin m2 sessionId) as [c|] eqn:E; [|exact Hrs].
      apply Forall_app_2; [exact Hrs|].
      constructor; [|constructor]. apply (begin_shape _ _ _ E).
  - destruct (r1 !! i) as [c|] eqn:Hi; cbn [manager due running].
    + rewrite Forall_lookup in Hrs. pose proof (Hrs _ _ Hi) as Hs.
      rewrite !getMessages_finish, !getCompactedMemories_finish, Hs.
      rewrite !decide_True by reflexivity. rewrite Hc.
      split; [reflexivity|]. split; [reflexivity|].
      split; [reflexivity|]. split; [reflexivity|]. split; [exact Hds|].
      apply Forall_delete. rewrite Forall_lookup. exact Hrs.
    + repeat split; assumption.
  - cbn in He. subst s.
    rewrite !getMessages_clear, !getCompactedMemories_clear.
    rewrite !decide_True by reflexivity.
    repeat split; assumption.
Qed.

Lemma run_alike (sessionId : str) (schedule : list Event) : forall st1 st2,
  Forall (concerns sessionId) schedule ->
  alike sessionId st1 st2 ->
  alike sessionId (run st1 schedule) (run st2 schedule).
Proof.
  induction schedule as [|e schedule IH]; intros st1 st2 Hall H; [exact H|].
  apply Forall_cons in Hall as [He Hall]. rewrite !run_cons.
  apply IH; [exact Hall|]. apply step_alike; assumption.
Qed.

(** X15. [clearMessages] on a manager with no call in flight resets the
    session: whatever calls on that session follow, and in whatever order
    their steps run, its cached messages and its records are those that
    the same steps give on a new manager. *)
Theorem clear_resets (m : t) (sessionId : str) (schedule : list Event) :
  Forall (concerns sessionId) schedule ->
  getMessages (manager (run (idle m) (Cleared sessionId :: schedule)))
    sessionId =
    getMessages (manager (run (idle create) schedule)) sessionId /\
  getCompactedMemories
    (manager (run (idle m) (Cleared sessionId :: schedule))) sessionId =
    getCompactedMemories (manager (run (idle create) schedule)) sessionId.
Proof.
  intros Hall. rewrite run_cons.
  destruct (run_alike sessionId schedule
              (step (idle m) (Cleared sessionId)) (idle create) Hall)
    as (_ & _ & Hm & Hc & _).
  - unfold alike. cbn [MemorySchedule.step idle manager due running].
    rewrite getMessages_clear, getCompactedMemories_clear.
    rewrite !decide_True by reflexivity.
    repeat split; try reflexivity; constructor.
  - split; assumption.
Qed.

End WithCollaborators.

(** *** Instances *)

Import Scenarios.

Lemma saves_during_compaction_lost_witness :
  let st := MemorySchedule.run summarizerUp noParts (idle create)
              (shortSaves 21) in
  let late := Saved session user (lit "one more") 22 in
  due st = [session] /\
  15 <= len (getMessages (manager st) session) /\
  Forall completesNone [late] /\
  getMessages
    (manager (MemorySchedule.run summarizerUp noParts st
                [Resumed; late; Summarized 0 23]))
    session =
  {| role := system;
     content := Str (lit "[Memory Summary]" ++ [10%N]
                     ++ lit "The user greeted the agent.");
     timestamp := Some 23 |}
  :: drop 11 (map entryMessage (shortEntries 21)).
Proof.
  cbv zeta.
  assert (Hdue : due (MemorySchedule.run summarizerUp noParts (idle create)
                        (shortSaves 21)) = [session])
    by (vm_compute; reflexivity).
  assert (Hlen : 15 <= len (getMessages
                    (manager (MemorySchedule.run summarizerUp noParts
                                (idle create) (shortSaves 21))) session))
    by (vm_compute; discriminate).
  assert (Hall : Forall completesNone
                   [Saved session user (lit "one more") 22])
    by (constructor; [exact I|constructor]).
  split; [exact Hdue|]. split; [exact Hlen|]. split; [exact Hall|].
  exact (saves_during_compaction_lost summarizerUp noParts
           (MemorySchedule.run summarizerUp noParts (idle create)
              (shortSaves 21))
           session [] [Saved session user (lit "one more") 22] 23
           Hdue Hlen Hall).
Defined.

Lemma clear_resets_witness :
  let m := saveAll summarizerUp noParts create session (shortEntries 3) in
  Forall (concerns session) (shortSaves 2) /\
  getMessages
    (manager (MemorySchedule.run summarizerUp noParts (idle m)
                (Cleared session :: shortSaves 2))) session =
    getMessages
      (manager (MemorySchedule.run summarizerUp noParts (idle create)
                  (shortSaves 2))) session /\
  getCompactedMemories
    (manager (MemorySchedule.run summarizerUp noParts (idle m)
                (Cleared session :: shortSaves 2))) session =
    getCompactedMemories
      (manager (MemorySchedule.run summarizerUp noParts (idle create)
                  (shortSaves 2))) session.
Proof.
  cbv zeta.
  assert (Hall : Forall (concerns session) (shortSaves 2))
    by (constructor; [reflexivity|constructor; [reflexivity|constructor]]).
  split; [exact Hall|].
  exact (clear_resets summarizerUp noParts
           (saveAll summarizerUp noParts create session (shortEntries 3))
           session (shortSaves 2) Hall).
Defined.

End MemoryScheduleMore.

(** ** Tool calls and runs of the agent *)

Module SupervisorAgentMore.
Import SupervisorAgent TraceViews SupervisorAgentFacts.

Section WithStringify.

Variable JSON_stringify : JSON -> str.
Variable JSON_stringify2 : JSON -> str.

#[local] Abbreviation dedupKey := (dedupKey JSON_stringify).
#[local] Abbreviation dedupLoop := (dedupLoop JSON_stringify).
#[local] Abbreviation deduplicateToolCalls :=
  (deduplicateToolCalls JSON_stringify).
#[local] Abbreviation runTools := (runTools JSON_stringify JSON_stringify2).

(** *** Deduplication keeps the first occurrences, in order *)

Lemma dedupLoop_unique toolCalls : forall seen unique,
  dedupLoop toolCalls seen unique = unique ++ dedupLoop toolCalls seen [].
Proof.
  induction toolCalls as [|tc rest IH]; intros seen unique;
    cbn [SupervisorAgent.dedupLoop].
  - rewrite app_nil_r. reflexivity.
  - destruct (decide (dedupKey tc ∈ seen)); [apply IH|].
    rewrite IH, (IH _ ([] ++ [tc])). rewrite <- app_assoc. reflexivity.
Qed.

Lemma dedupLoop_filter toolCalls : forall (s1 s2 : gset str),
  dedupLoop toolCalls (s1 ∪ s2) [] =
  dedupLoop (filter (fun c => dedupKey c ∉ s1) toolCalls) s2 [].
Proof.
  induction toolCalls as [|tc rest IH]; intros s1 s2; [reflexivity|].
  cbn [SupervisorAgent.dedupLoop].
  destruct (decide (dedupKey tc ∈ s1)) as [H1|H1].
  - rewrite filter_cons_False by (intros H; exact (H H1)).
    destruct (decide (dedupKey tc ∈ s1 ∪ s2)) as [_|H]; [apply IH|].
    exfalso. apply H. apply elem_of_union. left. exact H1.
  - rewrite filter_cons_True by exact H1.
    cbn [SupervisorAgent.dedupLoop].
    destruct (decide (dedupKey tc ∈ s2)) as [H2|H2].
    + destruct (decide (dedupKey tc ∈ s1 ∪ s2)) as [_|H]; [apply IH|].
      exfalso. apply H. apply elem_of_union. right. exact H2.
    + destruct (decide (dedupKey tc ∈ s1 ∪ s2)) as [H|_].
      { apply elem_of_union in H as [H|H]; contradiction. }
      rewrite dedupLoop_unique, (dedupLoop_unique _ _ ([] ++ [tc])).
      f_equal.
      replace ({[dedupKey tc]} ∪ (s1 ∪ s2))
        with (s1 ∪ ({[dedupKey tc]} ∪ s2)); [apply IH|].
      rewrite !(assoc_L (∪)). f_equal. apply (comm_L (∪)).
Qed.

(** X17. First occurrence wins. The first call always survives, and the
    rest of the result is the deduplication of the later calls whose key
    differs from its key. *)
Theorem dedup_first_wins (tc : ToolCall) (toolCalls : list ToolCall) :
  deduplicateToolCalls (tc :: toolCalls) =
  tc :: deduplicateToolCalls
          (filter (fun c => dedupKey c <> dedupKey tc) toolCalls).
Proof.
  unfold SupervisorAgent.deduplicateToolCalls.
  cbn [SupervisorAgent.dedupLoop].
  destruct (decide (dedupKey tc ∈ (∅ : gset str))) as [H|_];
    [set_solver|].
  rewrite dedupLoop_unique. cbn [app]. f_equal.
  rewrite dedupLoop_filter. f_equal.
  apply list_filter_iff. intros c. set_solver.
Qed.

Lemma dedupLoop_sublist toolCalls : forall seen,
  dedupLoop toolCalls seen [] `sublist_of` toolCalls.
Proof.
  induction toolCalls as [|tc rest IH]; intros seen;
    cbn [SupervisorAgent.dedupLoop]; [reflexivity|].
  destruct (decide (dedupKey tc ∈ seen)).
  - apply sublist_cons. apply IH.
  - rewrite dedupLoop_unique. cbn [app]. apply sublist_skip. apply IH.
Qed.

Lemma dedupLoop_distinct toolCalls : forall (seen : gset str),
  NoDup (map dedupKey toolCalls) ->
  (forall c, c ∈ toolCalls -> dedupKey c ∉ seen) ->
  dedupLoop toolCalls seen [] = toolCalls.
Proof.
  induction toolCalls as [|tc rest IH]; intros seen Hnd Hseen; [reflexivity|].
  cbn [SupervisorAgent.dedupLoop]. simpl in Hnd.
  apply NoDup_cons in Hnd as [Hfresh Hnd].
  destruct (decide (dedupKey tc ∈ seen)) as [H|_].
  - exfalso. exact (Hseen tc ltac:(constructor) H).
  - rewrite dedupLoop_unique. cbn [app]. f_equal.
    apply IH; [exact Hnd|].
    intros c Hc Hin. apply elem_of_union in Hin as [Hin|Hin].
    + apply elem_of_singleton in Hin. apply Hfresh. rewrite <- Hin.
      apply list_elem_of_In, in_map, list_elem_of_In, Hc.
    + apply (Hseen c); [constructor; exact Hc|exact Hin].
Qed.

(** X18. Deduplication only removes calls: the result is a subsequence
    of the calls parsed, a list without repeated key is returned as it is,
    and deduplicating twice changes nothing more. *)
Theorem dedup_only_removes (toolCalls : list ToolCall) :
  deduplicateToolCalls toolCalls `sublist_of` toolCalls /\
  (NoDup (map dedupKey toolCalls) ->
   deduplicateToolCalls toolCalls = toolCalls) /\
  deduplicateToolCalls (deduplicateToolCalls toolCalls) =
    deduplicateToolCalls toolCalls.
Proof.
  assert (Hid : forall l, NoDup (map dedupKey l) ->
                  deduplicateToolCalls l = l).
  { intros l Hl. apply dedupLoop_distinct; [exact Hl|].
    intros c _. apply not_elem_of_empty. }
  split; [apply dedupLoop_sublist|]. split; [apply Hid|].
  apply Hid. apply deduplicateToolCalls_spec.
Qed.

(** *** The tool phase *)

Lemma firstRejection_some (w : World) (l : list ToolCall) message :
  firstRejection (map (executeTool w) l) = Some message ->
  exists c, c ∈ l /\ executeTool w c = inr message.
Proof.
  induction l as [|c l IH]; [discriminate|]. simpl.
  destruct (executeTool w c) as [v|e] eqn:E.
  - intros H. destruct (IH H) as (c' & Hc' & Hr).
    exists c'. split; [constructor; exact Hc'|exact Hr].
  - intros [= <-]. exists c. split; [constructor|exact E].
Qed.

Lemma firstRejection_none (w : World) (l : list ToolCall) :
  firstRejection (map (executeTool w) l) = None ->
  forall c, c ∈ l -> exists v, executeTool w c = inl v.
Proof.
  induction l as [|c l IH]; intros H c' Hc'; [inversion Hc'|].
  simpl in H. destruct (executeTool w c) as [v|e] eqn:E; [|discriminate].
  apply elem_of_cons in Hc' as [->|Hc']; [eauto|apply IH; assumption].
Qed.

Lemma emitted_app t1 t2 : emitted (t1 ++ t2) = emitted t1 ++ emitted t2.
Proof. apply omap_app. Qed.

Lemma emitted_started l : emitted (map Execute l) = [].
Proof. induction l as [|c l IH]; simpl; [|rewrite IH]; reflexivity. Qed.

Lemma emitted_results (w : World) l :
  (forall c, c ∈ l -> exists v, executeTool w c = inl v) ->
  emitted
    (flat_map
       (fun '(tc, result) =>
          match result with
          | inl value =>
              [Save MemoryManager.system
                 (resultText JSON_stringify2 tc value);
               Emit (ToolResultEvent tc value)]
          | inr _ => []
          end)
       (zip l (map (executeTool w) l))) =
  map (fun tc => ToolResultEvent tc (returned w tc)) l.
Proof.
  induction l as [|c l IH]; intros Hret; [reflexivity|].
  destruct (Hret c ltac:(constructor)) as [v Hv].
  cbn [map zip zip_with flat_map]. rewrite emitted_app, IH.
  - unfold returned at 2. rewrite Hv. reflexivity.
  - intros c' Hc'. apply Hret. constructor. exact Hc'.
Qed.

Lemma tools_shape (w : World) (toolCalls : list ToolCall) :
  let '(trace, thrown) := runTools w toolCalls in
  executed trace = deduplicateToolCalls toolCalls /\
  match thrown with
  | Some message =>
      emitted trace = [] /\
      exists c, c ∈ deduplicateToolCalls toolCalls /\
                executeTool w c = inr message
  | None =>
      emitted trace =
        map (fun tc => ToolResultEvent tc (returned w tc))
            (deduplicateToolCalls toolCalls)
  end.
Proof.
  unfold SupervisorAgent.runTools.
  fold (deduplicateToolCalls toolCalls).
  destruct (firstRejection _) as [message|] eqn:E.
  - split; [apply executed_started|].
    split; [apply emitted_started|]. apply firstRejection_some, E.
  - pose proof (firstRejection_none _ _ E) as Hret.
    destruct (results_of_returned JSON_stringify2 w _ Hret) as [_ Hrep].
    match goal with
    | |- context [flat_map ?g _] => destruct (Hrep g) as [Hex _]
    end.
    { intros tc0 v. reflexivity. }
    rewrite executed_app, executed_started, Hex, app_nil_r.
    split; [reflexivity|].
    rewrite emitted_app, emitted_started. cbn [app].
    apply emitted_results, Hret.
Qed.


End WithStringify.

(** *** The stream of one turn *)

Section WithJSON.

Variable JSON_parse : str -> option JSON.
Variable JSON_stringify : JSON -> str.
Variable JSON_stringify2 : JSON -> str.

#[local] Abbreviation addChunk := (ToolParser.addChunk JSON_parse).
#[local] Abbreviation feed := (ToolParser.feed JSON_parse).
#[local] Abbreviation extract := (ToolParser.extract JSON_parse).
#[local] Abbreviation atRest := (ToolParser.atRest JSON_parse).
#[local] Abbreviation consume := (consume JSON_parse).
#[local] Abbreviation streamLLM := (streamLLM JSON_parse).
#[local] Abbreviation runTools := (runTools JSON_stringify JSON_stringify2).
#[local] Abbreviation turnLoop :=
  (turnLoop JSON_parse JSON_stringify JSON_stringify2).
#[local] Abbreviation execute :=
  (execute JSON_parse JSON_stringify JSON_stringify2).

Lemma shownText_app t1 t2 : shownText (t1 ++ t2) = shownText t1 ++ shownText t2.
Proof. unfold shownText. rewrite omap_app. apply concat_app. Qed.

Lemma shownText_calls (calls : list ToolCall) :
  shownText (map (fun call => Emit (ToolCallEvent call)) calls) = [].
Proof. induction calls as [|c l IH]; [reflexivity|exact IH]. Qed.

Lemma addChunk_nothing p :
  atRest p ->
  addChunk p [] = (p, {| ToolParser.text := []; ToolParser.toolCalls := None |}).
Proof.
  intros Hp. rewrite ToolParserFacts.addChunk_runLoop.
  rewrite ToolParserFacts.append_empty. rewrite Hp. reflexivity.
Qed.

Lemma addChunk_atRest p chunk : atRest (fst (addChunk p chunk)).
Proof.
  rewrite ToolParserFacts.addChunk_runLoop.
  pose proof (ToolParserFacts.runLoop_atRest JSON_parse
                (ToolParser.append p chunk)) as H.
  destruct (ToolParser.runLoop _ _) as [[p' t] c]. exact H.
Qed.

Lemma consume_delta content rest l :
  content <> [] ->
  consume (Delta content :: rest) false l =
  let out := snd (addChunk (toolParser l) content) in
  let parsedCalls := default [] (ToolParser.toolCalls out) in
  let l1 :=
    {| toolParser := fst (addChunk (toolParser l) content);
       chunks := chunks l ++ [content];
       toolCalls := toolCalls l ++ parsedCalls;
       hasToolCalls := hasToolCalls l || nonEmpty parsedCalls |} in
  let r := consume rest false l1 in
  ((if nonEmpty (ToolParser.text out) && negb (hasToolCalls l)
    then [Emit (TextEvent (ToolParser.text out))] else [])
     ++ map (fun call => Emit (ToolCallEvent call)) parsedCalls
     ++ fst (fst (fst r)),
   snd (fst (fst r)), snd (fst r), snd r).
Proof.
  intros Hne. destruct content as [|c0 content']; [congruence|].
  cbn [SupervisorAgent.consume nonEmpty].
  destruct (addChunk (toolParser l) (c0 :: content')) as [p1 out].
  cbv zeta. cbn [fst snd].
  destruct (SupervisorAgent.consume _ rest false _) as [[[e a] l2] t].
  reflexivity.
Qed.

Lemma consume_empty rest l :
  consume (Delta [] :: rest) false l = consume rest false l.
Proof. reflexivity. Qed.

(** The loop of [streamLLM] over fragments that all arrive, against the
    extractor fed the same fragments. *)
Lemma consume_feed chunks : forall l,
  atRest (toolParser l) ->
  exists effects l',
    consume (map Delta chunks) false l = (effects, false, l', None) /\
    toolParser l' = fst (fst (feed (toolParser l) chunks)) /\
    toolCalls l' = toolCalls l ++ snd (feed (toolParser l) chunks) /\
    concat (SupervisorAgent.chunks l') =
      concat (SupervisorAgent.chunks l) ++ concat chunks /\
    (hasToolCalls l = false ->
     snd (feed (toolParser l) chunks) = [] ->
     hasToolCalls l' = false /\
     shownText effects = snd (fst (feed (toolParser l) chunks))).
Proof.
  induction chunks as [|chunk rest IH]; intros l Hl.
  - exists [], l. cbn. rewrite !app_nil_r. repeat split; auto.
  - cbn [map ToolParser.feed].
    destruct (decide (chunk = [])) as [->|Hne].
    + rewrite consume_empty, (addChunk_nothing _ Hl).
      destruct (IH l Hl) as (effects & l' & Hc & Hp & Ht & Hch & Htext).
      exists effects, l'. rewrite Hc.
      destruct (feed (toolParser l) rest) as [[p2 txt] calls].
      cbn [fst snd ToolParser.text ToolParser.toolCalls default app] in *.
      split; [reflexivity|]. split; [exact Hp|]. split; [exact Ht|].
      split; [exact Hch|exact Htext].
    + rewrite (consume_delta chunk (map Delta rest) l Hne). cbv zeta.
      pose proof (addChunk_atRest (toolParser l) chunk) as Hrest.
      destruct (addChunk (toolParser l) chunk) as [p1 out].
      cbn [fst snd] in *.
      match goal with
      | |- context [consume (map Delta rest) false ?l1] =>
          destruct (IH l1 Hrest)
            as (effects & l' & Hc & Hp & Ht & Hch & Htext);
          rewrite Hc
      end.
      cbn [fst snd]. eexists _, l'. split; [reflexivity|].
      cbn [toolParser toolCalls SupervisorAgent.chunks hasToolCalls] in *.
      destruct (feed p1 rest) as [[p2 txt] calls].
      cbn [fst snd] in *.
      split; [exact Hp|]. split; [rewrite Ht, <- app_assoc; reflexivity|].
      split.
      { rewrite Hch, concat_app. simpl concat.
        rewrite app_nil_r, <- app_assoc. reflexivity. }
      intros Hno Hcalls. apply app_eq_nil in Hcalls as [Hc1 Hc2].
      rewrite Hc1, Hno in *. cbn [nonEmpty orb negb] in *.
      destruct (Htext eq_refl Hc2) as [Hh Hs].
      split; [exact Hh|].
      rewrite !shownText_app, Hs. cbn [map app].
      rewrite andb_true_r.
      destruct (ToolParser.text out) as [|t0 tx]; [reflexivity|].
      cbn [nonEmpty]. unfold shownText at 1 2. cbn.
      rewrite app_nil_r. reflexivity.
Qed.

Lemma streamLLM_delivered chunks :
  exists effects p' shown,
    streamLLM (map Delta chunks) false =
      (effects ++ shown ++ [Trace (concat chunks)], false,
       inl (concat chunks, snd (feed ToolParser.create chunks))) /\
    p' = fst (fst (feed ToolParser.create chunks)) /\
    (snd (feed ToolParser.create chunks) = [] ->
     shownText (effects ++ shown) =
       snd (fst (feed ToolParser.create chunks))
       ++ snd (ToolParser.flush p')).
Proof.
  unfold SupervisorAgent.streamLLM.
  destruct (consume_feed chunks
              {| toolParser := ToolParser.create; chunks := [];
                 toolCalls := []; hasToolCalls := false |}
              (ToolParserFacts.create_atRest JSON_parse))
    as (effects & l' & Hc & Hp & Ht & Hch & Htext).
  rewrite Hc. cbn [toolParser toolCalls SupervisorAgent.chunks
                   hasToolCalls app concat] in *.
  rewrite Hch, Ht, Hp.
  eexists effects, _, _. split; [reflexivity|]. split; [reflexivity|].
  intros Hnone. destruct (Htext eq_refl Hnone) as [Hh Hs].
  rewrite Hh, shownText_app, Hs. f_equal.
  cbn [negb]. rewrite andb_true_r.
  destruct (ToolParser.flush _).2 as [|r0 r]; [reflexivity|].
  cbn [nonEmpty]. unfold shownText. cbn. rewrite app_nil_r. reflexivity.
Qed.

Lemma extract_feed chunks :
  extract chunks =
  (snd (fst (feed ToolParser.create chunks))
     ++ snd (ToolParser.flush (fst (fst (feed ToolParser.create chunks)))),
   snd (feed ToolParser.create chunks)).
Proof.
  unfold ToolParser.extract.
  destruct (feed ToolParser.create chunks) as [[p t] c]. reflexivity.
Qed.

(** X20. When all fragments of a turn arrive, [streamLLM] returns as
    response the fragments joined, and as tool calls exactly the calls the
    extractor finds in that response. *)
Theorem stream_returns_extracted (chunks : list str) :
  snd (streamLLM (map Delta chunks) false) =
  inl (concat chunks, snd (extract [concat chunks])).
Proof.
  destruct (streamLLM_delivered chunks) as (effects & p' & shown & -> & _).
  cbn [snd]. do 2 f_equal.
  transitivity (snd (extract chunks)); [rewrite extract_feed; reflexivity|].
  rewrite !ToolParserFacts.extract_drain. simpl concat.
  rewrite app_nil_r. reflexivity.
Qed.

(** X21. A plain answer is shown in full. When the response of a turn
    holds no opening tag and all its fragments arrive, the text events
    emitted during the turn, put together, are the response itself,
    however the response was cut, and no tool call is returned. *)
Theorem plain_answer_shown (chunks : list str) :
  indexOf (concat chunks) (lit "<tool>") = -1 ->
  let '(effects, aborted, outcome) := streamLLM (map Delta chunks) false in
  shownText effects = concat chunks /\
  outcome = inl (concat chunks, []).
Proof.
  intros Hplain. apply indexOf_missing_inv in Hplain.
  destruct (streamLLM_delivered chunks)
    as (effects & p' & shown & -> & -> & Htext).
  assert (Hex : extract chunks = (concat chunks, [])).
  { rewrite ToolParserFacts.extract_drain.
    apply ToolParserFacts.drain_no_open, Hplain. }
  rewrite extract_feed in Hex. injection Hex as Ht Hc.
  rewrite Hc. split; [|reflexivity].
  rewrite app_assoc, shownText_app, (Htext Hc).
  change (ToolParser.flush (feed ToolParser.create chunks).1.1).2
    with (ToolParser.buffer (feed ToolParser.create chunks).1.1).
  rewrite Ht. unfold shownText at 1. cbn. apply app_nil_r.
Qed.

(** *** The end of a run *)

Lemma consume_quiet items : forall aborted l,
  Forall (fun e => isTerminal e = false)
         (emitted (fst (fst (fst (consume items aborted l))))) /\
  responses (fst (fst (fst (consume items aborted l)))) = [].
Proof.
  induction items as [|item rest IH]; intros aborted l.
  - split; [constructor|reflexivity].
  - destruct item as [content| |message]; cbn [SupervisorAgent.consume].
    + destruct aborted; [split; [constructor|reflexivity]|].
      destruct (nonEmpty content); [|apply IH].
      destruct (ToolParser.addChunk _ _ _) as [parser out].
      match goal with
      | |- context [SupervisorAgent.consume _ rest false ?l1] =>
          destruct (IH false l1) as [IH1 IH2];
          destruct (SupervisorAgent.consume _ rest false l1)
            as [[[e a] l2] t]
      end.
      cbn [fst] in *. rewrite !emitted_app. unfold responses in *.
      rewrite !omap_app. split.
      * apply Forall_app. split.
        { destruct (_ && _); simpl; repeat constructor. }
        apply Forall_app. split; [|exact IH1].
        induction (default [] (ToolParser.toolCalls out)); simpl;
          constructor; auto.
      * rewrite IH2, app_nil_r.
        assert (forall calls : list ToolCall,
          omap (fun e => match e with
                         | Save MemoryManager.assistant c => Some c
                         | _ => None
                         end)
               (map (fun call => Emit (ToolCallEvent call)) calls) = [])
          as -> by (intros calls; induction calls; auto).
        destruct (_ && _); reflexivity.
    + apply IH.
    + split; [constructor|reflexivity].
Qed.

Lemma streamLLM_quiet items aborted :
  Forall (fun e => isTerminal e = false)
         (emitted (fst (fst (streamLLM items aborted)))) /\
  responses (fst (fst (streamLLM items aborted))) = [].
Proof.
  unfold SupervisorAgent.streamLLM.
  destruct (consume_quiet items aborted
              {| toolParser := ToolParser.create; chunks := [];
                 toolCalls := []; hasToolCalls := false |}) as [H1 H2].
  destruct (SupervisorAgent.consume _ items aborted _) as [[[e a] l] t].
  cbn [fst] in *. destruct t as [message|]; cbn [fst]; [split; assumption|].
  rewrite !emitted_app. unfold responses in *. rewrite !omap_app, H2.
  split.
  - apply Forall_app. split; [exact H1|].
    destruct (_ && _); simpl; repeat constructor.
  - destruct (_ && _); reflexivity.
Qed.

Lemma responses_started (l : list ToolCall) : responses (map Execute l) = [].
Proof. induction l as [|c l IH]; [reflexivity|exact IH]. Qed.

Lemma responses_app t1 t2 : responses (t1 ++ t2) = responses t1 ++ responses t2.
Proof. apply omap_app. Qed.

Lemma runTools_quiet (w : World) toolCalls :
  Forall (fun e => isTerminal e = false)
         (emitted (fst (runTools w toolCalls))) /\
  responses (fst (runTools w toolCalls)) = [].
Proof.
  split.
  - pose proof (tools_shape JSON_stringify JSON_stringify2 w toolCalls) as H.
    destruct (runTools w toolCalls) as [trace [message|]];
      destruct H as [_ H]; cbn [fst].
    + destruct H as [-> _]. constructor.
    + rewrite H. apply Forall_forall. intros e He.
      apply list_elem_of_In, in_map_iff in He.
      destruct He as (tc & <- & _). reflexivity.
  - unfold SupervisorAgent.runTools.
    destruct (firstRejection _); cbn [fst].
    + apply responses_started.
    + rewrite responses_app, responses_started. cbn [app].
      induction (zip _ _) as [|[tc [v|e]] l IH]; auto.
Qed.

Lemma emitted_save role content t :
  emitted (Save role content :: t) = emitted t.
Proof. reflexivity. Qed.

Lemma responses_turn streamed response rest :
  responses streamed = [] ->
  responses (streamed ++ Save MemoryManager.assistant response :: rest) =
  response :: responses rest.
Proof. intros H. rewrite responses_app, H. reflexivity. Qed.

(** How the loop can end: with nothing terminal emitted (it threw, or
    the turns are used up), with the abort error before the turns are used
    up, or with [done]. *)
Lemma turnLoop_shape fuel : forall (w : World) maxTurns turnCount aborted
    effects final thrown,
  turnLoop fuel w maxTurns turnCount aborted = Some (effects, final, thrown) ->
  (exists body fin,
     emitted effects = body ++ fin /\
     Forall (fun e => isTerminal e = false) body /\
     ((fin = [] /\ (thrown <> None \/ maxTurns <= final)) \/
      (fin = [ErrorEvent (lit "Execution aborted by user")] /\
       thrown = None /\ final < maxTurns) \/
      (fin = [DoneEvent] /\ thrown = None))) /\
  (length (responses effects) <= Z.to_nat (maxTurns - turnCount))%nat.
Proof.
  induction fuel as [|fuel IH];
    intros w maxTurns turnCount aborted effects final thrown;
    cbn [SupervisorAgent.turnLoop];
    destruct (Z.ltb_spec turnCount maxTurns) as [Hlt|Hge].
  - discriminate.
  - intros [= <- <- <-]. split; [|simpl; lia].
    exists [], []. split; [reflexivity|]. split; [constructor|].
    left. split; [reflexivity|right; lia].
  - destruct aborted.
    { intros [= <- <- <-]. split; [|simpl; lia].
      exists [], [ErrorEvent (lit "Execution aborted by user")].
      split; [reflexivity|]. split; [constructor|].
      right. left. repeat split. exact Hlt. }
    destruct (streamLLM_quiet (stream w (turnCount + 1)) false) as [Hq Hr].
    destruct (SupervisorAgent.streamLLM _ _ false)
      as [[streamed aborted'] outcome].
    cbn [fst] in Hq, Hr.
    destruct outcome as [[response calls]|message].
    2:{ intros [= <- <- <-]. split; [|rewrite Hr; simpl; lia].
        exists (emitted streamed), []. rewrite app_nil_r.
        split; [reflexivity|]. split; [exact Hq|].
        left. split; [reflexivity|left; discriminate]. }
    destruct (len calls >? 0).
    2:{ intros [= <- <- <-]. split.
        - exists (emitted streamed), [DoneEvent].
          rewrite emitted_app, emitted_save. split; [reflexivity|]. split; [exact Hq|].
          right. right. split; reflexivity.
        - cbn [app]. rewrite (responses_turn _ _ _ Hr). simpl. lia. }
    destruct (runTools_quiet w calls) as [Hq2 Hr2].
    destruct (SupervisorAgent.runTools _ _ w calls) as [ran [message|]].
    { intros [= <- <- <-]. cbn [fst] in *. split.
      - exists (emitted streamed ++ emitted ran), [].
        rewrite emitted_app, emitted_save, app_nil_r. split; [reflexivity|].
        split; [apply Forall_app; split; assumption|].
        left. split; [reflexivity|left; discriminate].
      - cbn [app]. rewrite (responses_turn _ _ _ Hr), Hr2. simpl. lia. }
    cbn [fst] in *.
    destruct (SupervisorAgent.turnLoop _ _ _ fuel w maxTurns
                (turnCount + 1) aborted')
      as [[[later final'] thrown']|] eqn:E; [|discriminate].
    intros [= <- <- <-].
    destruct (IH _ _ _ _ _ _ _ E) as [(body & fin & Hem & Hbody & Hfin) Hcount].
    split.
    + exists (emitted streamed ++ emitted ran ++ body), fin.
      rewrite emitted_app, emitted_save, emitted_app, Hem.
      split; [rewrite <- !app_assoc; reflexivity|].
      split; [|exact Hfin].
      apply Forall_app. split; [exact Hq|].
      apply Forall_app. split; assumption.
    + cbn [app]. rewrite (responses_turn _ _ _ Hr), responses_app, Hr2.
      simpl. lia.
  - intros [= <- <- <-]. split; [|simpl; lia].
    exists [], []. split; [reflexivity|]. split; [constructor|].
    left. split; [reflexivity|right; lia].
Qed.

(** The shape of the events of the [try] block of [execute]. *)
Lemma execute_shape (w : World) (configured : option Z) (finalQuery : str) :
  match execute w configured finalQuery with
  | Some trace =>
      exists body ending,
        emitted trace = body ++ ending /\
        Forall (fun e => isTerminal e = false) body /\
        (ending = [DoneEvent] \/
         (exists message, ending = [ErrorEvent message]) \/
         ending = [DoneEvent; ErrorEvent (lit "Max turns reached")])
  | None => False
  end.
Proof.
  unfold SupervisorAgent.execute.
  set (maxTurns := resolveMaxTurns configured).
  destruct (SupervisorAgentFacts.turnLoop_total JSON_parse JSON_stringify
              JSON_stringify2 (Z.to_nat maxTurns) w maxTurns 0
              (abortedEarly w) ltac:(lia)) as [[[effects final] thrown] E].
  rewrite E.
  destruct (turnLoop_shape _ _ _ _ _ _ _ _ E)
    as [(body & fin & Hem & Hbody & Hfin) _].
  change (emitted (Save MemoryManager.user finalQuery :: ?t))
    with (emitted t).
  rewrite emitted_app, Hem.
  destruct Hfin as [[-> Hwhy]|[(-> & -> & Hlt)|[-> ->]]].
  - rewrite app_nil_r. destruct thrown as [message|].
    + exists body, [ErrorEvent message]. split; [reflexivity|].
      split; [exact Hbody|]. right. left. eauto.
    + destruct Hwhy as [Hwhy|Hwhy]; [congruence|].
      rewrite Z.geb_leb, (proj2 (Z.leb_le _ _)) by lia.
      exists body, [ErrorEvent (lit "Max turns reached")].
      split; [reflexivity|]. split; [exact Hbody|]. right. left. eauto.
  - rewrite Z.geb_leb, (proj2 (Z.leb_gt _ _)) by lia.
    exists body, [ErrorEvent (lit "Execution aborted by user")].
    cbn [emitted omap]. rewrite app_nil_r. split; [reflexivity|].
    split; [exact Hbody|]. right. left. eauto.
  - destruct (final >=? maxTurns).
    + exists body, [DoneEvent; ErrorEvent (lit "Max turns reached")].
      split; [rewrite <- app_assoc; reflexivity|].
      split; [exact Hbody|]. right. right. reflexivity.
    + exists body, [DoneEvent]. cbn [emitted omap]. rewrite app_nil_r.
      split; [reflexivity|]. split; [exact Hbody|]. left. reflexivity.
Qed.

(** X22. When the [try] block of [execute] is reached and runs to its
    end (initialisation and session creation went through, every model
    stream ended and every tool execution settled), the events emitted
    end in one of three ways: a single [done], a single [error], or
    [done] followed by the turn-limit error. No [done] and no [error] is
    emitted before that. *)
Theorem run_ends (w : World) (configured : option Z) (finalQuery : str)
    (trace : list Effect) :
  execute w configured finalQuery = Some trace ->
  exists body ending,
    emitted trace = body ++ ending /\
    Forall (fun e => isTerminal e = false) body /\
    (ending = [DoneEvent] \/
     (exists message, ending = [ErrorEvent message]) \/
     ending = [DoneEvent; ErrorEvent (lit "Max turns reached")]).
Proof.
  intros H. pose proof (execute_shape w configured finalQuery) as Hshape.
  rewrite H in Hshape. exact Hshape.
Qed.

(** X23. The loop never exceeds the configured number of turns: a run
    saves at most [maxTurns] assistant responses ([maxTurns] being 10 when
    the configuration gives none or 0). *)
Theorem turns_bounded (w : World) (configured : option Z) (finalQuery : str) :
  match execute w configured finalQuery with
  | Some trace =>
      (length (responses trace) <= Z.to_nat (resolveMaxTurns configured))%nat
  | None => False
  end.
Proof.
  unfold SupervisorAgent.execute.
  set (maxTurns := resolveMaxTurns configured).
  destruct (SupervisorAgentFacts.turnLoop_total JSON_parse JSON_stringify
              JSON_stringify2 (Z.to_nat maxTurns) w maxTurns 0
              (abortedEarly w) ltac:(lia)) as [[[effects final] thrown] E].
  rewrite E.
  destruct (turnLoop_shape _ _ _ _ _ _ _ _ E) as [_ Hcount].
  change (responses (Save MemoryManager.user finalQuery :: ?t))
    with (responses t).
  rewrite responses_app.
  assert (responses
            match thrown with
            | Some message => [Emit (ErrorEvent message)]
            | None =>
                if final >=? maxTurns
                then [Emit (ErrorEvent (lit "Max turns reached"))]
                else []
            end = []) as ->
    by (destruct thrown; [|destruct (final >=? maxTurns)]; reflexivity).
  rewrite app_nil_r. replace (maxTurns - 0) with maxTurns in Hcount by lia.
  exact Hcount.
Qed.

End WithJSON.

(** *** Instances *)

Import Scenarios.

Lemma run_ends_witness :
  exists trace,
    SupervisorAgent.execute rejectAll serialize serialize
      (always [Delta (lit "Hello, world")]) None (lit "hi") = Some trace /\
    exists body ending,
      emitted trace = body ++ ending /\
      Forall (fun e => isTerminal e = false) body /\
      (ending = [DoneEvent] \/
       (exists message, ending = [ErrorEvent message]) \/
       ending = [DoneEvent; ErrorEvent (lit "Max turns reached")]).
Proof.
  eexists. split; [vm_compute; reflexivity|].
  apply (run_ends rejectAll serialize serialize
           (always [Delta (lit "Hello, world")]) None (lit "hi")).
  vm_compute. reflexivity.
Defined.

Lemma plain_answer_shown_witness :
  indexOf (concat [lit "Hello, "; lit "world"]) (lit "<tool>") = -1 /\
  let '(effects, aborted, outcome) :=
    streamLLM rejectAll (map Delta [lit "Hello, "; lit "world"]) false in
  shownText effects = lit "Hello, world" /\
  outcome = inl (lit "Hello, world", []).
Proof.
  split; [reflexivity|].
  exact (plain_answer_shown rejectAll [lit "Hello, "; lit "world"] eq_refl).
Defined.

End SupervisorAgentMore.

(** ** Tools run at the customer's endpoint *)

Module CustomerToolMore.
Import CustomerTool.

Lemma requests_app (a b : list Step) :
  requests (a ++ b) = requests a + requests b.
Proof.
  induction a as [|[e body limit|ms] a IH]; cbn [app requests]; lia.
Qed.

Lemma waited_app (a b : list Step) :
  waited (a ++ b) = waited a + waited b.
Proof.
  induction a as [|[e body limit|ms] a IH]; cbn [app waited]; lia.
Qed.

Lemma last_pause (request : Step) (pause steps : list Step) :
  (steps = [] -> pause = []) ->
  (steps <> [] -> last steps = Some request) ->
  last (request :: pause ++ steps) = Some request.
Proof.
  intros Hnil Hlast. destruct steps as [|s steps].
  - rewrite Hnil by reflexivity. reflexivity.
  - change (request :: pause ++ s :: steps)
      with ((request :: pause) ++ s :: steps).
    rewrite last_app, Hlast by discriminate. reflexivity.
Qed.

Section WithEndpoint.

Variable JSON_stringify : JSON -> str.
Variable attemptOutcome : Z -> Attempt.
Variable nullMessage : str.

#[local] Abbreviation thrown := (CustomerTool.thrown nullMessage).
#[local] Abbreviation attemptLoop :=
  (CustomerTool.attemptLoop attemptOutcome nullMessage).
#[local] Abbreviation executeCustomerTool :=
  (CustomerTool.executeCustomerTool JSON_stringify attemptOutcome
     nullMessage).

Lemma attemptLoop_past fuel request r a lastError :
  r < a -> attemptLoop fuel request r a lastError = Some ([], inr lastError).
Proof.
  intros H. destruct fuel; cbn [CustomerTool.attemptLoop];
    rewrite (proj2 (Z.leb_gt a r)) by lia; reflexivity.
Qed.

(** The loop when every remaining attempt fails. *)
Lemma attemptLoop_exhausted fuel e body limit r a lastError :
  0 <= a <= r ->
  (Z.to_nat (r + 1 - a) <= fuel)%nat ->
  (forall k, a <= k <= r -> exists m, thrown (attemptOutcome k) = Some m) ->
  exists steps m,
    attemptLoop fuel (Request e body limit) r a lastError =
      Some (steps, inr (Some m)) /\
    thrown (attemptOutcome r) = Some m /\
    requests steps = r + 1 - a /\
    waited steps = (2 ^ r - 2 ^ a) * 1000 /\
    last steps = Some (Request e body limit).
Proof.
  revert a lastError.
  induction fuel as [|fuel IH]; intros a lastError Ha Hfuel Hfail; [lia|].
  cbn [CustomerTool.attemptLoop].
  rewrite (proj2 (Z.leb_le a r)) by lia.
  destruct (Hfail a ltac:(lia)) as [m Hm]. rewrite Hm.
  destruct (Z.eq_dec a r) as [->|Hne].
  - rewrite (proj2 (Z.ltb_ge r r)) by lia.
    rewrite attemptLoop_past by lia.
    exists [Request e body limit], m. cbn [app requests waited].
    repeat split; try assumption; try lia.
  - rewrite (proj2 (Z.ltb_lt a r)) by lia.
    destruct (IH (a + 1) (Some m)) as (steps & m' & Hloop & Hr & Hn & Hw & Hl);
      [lia | lia | intros k Hk; apply Hfail; lia |].
    rewrite Hloop. exists (Request e body limit :: [Wait (2 ^ a * 1000)] ++ steps), m'.
    repeat split; try assumption.
    + cbn [app requests]. lia.
    + cbn [app waited]. rewrite Hw.
      replace (a + 1) with (Z.succ a) by lia.
      rewrite Z.pow_succ_r by lia. lia.
    + apply last_pause.
      * intros ->. discriminate.
      * intros _. exact Hl.
Qed.

Lemma answer_not_thrown result :
  result <> JNull -> thrown (Answered result) = None.
Proof. destruct result; intros H; try reflexivity. contradiction. Qed.

(** The loop up to the first attempt that is answered. *)
Lemma attemptLoop_answer fuel e body limit r a lastError k result :
  0 <= a <= k -> k <= r ->
  (Z.to_nat (k + 1 - a) <= fuel)%nat ->
  (forall j, a <= j < k -> exists m, thrown (attemptOutcome j) = Some m) ->
  attemptOutcome k = Answered result ->
  result <> JNull ->
  exists steps,
    attemptLoop fuel (Request e body limit) r a lastError =
      Some (steps, inl (Returns result)) /\
    requests steps = k + 1 - a /\
    waited steps = (2 ^ k - 2 ^ a) * 1000 /\
    last steps = Some (Request e body limit).
Proof.
  revert a lastError.
  induction fuel as [|fuel IH];
    intros a lastError Ha Hk Hfuel Hfail Hans Hnull; [lia|].
  cbn [CustomerTool.attemptLoop].
  rewrite (proj2 (Z.leb_le a r)) by lia.
  destruct (Z.eq_dec a k) as [->|Hne].
  - rewrite Hans, (answer_not_thrown _ Hnull).
    exists [Request e body limit].
    cbn [requests waited]. repeat split; lia.
  - destruct (Hfail a ltac:(lia)) as [m Hm]. rewrite Hm.
    rewrite (proj2 (Z.ltb_lt a r)) by lia.
    destruct (IH (a + 1) (Some m)) as (steps & Hloop & Hn & Hw & Hl);
      [lia | lia | lia | intros j Hj; apply Hfail; lia | exact Hans
      | exact Hnull |].
    rewrite Hloop.
    exists (Request e body limit :: [Wait (2 ^ a * 1000)] ++ steps).
    repeat split.
    + cbn [app requests]. lia.
    + cbn [app waited]. rewrite Hw.
      replace (a + 1) with (Z.succ a) by lia.
      rewrite Z.pow_succ_r by lia. lia.
    + apply last_pause.
      * intros ->. discriminate.
      * intros _. exact Hl.
Qed.

(** The loop in general: it sends at most one request per remaining
    attempt, always the same one, never ends on a pause, and is left
    without a value exactly when the last attempt made stalls. *)
Lemma attemptLoop_bounded fuel e body limit r a lastError :
  (Z.to_nat (r + 1 - a) <= fuel)%nat ->
  exists steps ending,
    attemptLoop fuel (Request e body limit) r a lastError =
      Some (steps, ending) /\
    0 <= requests steps <= Z.max 0 (r + 1 - a) /\
    (steps <> [] -> last steps = Some (Request e body limit)) /\
    (steps = [] -> r < a) /\
    Forall (fun s => s = Request e body limit \/ exists ms, s = Wait ms)
           steps /\
    (ending = inl Hangs <->
     0 < requests steps /\
     attemptOutcome (a + requests steps - 1) = Stalled).
Proof.
  revert a lastError.
  induction fuel as [|fuel IH]; intros a lastError Hfuel.
  - rewrite attemptLoop_past by lia. exists [], (inr lastError).
    cbn [requests]. split; [reflexivity|]. split; [lia|].
    split; [intros H; contradiction|]. split; [intros _; lia|].
    split; [constructor|]. split; [discriminate | intros [H _]; lia].
  - destruct (Z.le_gt_cases a r) as [Hle|Hgt].
    2:{ rewrite attemptLoop_past by lia. exists [], (inr lastError).
        cbn [requests]. split; [reflexivity|]. split; [lia|].
        split; [intros H; contradiction|]. split; [intros _; lia|].
        split; [constructor|]. split; [discriminate | intros [H _]; lia]. }
    cbn [CustomerTool.attemptLoop].
    rewrite (proj2 (Z.leb_le a r)) by lia.
    destruct (thrown (attemptOutcome a)) as [m|] eqn:Hthrown.
    + destruct (IH (a + 1) (Some m))
        as (steps & ending & Hloop & Hn & Hl & He & Hall & Hhang); [lia|].
      rewrite Hloop.
      exists (Request e body limit ::
                (if a <? r then [Wait (2 ^ a * 1000)] else []) ++ steps),
             ending.
      assert (Hreq : requests
                (Request e body limit ::
                   (if a <? r then [Wait (2 ^ a * 1000)] else []) ++ steps)
              = 1 + requests steps).
      { cbn [requests]. rewrite requests_app.
        destruct (a <? r); cbn [requests]; lia. }
      rewrite Hreq.
      split; [reflexivity|]. split; [lia|]. split.
      { intros _. apply last_pause; [|exact Hl].
        intros Hs. specialize (He Hs).
        rewrite (proj2 (Z.ltb_ge a r)) by lia. reflexivity. }
      split; [discriminate|]. split.
      { constructor; [left; reflexivity|].
        apply Forall_app_2; [|exact Hall].
        destruct (a <? r);
          [constructor; [right; eexists; reflexivity | constructor]
          | constructor]. }
      rewrite Hhang. split.
      * intros [Hpos Hst]. split; [lia|].
        replace (a + (1 + requests steps) - 1)
          with (a + 1 + requests steps - 1) by lia. exact Hst.
      * intros [_ Hst].
        destruct (Z.eq_dec (requests steps) 0) as [Hz|Hz].
        -- rewrite Hz in Hst.
           replace (a + (1 + 0) - 1) with a in Hst by lia.
           rewrite Hst in Hthrown. discriminate.
        -- split; [lia|].
           replace (a + 1 + requests steps - 1)
             with (a + (1 + requests steps) - 1) by lia. exact Hst.
    + destruct (attemptOutcome a) as [result| |] eqn:Hout.
      * exists [Request e body limit], (inl (Returns result)).
        cbn [requests]. split; [reflexivity|]. split; [lia|].
        split; [reflexivity|]. split; [discriminate|].
        split; [repeat constructor|].
        split; [discriminate|].
        intros [_ Hst]. replace (a + (1 + 0) - 1) with a in Hst by lia.
        congruence.
      * discriminate.
      * exists [Request e body limit], (inl Hangs).
        cbn [requests]. split; [reflexivity|]. split; [lia|].
        split; [reflexivity|]. split; [discriminate|].
        split; [repeat constructor|].
        split; [|reflexivity].
        intros _. split; [lia|].
        replace (a + (1 + 0) - 1) with a by lia. exact Hout.
Qed.

(** X24. When the endpoint is configured and every one of the
    [maxRetries + 1] attempts throws, [executeCustomerTool] sends exactly
    [maxRetries + 1] requests, pauses [(2 ^ maxRetries - 1) * 1000]
    milliseconds in total, its last step is a request, and it returns the
    failure value that carries the number of attempts and the message of
    the last error. *)
Theorem customer_tool_exhausted toolName parameters execution c endpoint r :
  default 1 (maxRetries execution) = r ->
  customerEndpoint execution = Some (c :: endpoint) ->
  0 <= r < 1014 ->
  (forall k, 0 <= k <= r -> exists m, thrown (attemptOutcome k) = Some m) ->
  exists steps m,
    executeCustomerTool toolName parameters execution =
      Some (steps,
            Returns
              (failure (lit "CUSTOMER tool failed after " ++ decimal (r + 1)
                          ++ lit " attempts: " ++ lastMessage (Some m)))) /\
    thrown (attemptOutcome r) = Some m /\
    requests steps = r + 1 /\
    waited steps = (2 ^ r - 1) * 1000 /\
    (forall ms, last steps <> Some (Wait ms)).
Proof.
  intros Hdef Hend Hr Hfail.
  unfold CustomerTool.executeCustomerTool. rewrite Hend, Hdef.
  match goal with
  | |- context [CustomerTool.attemptLoop _ _ ?fuel ?req r 0 None] =>
      destruct (attemptLoop_exhausted fuel (c :: endpoint)
                  (JSON_stringify
                     (JObject [(lit "toolName", JString toolName);
                               (lit "parameters", parameters)]))
                  (default 20000 (timeoutMs execution)) r 0 None)
        as (steps & m & Hloop & Hm & Hn & Hw & Hl); [lia | lia | exact Hfail |]
  end.
  rewrite Hloop. exists steps, m. repeat split.
  - exact Hm.
  - lia.
  - rewrite Hw. change (2 ^ 0) with 1. reflexivity.
  - intros ms. rewrite Hl. discriminate.
Qed.

(** X25. When the endpoint is configured and attempt [k] is the first
    one that does not throw, and it is answered with a value other than
    [null], [executeCustomerTool] returns that value unchanged, whatever
    it says, after exactly [k + 1] requests and [(2 ^ k - 1) * 1000]
    milliseconds of pauses; later attempts are not made. *)
Theorem customer_tool_first_answer toolName parameters execution c endpoint
    r k result :
  default 1 (maxRetries execution) = r ->
  customerEndpoint execution = Some (c :: endpoint) ->
  0 <= k <= r -> k < 1014 ->
  (forall j, 0 <= j < k -> exists m, thrown (attemptOutcome j) = Some m) ->
  attemptOutcome k = Answered result ->
  result <> JNull ->
  exists steps,
    executeCustomerTool toolName parameters execution =
      Some (steps, Returns result) /\
    requests steps = k + 1 /\
    waited steps = (2 ^ k - 1) * 1000.
Proof.
  intros Hdef Hend Hk Hk' Hfail Hans Hnull.
  unfold CustomerTool.executeCustomerTool. rewrite Hend, Hdef.
  match goal with
  | |- context [CustomerTool.attemptLoop _ _ ?fuel ?req r 0 None] =>
      destruct (attemptLoop_answer fuel (c :: endpoint)
                  (JSON_stringify
                     (JObject [(lit "toolName", JString toolName);
                               (lit "parameters", parameters)]))
                  (default 20000 (timeoutMs execution)) r 0 None k result)
        as (steps & Hloop & Hn & Hw & Hl);
        [lia | lia | lia | exact Hfail | exact Hans | exact Hnull |]
  end.
  rewrite Hloop. exists steps. repeat split.
  - lia.
  - rewrite Hw. change (2 ^ 0) with 1. reflexivity.
Qed.

(** X26. [executeCustomerTool] sends at most [maxRetries + 1] requests,
    each of them to the configured, non-empty endpoint (so none when no
    endpoint is configured), and its last step is never a pause. It
    returns a value unless the last attempt it makes stalls: then it
    never returns. *)
Theorem customer_tool_bounded toolName parameters execution :
  exists steps outcome,
    executeCustomerTool toolName parameters execution =
      Some (steps, outcome) /\
    0 <= requests steps <= Z.max 0 (default 1 (maxRetries execution) + 1) /\
    (forall ms, last steps <> Some (Wait ms)) /\
    (forall e body limit, Request e body limit ∈ steps ->
       e <> [] /\ customerEndpoint execution = Some e) /\
    (outcome = Hangs <->
     0 < requests steps /\
     attemptOutcome (requests steps - 1) = Stalled).
Proof.
  unfold CustomerTool.executeCustomerTool.
  destruct (customerEndpoint execution) as [[|c endpoint]|] eqn:Hend.
  1,3: eexists; eexists; split; [reflexivity|];
       cbn [requests last]; split; [lia|];
       split; [discriminate|];
       split; [intros e body limit H; apply not_elem_of_nil in H;
               contradiction|];
       split; [discriminate | intros [H _]; lia].
  match goal with
  | |- context [CustomerTool.attemptLoop _ _ ?fuel (Request ?e ?body ?limit)
                  ?r 0 None] =>
      destruct (attemptLoop_bounded fuel e body limit r 0 None)
        as (steps & ending & Hloop & Hn & Hl & He & Hall & Hhang); [lia|];
      rewrite Hloop
  end.
  assert (Hsteps :
    0 <= requests steps <= Z.max 0 (default 1 (maxRetries execution) + 1) /\
    (forall ms, last steps <> Some (Wait ms)) /\
    (forall e body limit, Request e body limit ∈ steps ->
       e <> [] /\ Some (c :: endpoint) = Some e)).
  { split; [lia|]. split.
    - intros ms Hms. destruct steps as [|s steps]; [discriminate|].
      rewrite Hl in Hms by discriminate. discriminate.
    - intros e body limit H.
      rewrite Forall_forall in Hall. apply Hall in H.
      destruct H as [H|[ms H]]; inversion H. split; [discriminate|reflexivity]. }
  destruct Hsteps as (H1 & H2 & H3).
  replace (0 + requests steps - 1) with (requests steps - 1) in Hhang by lia.
  destruct ending as [ending|lastError].
  - exists steps, ending. split; [reflexivity|].
    split; [exact H1|]. split; [exact H2|]. split; [exact H3|].
    rewrite <- Hhang. split; congruence.
  - eexists steps, _. split; [reflexivity|].
    split; [exact H1|]. split; [exact H2|]. split; [exact H3|].
    split; [discriminate|].
    intros H. apply Hhang in H. discriminate.
Qed.

End WithEndpoint.

(** *** Instances *)

Import Scenarios.

Lemma customer_tool_exhausted_witness :
  (forall k, 0 <= k <= 2 ->
     exists m, CustomerTool.thrown typeError (timesOut k) = Some m) /\
  exists steps m,
    CustomerTool.executeCustomerTool serialize timesOut typeError
      (lit "lookup") JNull (customerTool (Some 2)) =
      Some (steps,
            Returns
              (failure (lit "CUSTOMER tool failed after 3 attempts: "
                          ++ lastMessage (Some m)))) /\
    CustomerTool.thrown typeError (timesOut 2) = Some m /\
    requests steps = 3 /\
    waited steps = 3000 /\
    (forall ms, last steps <> Some (Wait ms)).
Proof.
  assert (Hfail : forall k, 0 <= k <= 2 ->
            exists m, CustomerTool.thrown typeError (timesOut k) = Some m)
    by (intros k _; eexists; reflexivity).
  assert (Hr : 0 <= 2 < 1014) by lia.
  split; [exact Hfail|].
  exact (customer_tool_exhausted serialize timesOut typeError (lit "lookup")
           JNull (customerTool (Some 2)) 104%N
           (lit "ttps://shop.example/tool") 2 eq_refl eq_refl Hr Hfail).
Defined.

Lemma customer_tool_first_answer_witness :
  (forall j, 0 <= j < 1 ->
     exists m, CustomerTool.thrown typeError (answersAt 1 j) = Some m) /\
  exists steps,
    CustomerTool.executeCustomerTool serialize (answersAt 1) typeError
      (lit "lookup") JNull (customerTool None) =
      Some (steps, Returns (JObject [(lit "success", JBool true)])) /\
    requests steps = 2 /\
    waited steps = 1000.
Proof.
  assert (Hfail : forall j, 0 <= j < 1 ->
            exists m, CustomerTool.thrown typeError (answersAt 1 j) = Some m).
  { intros j Hj. assert (j = 0) as -> by lia. eexists; reflexivity. }
  assert (Hk : 0 <= 1 <= 1) by lia.
  assert (Hk' : 1 < 1014) by lia.
  assert (Hnull : JObject [(lit "success", JBool true)] <> JNull)
    by discriminate.
  split; [exact Hfail|].
  exact (customer_tool_first_answer serialize (answersAt 1) typeError
           (lit "lookup") JNull (customerTool None) 104%N
           (lit "ttps://shop.example/tool") 1 1
           (JObject [(lit "success", JBool true)])
           eq_refl eq_refl Hk Hk' Hfail eq_refl Hnull).
Defined.

End CustomerToolMore.

(** ** Skill invocations *)

Module SkillParserMore.
Import SkillParser SkillQueries.

Lemma nameRun_split s :
  exists after,
    s = nameRun s ++ after /\
    Forall (fun c => isNameChar c = true) (nameRun s) /\
    (forall c, head after = Some c -> isNameChar c = false).
Proof.
  induction s as [|c s (after & Hs & Hall & Hhead)]; cbn [nameRun].
  - exists []. repeat split; [constructor | discriminate].
  - destruct (isNameChar c) eqn:Hc.
    + exists after. repeat split.
      * cbn [app]. f_equal. exact Hs.
      * constructor; assumption.
      * exact Hhead.
    + exists (c :: s). repeat split; [constructor|].
      intros d [= <-]. exact Hc.
Qed.

Lemma nameRun_run skillName after :
  Forall (fun c => isNameChar c = true) skillName ->
  (forall c, head after = Some c -> isNameChar c = false) ->
  nameRun (skillName ++ after) = skillName.
Proof.
  intros Hall Hhead. induction Hall as [|c n Hc Hall IH]; cbn [app nameRun].
  - destruct after as [|d after]; [reflexivity|].
    cbn [nameRun]. rewrite (Hhead d eq_refl). reflexivity.
  - rewrite Hc, IH. reflexivity.
Qed.

Lemma matchInvocation_cons c rest :
  matchInvocation (c :: rest) =
  match (if (c =? 47)%N then nameRun rest else []) with
  | (_ :: _) as skillName => Some skillName
  | [] => matchInvocation rest
  end.
Proof. reflexivity. Qed.

(** Whether a run starts at [s] depends on the first character only. *)
Lemma nameRun_nil s :
  nameRun s = [] <->
  (forall c, head s = Some c -> isNameChar c = false).
Proof.
  destruct s as [|c s]; cbn [nameRun head].
  - split; [discriminate | reflexivity].
  - destruct (isNameChar c) eqn:Hc; split; try discriminate; try reflexivity.
    + intros H. specialize (H c eq_refl). congruence.
    + intros _ d [= <-]. exact Hc.
Qed.

Lemma slash_not_name : isNameChar 47%N = false.
Proof. reflexivity. Qed.

(** The first match of the pattern splits the query. *)
Lemma matchInvocation_invokes query skillName :
  matchInvocation query = Some skillName ->
  exists before after, invokes query before skillName after.
Proof.
  induction query as [|c rest IH]; [discriminate|].
  rewrite matchInvocation_cons.
  destruct (if (c =? 47)%N then nameRun rest else []) as [|d run] eqn:Hrun.
  - intros H. destruct (IH H) as (before & after & Hq & Hb & Hn & Hall & Hh).
    exists (c :: before), after. repeat split; try assumption.
    + cbn [app]. f_equal. exact Hq.
    + rewrite matchInvocation_cons, Hb.
      destruct (c =? 47)%N; [|reflexivity].
      pose proof (proj1 (nameRun_nil _) Hrun) as Hfirst.
      assert (Hnil : nameRun before = []).
      { apply nameRun_nil. intros e He. destruct before as [|b before].
        - discriminate.
        - apply Hfirst. rewrite Hq. exact He. }
      rewrite Hnil. reflexivity.
  - intros [= <-]. destruct (c =? 47)%N eqn:Hc; [|discriminate].
    apply N.eqb_eq in Hc. subst c.
    destruct (nameRun_split rest) as (after & Hs & Hall & Hh).
    exists [], after. rewrite Hrun in Hs, Hall.
    repeat split; try assumption; try discriminate.
    cbn [app]. f_equal. exact Hs.
Qed.

(** A split query is matched at the split. *)
Lemma invokes_matchInvocation query before skillName after :
  invokes query before skillName after ->
  matchInvocation query = Some skillName.
Proof.
  intros (-> & Hb & Hn & Hall & Hh).
  induction before as [|c before IH].
  - cbn [app]. rewrite matchInvocation_cons.
    change (47 =? 47)%N with true. cbv iota.
    rewrite (nameRun_run _ _ Hall Hh).
    destruct skillName; [contradiction|reflexivity].
  - rewrite matchInvocation_cons in Hb.
    destruct (if (c =? 47)%N then nameRun before else []) as [|d run] eqn:Hrun;
      [|discriminate].
    cbn [app]. rewrite matchInvocation_cons.
    assert (Hrun' :
      (if (c =? 47)%N
       then nameRun (before ++ 47%N :: skillName ++ after) else []) = []).
    { destruct (c =? 47)%N; [|reflexivity].
      apply nameRun_nil. pose proof (proj1 (nameRun_nil _) Hrun) as Hfirst.
      destruct before as [|b before]; cbn [app head].
      - intros e [= <-]. exact slash_not_name.
      - exact Hfirst. }
    rewrite Hrun'. apply IH, Hb.
Qed.

(** The invocation is the first occurrence of its own text. *)
Lemma find_invocation before skillName after :
  matchInvocation before = None ->
  skillName <> [] ->
  Forall (fun c => isNameChar c = true) skillName ->
  find (47%N :: skillName) (before ++ 47%N :: skillName ++ after) =
    Some (length before).
Proof.
  intros Hb Hn Hall. induction before as [|c before IH].
  - cbn [app length]. rewrite ToolParserFacts.find_cons.
    change (47%N :: skillName ++ after)
      with ((47%N :: skillName) ++ after).
    rewrite startsWith_self. reflexivity.
  - rewrite matchInvocation_cons in Hb.
    destruct (if (c =? 47)%N then nameRun before else []) as [|d run] eqn:Hrun;
      [|discriminate].
    cbn [app length]. rewrite ToolParserFacts.find_cons.
    assert (Hno :
      startsWith (47%N :: skillName)
        (c :: before ++ 47%N :: skillName ++ after) = false).
    { cbn [startsWith]. destruct (c =? 47)%N eqn:Hc.
      2:{ rewrite N.eqb_sym, Hc. reflexivity. }
      apply N.eqb_eq in Hc. subst c. change (47 =? 47)%N with true.
      cbn [andb]. destruct skillName as [|n skillName]; [contradiction|].
      inversion Hall as [|? ? Hc Hall']; subst.
      pose proof (proj1 (nameRun_nil _) Hrun) as Hfirst.
      destruct before as [|b before]; cbn [app startsWith].
      - destruct (n =? 47)%N eqn:E; [|reflexivity].
        apply N.eqb_eq in E. subst n. discriminate.
      - destruct (n =? b)%N eqn:E; [|reflexivity].
        apply N.eqb_eq in E. subst n.
        rewrite (Hfirst b eq_refl) in Hc. discriminate. }
    rewrite Hno, (IH Hb). reflexivity.
Qed.

Lemma substitute_plain before matched after template :
  Forall (fun c => c <> 36%N) template ->
  substitute before matched after template = template.
Proof.
  intros Hall. induction Hall as [|c rest Hc Hall IH]; [reflexivity|].
  cbn [substitute].
  destruct c as [|p]; [f_equal; exact IH|].
  repeat (destruct p as [p|p|]; try (f_equal; exact IH)).
  contradiction.
Qed.

Lemma replace_invocation before skillName after template :
  matchInvocation before = None ->
  skillName <> [] ->
  Forall (fun c => isNameChar c = true) skillName ->
  replace (before ++ 47%N :: skillName ++ after) (47%N :: skillName)
    template =
  before ++ substitute before (47%N :: skillName) after template ++ after.
Proof.
  intros Hb Hn Hall. unfold replace.
  rewrite (find_invocation _ _ after Hb Hn Hall).
  cbv zeta. rewrite take_app_length.
  change (47%N :: skillName ++ after) with ((47%N :: skillName) ++ after).
  rewrite drop_app_add', drop_app_length by reflexivity. reflexivity.
Qed.

Section WithLowerCase.

Variable toLowerCase : str -> str.

#[local] Abbreviation named := (SkillParser.named toLowerCase).
#[local] Abbreviation parseSkill := (SkillParser.parseSkill toLowerCase).

Lemma find_first skillName skills s :
  List.find (named skillName) skills = Some s ->
  exists earlier later,
    skills = earlier ++ s :: later /\
    Forall (fun s' => toLowerCase (name s') <> toLowerCase skillName)
           earlier /\
    toLowerCase (name s) = toLowerCase skillName.
Proof.
  induction skills as [|s' skills IH]; [discriminate|].
  cbn [List.find]. unfold SkillParser.named at 1.
  destruct (bool_decide_reflect
              (toLowerCase (name s') = toLowerCase skillName)) as [Heq|Hne].
  - intros [= <-]. exists [], skills. repeat split; [constructor | exact Heq].
  - intros H. destruct (IH H) as (earlier & later & -> & Hall & Hs).
    exists (s' :: earlier), later. repeat split; [|exact Hs].
    constructor; assumption.
Qed.

Lemma find_absent skillName skills :
  Forall (fun s => toLowerCase (name s) <> toLowerCase skillName) skills ->
  List.find (named skillName) skills = None.
Proof.
  intros Hall. induction Hall as [|s skills Hs Hall IH]; [reflexivity|].
  cbn [List.find]. unfold SkillParser.named at 1.
  rewrite bool_decide_eq_false_2 by exact Hs. exact IH.
Qed.

(** X27. A result of [parseSkill] comes from an invocation in the query:
    the query splits into the text before the first slash that is
    followed by a name character, the name after it, and the rest; the
    skill returned is the first loaded skill whose lower-cased name is
    the lower-cased name invoked, and [skillPrompt] is its prompt. *)
Theorem skill_from_first_invocation skills query r :
  parseSkill skills query = Some r ->
  exists before skillName after earlier later,
    invokes query before skillName after /\
    skills = earlier ++ skill r :: later /\
    Forall (fun s => toLowerCase (name s) <> toLowerCase skillName) earlier /\
    toLowerCase (name (skill r)) = toLowerCase skillName /\
    skillPrompt r = prompt (skill r).
Proof.
  unfold SkillParser.parseSkill.
  destruct (matchInvocation query) as [skillName|] eqn:Hm; [|discriminate].
  destruct (List.find (named skillName) skills) as [s|] eqn:Hf;
    [|discriminate].
  intros [= <-]. cbn [skill skillPrompt].
  destruct (matchInvocation_invokes _ _ Hm) as (before & after & Hinv).
  destruct (find_first _ _ _ Hf) as (earlier & later & Hs & Hall & Hn).
  exists before, skillName, after, earlier, later.
  split; [exact Hinv|]. repeat split; assumption.
Qed.

(** X28. When the first invocation in the query names a loaded skill,
    [parseSkill] succeeds and [modifiedQuery] is the query with that
    invocation, and nothing else, replaced: the text before and after it
    is kept, and in its place stands the prompt with its dollar patterns
    expanded; a prompt without dollar sign stands there verbatim. *)
Theorem invocation_replaced skills query before skillName after s :
  invokes query before skillName after ->
  List.find (named skillName) skills = Some s ->
  exists expanded,
    parseSkill skills query =
      Some {| skill := s; skillPrompt := prompt s;
              modifiedQuery := before ++ expanded ++ after |} /\
    expanded = substitute before (47%N :: skillName) after (prompt s) /\
    (Forall (fun c => c <> 36%N) (prompt s) -> expanded = prompt s).
Proof.
  intros Hinv Hf. pose proof (invokes_matchInvocation _ _ _ _ Hinv) as Hm.
  destruct Hinv as (-> & Hb & Hn & Hall & Hh).
  eexists. split; [|split; [reflexivity | apply substitute_plain]].
  unfold SkillParser.parseSkill. rewrite Hm, Hf.
  rewrite (replace_invocation _ _ _ _ Hb Hn Hall). reflexivity.
Qed.

(** X29. When the first invocation in the query names no loaded skill,
    [parseSkill] returns null whatever follows it: an invocation of a
    loaded skill later in the query is not looked at. *)
Theorem unknown_invocation_hides_later skills query before skillName after :
  invokes query before skillName after ->
  Forall (fun s => toLowerCase (name s) <> toLowerCase skillName) skills ->
  parseSkill skills query = None.
Proof.
  intros Hinv Hall. unfold SkillParser.parseSkill.
  rewrite (invokes_matchInvocation _ _ _ _ Hinv), (find_absent _ _ Hall).
  reflexivity.
Qed.

End WithLowerCase.

(** *** Instances *)

Import Scenarios.

Lemma skill_from_first_invocation_witness :
  let r := {| skill := summarize;
              skillPrompt := lit "Summarize the following text.";
              modifiedQuery :=
                lit "please Summarize the following text. this" |} in
  SkillParser.parseSkill asciiLower [summarize]
    (lit "please /summarize this") = Some r /\
  exists before skillName after earlier later,
    invokes (lit "please /summarize this") before skillName after /\
    [summarize] = earlier ++ skill r :: later /\
    Forall (fun s => asciiLower (name s) <> asciiLower skillName) earlier /\
    asciiLower (name (skill r)) = asciiLower skillName /\
    skillPrompt r = prompt (skill r).
Proof.
  cbv zeta. split; [reflexivity|].
  exact (skill_from_first_invocation asciiLower [summarize]
           (lit "please /summarize this")
           {| skill := summarize;
              skillPrompt := lit "Summarize the following text.";
              modifiedQuery :=
                lit "please Summarize the following text. this" |}
           eq_refl).
Defined.

Lemma invocation_replaced_witness :
  invokes (lit "please /summarize this") (lit "please ") (lit "summarize")
    (lit " this") /\
  exists expanded,
    SkillParser.parseSkill asciiLower [summarize]
      (lit "please /summarize this") =
      Some {| skill := summarize; skillPrompt := prompt summarize;
              modifiedQuery := lit "please " ++ expanded ++ lit " this" |} /\
    expanded =
      substitute (lit "please ") (47%N :: lit "summarize") (lit " this")
        (prompt summarize) /\
    (Forall (fun c => c <> 36%N) (prompt summarize) ->
     expanded = prompt summarize).
Proof.
  assert (Hinv : invokes (lit "please /summarize this") (lit "please ")
                   (lit "summarize") (lit " this")).
  { split; [reflexivity|]. split; [reflexivity|]. split; [discriminate|].
    split; [repeat (constructor; [reflexivity|]); constructor|].
    intros c [= <-]. reflexivity. }
  split; [exact Hinv|].
  exact (invocation_replaced asciiLower [summarize]
           (lit "please /summarize this") (lit "please ") (lit "summarize")
           (lit " this") summarize Hinv eq_refl).
Defined.

Lemma unknown_invocation_hides_later_witness :
  invokes (lit "/translate and /summarize") [] (lit "translate")
    (lit " and /summarize") /\
  Forall (fun s => asciiLower (name s) <> asciiLower (lit "translate"))
         [summarize] /\
  SkillParser.parseSkill asciiLower [summarize]
    (lit "/translate and /summarize") = None.
Proof.
  assert (Hinv : invokes (lit "/translate and /summarize") []
                   (lit "translate") (lit " and /summarize")).
  { split; [reflexivity|]. split; [reflexivity|]. split; [discriminate|].
    split; [repeat (constructor; [reflexivity|]); constructor|].
    intros c [= <-]. reflexivity. }
  assert (Hall : Forall (fun s => asciiLower (name s)
                                  <> asciiLower (lit "translate"))
                        [summarize]).
  { constructor; [|constructor].
    intros H. vm_compute in H. discriminate H. }
  split; [exact Hinv|]. split; [exact Hall|].
  exact (unknown_invocation_hides_later asciiLower [summarize]
           (lit "/translate and /summarize") [] (lit "translate")
           (lit " and /summarize") Hinv Hall).
Defined.

End SkillParserMore.
